(** * lkg-yaz-scripts: reference normalisation and graph inference

    A shallow embedding of [scripts/utils.py] (the reference resolver) and
    of the graph-building core of [scripts/graphutils.py] (identifier
    allocation, hierarchy propagation, derivative inference, work
    inference, removal of the temporary flags), with the properties the
    specification states about them.

    Conventions.
    - A Python [str] is a [string]; non-ASCII text is its UTF-8 encoding, so
      the range mark U+00F7 is a two-byte substring.  Character classes
      ([isdigit], [strip], [\d], [[A-Za-z]]) are the ASCII ones.
    - A Python exception is [Raise e]; a function that recurses on the graph
      takes a recursion budget and returns [None] when it is used up.
    - An rdflib [Graph] is the list of its triples in insertion order,
      without repetition. *)

From stdpp Require Import base option list sorting strings gmap pretty.
From Stdlib Require Import Ascii ZArith Lia.



(** ** Exceptions *)

Inductive exn :=
  | AttributeError | ValueError | IndexError | KeyError | AssertionError.

Inductive result (A : Type) :=
  | Ok (a : A)
  | Raise (e : exn).
Arguments Ok {A} a.
Arguments Raise {A} e.

Definition rbind {A B} (m : result A) (k : A → result B) : result B :=
  match m with
  | Ok a => k a
  | Raise e => Raise e
  end.

Notation "x ←r m ; k" := (rbind m (λ x, k))
  (at level 100, m at next level, right associativity, only parsing).

(** ** Python string operations *)

Module Str.

Definition isdigit (c : ascii) : bool :=
  let n := nat_of_ascii c in (48 <=? n) && (n <=? 57).

Definition isletter (c : ascii) : bool :=
  let n := nat_of_ascii c in
  ((65 <=? n) && (n <=? 90)) || ((97 <=? n) && (n <=? 122)).

Definition isspace (c : ascii) : bool :=
  let n := nat_of_ascii c in
  ((9 <=? n) && (n <=? 13)) || ((28 <=? n) && (n <=? 32)).

Definition iscolon (c : ascii) : bool := bool_decide (c = ":"%char).

Fixpoint drop (n : nat) (s : string) : string :=
  match n, s with
  | O, _ => s
  | S k, String _ s' => drop k s'
  | S _, EmptyString => EmptyString
  end.

(** [s[-1]] *)
Fixpoint last (s : string) : option ascii :=
  match s with
  | EmptyString => None
  | String c EmptyString => Some c
  | String _ s' => last s'
  end.

(** [s[:-1]] *)
Fixpoint init (s : string) : string :=
  match s with
  | EmptyString => EmptyString
  | String c EmptyString => EmptyString
  | String c s' => String c (init s')
  end.

Definition startswith (p s : string) : bool := String.prefix p s.

Definition endswith (p s : string) : bool :=
  (String.length p <=? String.length s) &&
  bool_decide (drop (String.length s - String.length p) s = p).

(** [sep in s] *)
Fixpoint contains (sep s : string) : bool :=
  String.prefix sep s ||
  match s with
  | EmptyString => false
  | String _ s' => contains sep s'
  end.

(** [s.split(sep)] for a non-empty [sep]; [cur] is the current piece,
    reversed, and [skip] counts the characters of a separator that was
    just matched and is still to be passed over. *)
Fixpoint split_go (sep : string) (skip : nat) (cur s : string) : list string :=
  match s with
  | EmptyString => [String.rev cur]
  | String c s' =>
      match skip with
      | S k => split_go sep k cur s'
      | O =>
          if String.prefix sep s
          then String.rev cur :: split_go sep (String.length sep - 1) EmptyString s'
          else split_go sep O (String c cur) s'
      end
  end.

Definition split (sep s : string) : list string := split_go sep 0 EmptyString s.

(** [s.split(sep, 1)] *)
Fixpoint split1_go (sep cur s : string) : list string :=
  match s with
  | EmptyString => [String.rev cur]
  | String c s' =>
      if String.prefix sep s
      then [String.rev cur; drop (String.length sep) s]
      else split1_go sep (String c cur) s'
  end.

Definition split1 (sep s : string) : list string := split1_go sep EmptyString s.

(** [s.rsplit(sep, 1)]: the last occurrence of [sep] is the first
    occurrence of its mirror image in the mirror image of [s]. *)
Definition rsplit1 (sep s : string) : list string :=
  match split1 (String.rev sep) (String.rev s) with
  | [a; b] => [String.rev b; String.rev a]
  | _ => [s]
  end.

Fixpoint lstrip (P : ascii → bool) (s : string) : string :=
  match s with
  | EmptyString => EmptyString
  | String c s' => if P c then lstrip P s' else s
  end.

Fixpoint rstrip (P : ascii → bool) (s : string) : string :=
  match s with
  | EmptyString => EmptyString
  | String c s' =>
      match rstrip P s' with
      | EmptyString => if P c then EmptyString else String c EmptyString
      | r => String c r
      end
  end.

Definition strip (P : ascii → bool) (s : string) : string :=
  rstrip P (lstrip P s).

Fixpoint takewhile (P : ascii → bool) (s : string) : string :=
  match s with
  | EmptyString => EmptyString
  | String c s' => if P c then String c (takewhile P s') else EmptyString
  end.

(** [re.match(r"[A-Za-z]+", s)] and [re.match(r"\d+", s)]: the matched
    text, or [None] when the match object is [None]. *)
Definition re_match (P : ascii → bool) (s : string) : option string :=
  match takewhile P s with
  | EmptyString => None
  | m => Some m
  end.

Definition digit_value (c : ascii) : nat := nat_of_ascii c - 48.

Fixpoint digits_go (acc : nat) (s : string) : nat :=
  match s with
  | EmptyString => acc
  | String c s' => digits_go (10 * acc + digit_value c) s'
  end.

(** [int(s)] for a string of decimal digits *)
Definition int_of_digits (s : string) : nat := digits_go 0 s.

Fixpoint forallb (P : ascii → bool) (s : string) : bool :=
  match s with
  | EmptyString => true
  | String c s' => P c && forallb P s'
  end.

(** [int(s)]: an optional sign and decimal digits, [ValueError] otherwise. *)
Definition int (s : string) : result Z :=
  let body sgn d :=
    match d with
    | EmptyString => Raise ValueError
    | _ => if forallb isdigit d then Ok (sgn * Z.of_nat (int_of_digits d))%Z
           else Raise ValueError
    end in
  match s with
  | String "-" d => body (-1)%Z d
  | String "+" d => body 1%Z d
  | _ => body 1%Z s
  end.

(** [sep.join(l)] *)
Fixpoint join (sep : string) (l : list string) : string :=
  match l with
  | [] => EmptyString
  | [x] => x
  | x :: l' => x +:+ sep +:+ join sep l'
  end.

(** [range(a, b + 1)] over the naturals *)
Definition range_incl (a b : nat) : list nat := seq a (S b - a).

(** [range(a, b)] over the integers *)
Definition zrange (a b : Z) : list Z :=
  (λ i : nat, (a + Z.of_nat i)%Z) <$> seq 0 (Z.to_nat (b - a)).

(** [s.replace(old, new, 1)] *)
Definition replace1 (old new s : string) : string :=
  match split1 old s with
  | [a; b] => a +:+ new +:+ b
  | _ => s
  end.

(** [s.split()]: the maximal runs of characters that are not white space *)
Fixpoint words_go (cur : string) (s : string) : list string :=
  match s with
  | EmptyString =>
      match cur with EmptyString => [] | _ => [String.rev cur] end
  | String c s' =>
      if isspace c
      then match cur with
           | EmptyString => words_go EmptyString s'
           | _ => String.rev cur :: words_go EmptyString s'
           end
      else words_go (String c cur) s'
  end.

Definition words (s : string) : list string := words_go EmptyString s.

(** [s[:n]] *)
Fixpoint take (n : nat) (s : string) : string :=
  match n, s with
  | S k, String c s' => String c (take k s')
  | _, _ => EmptyString
  end.

(** [s.upper()], on the ASCII letters *)
Definition upper_char (c : ascii) : ascii :=
  let n := nat_of_ascii c in
  if (97 <=? n) && (n <=? 122) then ascii_of_nat (n - 32) else c.

Fixpoint upper (s : string) : string :=
  match s with
  | EmptyString => EmptyString
  | String c s' => String (upper_char c) (upper s')
  end.

(** [s.replace(old, new)] for a non-empty [old] *)
Definition replace (old new s : string) : string := join new (split old s).

End Str.

(** The range mark of the source sheets, U+00F7, in UTF-8. *)
Definition RANGE_MARK : string := "÷".

(** ** [utils.py]: the reference resolver *)

(** [expand_range] *)
Definition expand_range (src : string) : result (list string) :=
  if negb (Str.contains RANGE_MARK src) then Ok [src]
  else
    let bounds := Str.split1 RANGE_MARK src in
    match Str.rsplit1 "." (default EmptyString (bounds !! 0)) with
    | [mainid; firstpart] =>
        match Str.rsplit1 "." (default EmptyString (bounds !! 1)) !! 1 with
        | None => Raise IndexError
        | Some lastpart =>
            f ←r Str.int firstpart;
            l ←r Str.int lastpart;
            Ok ((λ subid : Z, mainid +:+ "." +:+ pretty subid) <$>
                  Str.zrange f (l + 1))
        end
    | _ => Raise ValueError
    end.

(** The first half of the loop body of [normalize_ref]: the sub-token with
    its namespace and sheet prefix; [None] is the [continue] of the branch
    for a prefix that is not in [lang_prefixes]. *)
Definition sref_prefix (prefix_default prefix_nf : string)
    (lang_prefixes : list string) (prefix_other : string)
    (sref : string) : result (option string) :=
  match sref with
  | String c _ =>
      if Str.isdigit c then
        let prefix :=
          if bool_decide (prefix_default ∈ lang_prefixes)
          then prefix_nf +:+ prefix_default
          else prefix_other +:+ prefix_default in
        Ok (Some (prefix +:+ sref))
      else
        match Str.re_match Str.isletter sref with
        | None => Raise AttributeError
        | Some prefix =>
            let number := Str.strip Str.iscolon (Str.drop (String.length prefix) sref) in
            if bool_decide (prefix ∈ lang_prefixes)
            then Ok (Some (prefix_nf +:+ prefix +:+ number))
            else Ok None
        end
  | EmptyString => Raise IndexError
  end.

(** The second half: the references a prefixed sub-token expands to. *)
Definition sref_expand (sref : string) : result (list string) :=
  let parts := Str.split RANGE_MARK sref in
  if bool_decide (1 < length parts) then
    let idfirst := Str.rsplit1 "." (default EmptyString (head parts)) in
    let idlast := Str.rsplit1 "." (default EmptyString (list.last parts)) in
    let idfirst0 := default EmptyString (head idfirst) in
    let lastid := default EmptyString (list.last idlast) in
    let '(lastid, chapters) :=
      if Str.contains ";" lastid then
        let allparts := Str.split ";" lastid in
        (default EmptyString (head allparts),
         omap (λ p, (λ n, idfirst0 +:+ "." +:+ n) <$> Str.re_match Str.isdigit p)
              (tail allparts))
      else (lastid, []) in
    match Str.re_match Str.isdigit (default EmptyString (list.last idfirst)),
          Str.re_match Str.isdigit lastid with
    | Some numf, Some numl =>
        Ok (chapters ++
            ((λ x : nat, idfirst0 +:+ "." +:+ pretty x) <$>
               Str.range_incl (Str.int_of_digits numf) (Str.int_of_digits numl)))
    | _, _ => Ok chapters
    end
  else if Str.contains ";" sref then
    match Str.split1 "." sref with
    | [mainid; subids] =>
        Ok ((λ subid, mainid +:+ "." +:+ subid) <$> Str.split ";" subids)
    | _ => Raise ValueError
    end
  else if negb (Str.endswith "?" sref) then Ok [sref]
  else Ok [].

(** The references one [sref] of [normalize_ref] appends to [refs]: the
    body of the inner loop. *)
Definition normalize_sref (prefix_default prefix_nf : string)
    (lang_prefixes : list string) (prefix_other : string)
    (sref : string) : result (list string) :=
  if bool_decide (Str.strip Str.isspace sref = EmptyString) then Ok []
  else
    prefixed ←r sref_prefix prefix_default prefix_nf lang_prefixes prefix_other sref;
    match prefixed with
    | None => Ok []
    | Some sref => sref_expand sref
    end.

(** Running a loop body over a list, stopping at the first exception. *)
Fixpoint collect {A B} (f : A → result (list B)) (l : list A) : result (list B) :=
  match l with
  | [] => Ok []
  | x :: l' =>
      r ←r f x;
      rs ←r collect f l';
      Ok (r ++ rs)
  end.

(** [normalize_ref] *)
Definition normalize_ref (sourceref prefix_default prefix_nf : string)
    (lang_prefixes : list string) (prefix_other : string) : result string :=
  refs ←r collect (λ subref,
            collect (normalize_sref prefix_default prefix_nf lang_prefixes prefix_other)
                    (Str.split "+" subref))
          (Str.split ", " sourceref);
  Ok (Str.join " " refs).


(** The relation suffixes, the keys of [REFCHARS]. *)
Definition relation_suffix (c : ascii) : bool :=
  bool_decide (c ∈ ["-"; ">"; "<"; "!"]%char).

(** What the specification asks of the resolver, as predicates on one call. *)

(** Every identifier in the output of the call ends in the character [c]. *)
Definition suffix_on_every_id (sourceref prefix_default prefix_nf : string)
    (lang_prefixes : list string) (prefix_other : string) (c : ascii) : Prop :=
  ∀ out, normalize_ref sourceref prefix_default prefix_nf lang_prefixes prefix_other = Ok out →
    Forall (λ id, Str.last id = Some c) (Str.words out).

(** The output of the call has an identifier that starts with [p]. *)
Definition routed_under (sourceref prefix_default prefix_nf : string)
    (lang_prefixes : list string) (prefix_other : string) (p : string) : Prop :=
  ∃ out, normalize_ref sourceref prefix_default prefix_nf lang_prefixes prefix_other = Ok out ∧
    Exists (λ id, Str.startswith p id = true) (Str.words out).

(** ** rdflib terms and graphs *)

Inductive term :=
  | URIRef (iri : string)
  | Literal (lex : string) (datatype : option string).

#[global] Instance term_eq_dec : EqDecision term.
Proof. solve_decision. Defined.

Definition triple : Type := term * term * term.

Definition subj (t : triple) : term := t.1.1.
Definition pred (t : triple) : term := t.1.2.
Definition obj (t : triple) : term := t.2.

(** A graph: its triples in insertion order. *)
Abbreviation Graph := (list triple).

(** Truth value of [x] in [if x:] and [if not x:] for a term or [None]. *)
Definition truthy (x : option term) : bool :=
  match x with
  | None => false
  | Some (URIRef iri) => negb (bool_decide (iri = EmptyString))
  | Some (Literal lex _) => negb (bool_decide (lex = EmptyString))
  end.

Module Rdf.

(** One position of a triple pattern: [None] matches anything. *)
Definition pat_ok (q : option term) (x : term) : bool :=
  match q with
  | None => true
  | Some y => bool_decide (x = y)
  end.

Definition matches (s p o : option term) (t : triple) : bool :=
  pat_ok s (subj t) && pat_ok p (pred t) && pat_ok o (obj t).

(** [graph.triples((s, p, o))] *)
Definition triples (g : Graph) (s p o : option term) : list triple :=
  filter (λ t, matches s p o t) g.

(** [(s, p, o) in graph] *)
Definition contains (g : Graph) (s p o : option term) : bool :=
  match triples g s p o with
  | [] => false
  | _ => true
  end.

(** [graph.add((s, p, o))]: a triple already present is not added again;
    a subject that is [None] fails the assertion of [Graph.add]. *)
Definition add (g : Graph) (t : triple) : Graph :=
  if decide (t ∈ g) then g else g ++ [t].

Definition add_checked (g : Graph) (s : option term) (p o : term) : result Graph :=
  match s with
  | None => Raise AssertionError
  | Some s => Ok (add g (s, p, o))
  end.

(** [graph.remove(t)] for a triple without wildcard *)
Definition remove (g : Graph) (t : triple) : Graph :=
  filter (λ t', t' ≠ t) g.

(** [graph.objects(s, p)], [graph.subjects(p, o)], [graph.subjects(p)] *)
Definition objects (g : Graph) (s p : term) : list term :=
  obj <$> triples g (Some s) (Some p) None.

Definition subjects (g : Graph) (p o : term) : list term :=
  subj <$> triples g None (Some p) (Some o).

Definition subjects_of (g : Graph) (p : term) : list term :=
  subj <$> triples g None (Some p) None.

(** [graph.predicates(s, o, unique=True)] *)
Definition predicates (g : Graph) (s o : term) : list term :=
  remove_dups (pred <$> triples g (Some s) None (Some o)).

(** [graph.predicate_objects(s)] *)
Definition predicate_objects (g : Graph) (s : term) : list (term * term) :=
  (λ t, (pred t, obj t)) <$> triples g (Some s) None None.

(** [graph.value(s, p)]: the first object, or [None] *)
Definition value (g : Graph) (s p : term) : option term :=
  head (objects g s p).

(** [graph += other] *)
Definition iadd (g other : Graph) : Graph := foldl add g other.

End Rdf.

(** ** Vocabulary *)

Definition Namespace (base name : string) : term := URIRef (base +:+ name).

(** [namespaces/_LKG.py] *)
Definition LKG_NS : string := "http://lkg.org.pl/ns/lkg-core/".
Definition LKG : string → term := Namespace LKG_NS.

(** Modelled from the spec: the modules [namespaces/_CIDOC.py] and
    [namespaces/_LRMOO.py] are not among the sources.  Their terms are
    named as graphutils.py names them, under the namespace IRIs of the two
    published ontologies; the properties below only use that different
    names give different terms. *)
Definition CIDOC : string → term := Namespace "http://www.cidoc-crm.org/cidoc-crm/".
Definition LRMOO : string → term := Namespace "http://iflastandards.info/ns/lrm/lrmoo/".

(** rdflib's own namespaces *)
Definition RDF : string → term := Namespace "http://www.w3.org/1999/02/22-rdf-syntax-ns#".
Definition RDFS : string → term := Namespace "http://www.w3.org/2000/01/rdf-schema#".
Definition SKOS : string → term := Namespace "http://www.w3.org/2004/02/skos/core#".
Definition XSD_float : string := "http://www.w3.org/2001/XMLSchema#float".
Definition XSD_boolean : string := "http://www.w3.org/2001/XMLSchema#boolean".

Definition RDF_type : term := RDF "type".
Definition RDFS_label : term := RDFS "label".
Definition UILABEL : term := SKOS "prefLabel".
Definition ORDERLABEL : term := SKOS "hiddenLabel".
Definition SEARCHLABEL : term := SKOS "altLabel".

Definition R5_has_component : term := LRMOO "R5_has_component".
Definition R5i_is_component_of : term := LRMOO "R5i_is_component_of".
Definition R76_is_derivative_of : term := LRMOO "R76_is_derivative_of".
Definition R3_is_realised_in : term := LRMOO "R3_is_realised_in".
Definition R3i_realises : term := LRMOO "R3i_realises".
Definition R16_created : term := LRMOO "R16_created".
Definition R16i_was_created_by : term := LRMOO "R16i_was_created_by".
Definition R17i_was_created_by : term := LRMOO "R17i_was_created_by".
Definition R19_created_a_realisation_of : term := LRMOO "R19_created_a_realisation_of".
Definition R19i_was_realised_through : term := LRMOO "R19i_was_realised_through".
Definition F1_Work : term := LRMOO "F1_Work".
Definition F2_Expression : term := LRMOO "F2_Expression".
Definition F3_Manifestation : term := LRMOO "F3_Manifestation".
Definition F11_Corporate_Body : term := LRMOO "F11_Corporate_Body".
Definition F27_Work_Creation : term := LRMOO "F27_Work_Creation".

Definition S141_composed_by : term := LKG "S141_composed_by".
Definition S142_written_by : term := LKG "S142_written_by".
Definition S143_translated_by : term := LKG "S143_translated_by".
Definition S144_edited_by : term := LKG "S144_edited_by".
Definition S146_performed_by : term := LKG "S146_performed_by".
Definition S147_directed_by : term := LKG "S147_directed_by".
Definition S761_is_translation_of : term := LKG "S761_is_translation_of".
Definition S762_is_altered_form_of : term := LKG "S762_is_altered_form_of".
Definition S763_is_reduced_form_of : term := LKG "S763_is_reduced_form_of".
Definition S764_is_extended_form_of : term := LKG "S764_is_extended_form_of".

Definition P1_is_identified_by : term := CIDOC "P1_is_identified_by".
Definition P102_has_title : term := CIDOC "P102_has_title".
Definition P72_has_language : term := CIDOC "P72_has_language".
Definition E41_Appellation : term := CIDOC "E41_Appellation".
Definition E42_Identifier : term := CIDOC "E42_Identifier".
Definition E35_Title : term := CIDOC "E35_Title".
Definition E52_Time_Span : term := CIDOC "E52_Time_Span".
Definition E21_Person : term := CIDOC "E21_Person".
Definition E53_Place : term := CIDOC "E53_Place".

(** [LKG["SKIP"]], the temporary flag, and [Literal(True)] *)
Definition SKIP : term := LKG "SKIP".
Definition Literal_True : term := Literal "true" (Some XSD_boolean).

(** The alternation of the five derivative relations ([derivoptions], and
    [derivpath] before its closure). *)
Definition derivrels : list term :=
  [ R76_is_derivative_of; S761_is_translation_of; S762_is_altered_form_of;
    S763_is_reduced_form_of; S764_is_extended_form_of ].

(** ** [remove_tempflags] *)

(** The loop removes the triples that [graph.triples] yields one by one;
    the store hands out the matches from copies of its index keys, so each
    triple that matched when the loop began is visited. *)
Definition remove_tempflags (graph : Graph) : Graph :=
  foldl Rdf.remove graph (Rdf.triples graph None (Some SKIP) None).

(** ** [propagate_through_prop] *)

(** The node the relation is attached to: [node] itself, or its first
    neighbour when a [neighbor_prop] is given. *)
Definition resolve (neighbor_prop : option term) (graph : Graph) (node : term)
    : option term :=
  if truthy neighbor_prop
  then Rdf.value graph node (default node neighbor_prop)
  else Some node.

(** The [while linked:] loop; [recur] is the recursive call. *)
Fixpoint propagate_loop (recur : Graph → term → option (result Graph))
    (predicate object : term) (neighbor_prop : option term)
    (linked : list term) (graph : Graph) : option (result Graph) :=
  match linked with
  | [] => Some (Ok graph)
  | node :: linked' =>
      let obj := resolve neighbor_prop graph node in
      if Rdf.contains graph obj (Some predicate) (Some object)
      then propagate_loop recur predicate object neighbor_prop linked' graph
      else
        match Rdf.add_checked graph obj predicate object with
        | Raise e => Some (Raise e)
        | Ok graph' =>
            match recur graph' node with
            | Some (Ok graph'') =>
                propagate_loop recur predicate object neighbor_prop linked' graph''
            | stop => stop
            end
        end
  end.

Fixpoint propagate_through_prop (fuel : nat) (graph : Graph)
    (src_node hierarchy_prop predicate object : term)
    (neighbor_prop : option term) : option (result Graph) :=
  match fuel with
  | O => None
  | S fuel' =>
      (* [linked.pop()] takes the nodes from the end of the list *)
      propagate_loop
        (λ graph' node, propagate_through_prop fuel' graph' node hierarchy_prop
                          predicate object neighbor_prop)
        predicate object neighbor_prop
        (reverse (Rdf.objects graph src_node hierarchy_prop)) graph
  end.

(** The descendants of [n] down to depth [d], in the order in which the
    propagation reaches them. *)
Fixpoint visit_order (d : nat) (graph : Graph) (hierarchy_prop n : term) : list term :=
  match d with
  | O => []
  | S d' =>
      flat_map (λ c, c :: visit_order d' graph hierarchy_prop c)
               (reverse (Rdf.objects graph n hierarchy_prop))
  end.

(** Below [n] every node has [b] children down to depth [d], where the
    leaves are. *)
Fixpoint full_tree (b d : nat) (graph : Graph) (hierarchy_prop n : term) : bool :=
  match d with
  | O => bool_decide (Rdf.objects graph n hierarchy_prop = [])
  | S d' =>
      bool_decide (length (Rdf.objects graph n hierarchy_prop) = b) &&
      forallb (full_tree b d' graph hierarchy_prop) (Rdf.objects graph n hierarchy_prop)
  end.

(** [b^1 + ... + b^d] *)
Definition geometric_sum (b d : nat) : nat :=
  sum_list ((λ i, b ^ i) <$> seq 1 d).

(** ** The block "Link to source if derivative" of [add_nonfic] *)

(** [REFCHARS]; the string "SKIP" is [None] on the right. *)
Definition REFCHARS (c : ascii) : option (option term) :=
  if bool_decide (c = "-"%char) then Some None
  else if bool_decide (c = ">"%char) then Some (Some S763_is_reduced_form_of)
  else if bool_decide (c = "<"%char) then Some (Some S764_is_extended_form_of)
  else if bool_decide (c = "!"%char) then Some (Some S762_is_altered_form_of)
  else None.

(** The loop [while not ref[-1].isdigit()], on the mirror image of [ref]:
    the shortened reference, the relations read off its end, and whether
    the skip character was met. *)
Fixpoint scan_refchars (rref : string) (preciserels : list term)
    : result (string * list term * bool) :=
  match rref with
  | EmptyString => Raise IndexError
  | String c rref' =>
      if Str.isdigit c then Ok (String.rev rref, preciserels, false)
      else
        match REFCHARS c with
        | Some None => Ok (String.rev rref, preciserels, true)
        | Some (Some pr) =>
            if truthy (Some pr)
            then scan_refchars rref' (preciserels ++ [pr])
            else scan_refchars rref' preciserels
        | None => scan_refchars rref' preciserels
        end
  end.

Definition link_source (graph : Graph) (f2_uri nfprefix lang ref : string)
    : result Graph :=
  scanned ←r scan_refchars (String.rev ref) [];
  let '(ref, preciserels, skip) := scanned in
  if (skip : bool) then Ok (Rdf.add graph (LKG f2_uri, SKIP, Literal_True))
  else
    preciserels ←r
      (if Str.startswith nfprefix ref then
         match Str.re_match Str.isletter (Str.drop (String.length nfprefix) ref) with
         | None => Raise AttributeError
         | Some nextprefix =>
             if bool_decide (nextprefix ≠ lang)
             then Ok (preciserels ++ [S761_is_translation_of])
             else Ok preciserels
         end
       else Ok preciserels);
    let src_uri := "F2_" +:+ ref in
    let graph := foldl (λ g pr, Rdf.add g (LKG f2_uri, pr, LKG src_uri)) graph preciserels in
    match preciserels with
    | [] => Ok (Rdf.add graph (LKG f2_uri, R76_is_derivative_of, LKG src_uri))
    | _ => Ok graph
    end.

Fixpoint link_sources_loop (graph : Graph) (f2_uri nfprefix lang : string)
    (refs : list string) : result Graph :=
  match refs with
  | [] => Ok graph
  | ref :: refs' =>
      graph' ←r link_source graph f2_uri nfprefix lang ref;
      link_sources_loop graph' f2_uri nfprefix lang refs'
  end.

(** [for ref in row["refs_normal"].split(): ...] *)
Definition link_sources (graph : Graph) (f2_uri refs_normal nfprefix lang : string)
    : result Graph :=
  link_sources_loop graph f2_uri nfprefix lang (Str.words refs_normal).

(** The nodes a propagation can reach: the objects of the graph, with the
    value that is propagated; and those of them that do not carry the
    relation yet. *)
Definition universe (graph : Graph) (object : term) : list term :=
  object :: (obj <$> graph).

Definition unmarked (predicate object : term) (U : list term) (graph : Graph)
    : list term :=
  filter (λ x, (x, predicate, object) ∉ graph) U.

(** A small hierarchy for the examples: a root with two components that
    have two components each. *)
Definition example_hierarchy : Graph :=
  [ (LKG "F2_r", R5_has_component, LKG "F2_a");
    (LKG "F2_r", R5_has_component, LKG "F2_b");
    (LKG "F2_a", R5_has_component, LKG "F2_a1");
    (LKG "F2_a", R5_has_component, LKG "F2_a2");
    (LKG "F2_b", R5_has_component, LKG "F2_b1");
    (LKG "F2_b", R5_has_component, LKG "F2_b2") ].

(** ** [infer_derivatives] *)

(** The order of [sorted] on terms: rdflib puts a [URIRef] before a
    [Literal] and compares terms of one kind as strings. *)
Definition term_le (x y : term) : Prop :=
  match x, y with
  | URIRef a, URIRef b => String.le a b
  | URIRef _, Literal _ _ => True
  | Literal _ _, URIRef _ => False
  | Literal a _, Literal b _ => String.le a b
  end.

#[global] Instance term_le_dec : RelDecision term_le.
Proof. intros [a|a ?] [b|b ?]; cbn; apply _. Defined.

Definition sorted (l : list term) : list term := merge_sort term_le l.

(** [graph.objects(s, derivoptions, unique=True)] *)
Definition deriv_objects (graph : Graph) (s : term) : list term :=
  remove_dups (flat_map (Rdf.objects graph s) derivrels).

(** [set.intersection] of at least one set *)
Definition intersection (sets : list (list term)) : list term :=
  match sets with
  | [] => []
  | s :: sets' => filter (λ p, Forall (λ s', p ∈ s') sets') s
  end.

(** [len(set(l)) == 1] *)
Definition one_value (l : list term) : bool :=
  bool_decide (length (remove_dups l) = 1).

(** What [_infer_derivative] returns: [None], or relations and a target. *)
Abbreviation derivinfo := (option (list term * term)).

(** [[_infer_derivative(graph, child) for child in children]]; [recur] is
    the recursive call, which may add to the graph. *)
Fixpoint infer_children (recur : Graph → term → option (Graph * derivinfo))
    (children : list term) (graph : Graph) : option (Graph * list derivinfo) :=
  match children with
  | [] => Some (graph, [])
  | child :: children' =>
      match recur graph child with
      | None => None
      | Some (graph', di) =>
          match infer_children recur children' graph' with
          | None => None
          | Some (graph'', dis) => Some (graph'', di :: dis)
          end
      end
  end.

Fixpoint _infer_derivative (fuel : nat) (graph : Graph) (sender_node : term)
    : option (Graph * derivinfo) :=
  match fuel with
  | O => None
  | S fuel' =>
      let children := Rdf.objects graph sender_node R5_has_component in
      match children with
      | _ :: _ =>
          match infer_children (_infer_derivative fuel') children graph with
          | None => None
          | Some (graph, derivinfo) =>
              match mapM id derivinfo with
              | Some dis =>
                  if one_value (snd <$> dis) then
                    let outputprops := intersection (fst <$> dis) in
                    let ref := Rdf.value graph (default sender_node (snd <$> head dis))
                                 R5i_is_component_of in
                    if truthy ref then
                      let ref := default sender_node ref in
                      Some (foldl (λ g p, Rdf.add g (sender_node, p, ref)) graph
                                  (sorted outputprops),
                            Some (outputprops, ref))
                    else Some (graph, None)
                  else Some (graph, None)
              | None => Some (graph, None)
              end
          end
      | [] =>
          match deriv_objects graph sender_node with
          | [refnode] =>
              Some (graph, Some (Rdf.predicates graph sender_node refnode, refnode))
          | _ => Some (graph, None)
          end
      end
  end.

(** The loop of [infer_derivatives] over the subjects of the component
    relation; the store yields them from copies of its index keys, and the
    inference adds no component triple of its own. *)
Fixpoint infer_derivatives_loop (fuel : nat) (subjects : list term) (graph : Graph)
    : option Graph :=
  match subjects with
  | [] => Some graph
  | s :: subjects' =>
      if negb (truthy (Rdf.value graph s R5i_is_component_of)) then
        match _infer_derivative fuel graph s with
        | None => None
        | Some (graph', _) => infer_derivatives_loop fuel subjects' graph'
        end
      else infer_derivatives_loop fuel subjects' graph
  end.

Definition infer_derivatives (fuel : nat) (graph : Graph) : option Graph :=
  infer_derivatives_loop fuel (Rdf.subjects_of graph R5_has_component) graph.

(** Two composite expressions with two components each. *)
Definition has_components (parent : term) (components : list term) : Graph :=
  flat_map (λ c, [(parent, R5_has_component, c); (c, R5i_is_component_of, parent)])
           components.

Definition composites_A_B : Graph :=
  has_components (LKG "F2_A") [LKG "F2_a1"; LKG "F2_a2"] ++
  has_components (LKG "F2_B") [LKG "F2_b1"; LKG "F2_b2"].

(** The contract of the input graph: no derivative relation holds from an
    expression to itself or in both directions, and the two component
    relations mirror each other with at most one parent per expression. *)
Definition irreflexive (g : Graph) : Prop :=
  Forall (λ t, pred t ∈ derivrels → subj t ≠ obj t) g.

Definition asymmetric (g : Graph) : Prop :=
  Forall (λ t, pred t ∈ derivrels → (obj t, pred t, subj t) ∉ g) g.

Definition component_tree (g : Graph) : Prop :=
  Forall (λ t,
    (pred t = R5_has_component → (obj t, R5i_is_component_of, subj t) ∈ g) ∧
    (pred t = R5i_is_component_of →
       (obj t, R5_has_component, subj t) ∈ g ∧
       Forall (λ t', subj t' = subj t → pred t' = R5i_is_component_of →
                     obj t' = obj t) g)) g.

(** The evidence behind an inferred relation [p] from [n] to [t], to depth
    [k]: a node without components holds the relation itself; otherwise
    all components have it, to one node [x], of which [t] is a parent. *)
Fixpoint bottom_up (g : Graph) (p : term) (k : nat) (n t : term) : Prop :=
  match k with
  | O => False
  | S k' =>
      match Rdf.objects g n R5_has_component with
      | [] => (n, p, t) ∈ g
      | cs => ∃ x, Forall (λ c, bottom_up g p k' c x) cs ∧
                   (x, R5i_is_component_of, t) ∈ g
      end
  end.

(** A triple that the inference may have added to the graph [g]. *)
Definition inferred (g : Graph) (t : triple) : Prop :=
  Rdf.objects g (subj t) R5_has_component ≠ [] ∧
  pred t ≠ R5_has_component ∧ pred t ≠ R5i_is_component_of ∧
  ∃ k, bottom_up g (pred t) k (subj t) (obj t).

(** The two scenarios of the specification, over [composites_A_B], and two
    variations: both components of A translate one component of B, and the
    same with B recorded as a translation of A. *)
Definition translations_of_distinct_components : Graph :=
  composites_A_B ++
  [ (LKG "F2_a1", S761_is_translation_of, LKG "F2_b1");
    (LKG "F2_a2", S761_is_translation_of, LKG "F2_b2") ].

Definition translation_and_reduction : Graph :=
  composites_A_B ++
  [ (LKG "F2_a1", S761_is_translation_of, LKG "F2_b1");
    (LKG "F2_a2", S763_is_reduced_form_of, LKG "F2_b2") ].

Definition translations_of_one_component : Graph :=
  composites_A_B ++
  [ (LKG "F2_a1", S761_is_translation_of, LKG "F2_b1");
    (LKG "F2_a2", S761_is_translation_of, LKG "F2_b1") ].

Definition translations_against_a_parent_link : Graph :=
  translations_of_one_component ++
  [ (LKG "F2_B", S761_is_translation_of, LKG "F2_A") ].

(** The asymmetry invariant as the specification words it: on a graph that
    keeps the contract, a derivative relation that the inference adds does
    not hold in the other direction in the result, nor from a node to
    itself. *)
Definition adds_no_cycle (fuel : nat) (g : Graph) : Prop :=
  irreflexive g → asymmetric g →
  ∀ g', infer_derivatives fuel g = Some g' →
    ∀ a p b, p ∈ derivrels → (a, p, b) ∈ g' → (a, p, b) ∉ g →
      ((b, p, a) ∉ g') ∧ a ≠ b.

(** ** Identifier allocation *)

(** [get_id_from_uri] *)
Definition get_id_from_uri (uri : string) : string :=
  let split := Str.rsplit1 "/" uri in
  if bool_decide (length split = 1) then
    let split := Str.rsplit1 "#" uri in
    if bool_decide (length split = 1) then uri
    else default uri (last split)
  else default uri (last split).

(** [get_class_prefix] *)
Definition get_class_prefix (id : string) : string :=
  default id (head (Str.split "_" id)).

(** [make_autoinc_id] on the module-level dictionary [autoinc_id_counts],
    which is passed in and handed back. *)
Definition make_autoinc_id (prefix : string) (autoinc_id_counts : gmap string Z)
    : string * gmap string Z :=
  let autoinc_id_counts :=
    match autoinc_id_counts !! prefix with
    | None => <[prefix := 0%Z]> autoinc_id_counts
    | Some _ => autoinc_id_counts
    end in
  let n := default 0%Z (autoinc_id_counts !! prefix) in
  let uri := prefix +:+ "_" +:+ pretty n in
  (uri, <[prefix := (n + 1)%Z]> autoinc_id_counts).

(** A run of allocations, one per prefix of the list, in order. *)
Fixpoint allocations (prefixes : list string) (autoinc_id_counts : gmap string Z)
    : list string * gmap string Z :=
  match prefixes with
  | [] => ([], autoinc_id_counts)
  | prefix :: prefixes' =>
      let '(uri, counts) := make_autoinc_id prefix autoinc_id_counts in
      let '(uris, counts') := allocations prefixes' counts in
      (uri :: uris, counts')
  end.

(** The text of a term, [str(term)]. *)
Definition term_str (t : term) : string :=
  match t with
  | URIRef iri => iri
  | Literal lex _ => lex
  end.

(** [numbers.max()]; numpy raises on an empty array. *)
Definition zmax (numbers : list Z) : result Z :=
  match numbers with
  | [] => Raise ValueError
  | n :: numbers' => Ok (foldl Z.max n numbers')
  end.

(** The numbers of the entities of one class whose identifiers end in a
    number after the last underscore: the three numpy steps of the first
    loop of [import_lkg]. *)
Definition suffix_numbers (g : Graph) (class : term) : result (list Z) :=
  collect (λ s,
      let n := default EmptyString (last (Str.rsplit1 "_" (term_str s))) in
      z ←r Str.int (Str.lstrip Str.isletter n);
      Ok [z])
    (Rdf.subjects g RDF_type class).

(** The integer that numpy makes of the value of an order label: the
    digits before the decimal point of a float written without exponent. *)
Definition order_number (label : option term) : result Z :=
  match label with
  | None => Raise AttributeError
  | Some t => Str.int (default EmptyString (head (Str.split "." (term_str t))))
  end.

Definition order_numbers (g : Graph) (class : term) : result (list Z) :=
  collect (λ entity, z ←r order_number (Rdf.value g entity ORDERLABEL); Ok [z])
    (Rdf.subjects g RDF_type class).

Definition simple_ids : list term :=
  [E41_Appellation; E42_Identifier; E35_Title; E52_Time_Span].
Definition order_ids : list term := [F1_Work; F2_Expression; F3_Manifestation].
Definition prefixed_ids : list term := [E21_Person; E53_Place; F11_Corporate_Body].

Definition class_prefix (class : term) : string :=
  get_class_prefix (get_id_from_uri (term_str class)).

(** One of the two loops of [import_lkg]. *)
Fixpoint restore_counts (numbers_of : term → result (list Z))
    (classes : list term) (autoinc_id_counts : gmap string Z)
    : result (gmap string Z) :=
  match classes with
  | [] => Ok autoinc_id_counts
  | i :: classes' =>
      numbers ←r numbers_of i;
      m ←r zmax numbers;
      restore_counts numbers_of classes'
        (<[class_prefix i := (m + 1)%Z]> autoinc_id_counts)
  end.

(** [import_lkg], from the graph that [g.parse(path)] has loaded: the
    counters it leaves in [autoinc_id_counts]. *)
Definition import_lkg (g : Graph) (autoinc_id_counts : gmap string Z)
    : result (gmap string Z) :=
  counts ←r restore_counts (suffix_numbers g) (simple_ids ++ prefixed_ids)
              autoinc_id_counts;
  restore_counts (order_numbers g) order_ids counts.

(** A persisted graph with the persons P0 to P7 and one entity of each
    other class that [import_lkg] reads. *)
Definition typed (class : term) (id : string) : triple := (LKG id, RDF_type, class).

Definition ordered (class : term) (id key : string) : Graph :=
  [ typed class id; (LKG id, ORDERLABEL, Literal key (Some XSD_float)) ].

Definition persisted_example : Graph :=
  (typed E21_Person <$>
     ["E21_P0"; "E21_P1"; "E21_P2"; "E21_P3"; "E21_P4"; "E21_P5"; "E21_P6"; "E21_P7"]) ++
  [ typed E41_Appellation "E41_3"; typed E42_Identifier "E42_11";
    typed E35_Title "E35_0"; typed E52_Time_Span "E52_5";
    typed E53_Place "E53_L2"; typed F11_Corporate_Body "F11_C4" ] ++
  ordered F1_Work "F1_NFPL1" "0" ++
  ordered F2_Expression "F2_NFPL1" "0" ++
  ordered F2_Expression "F2_u_NFPL3_NFPL4" "1.5" ++
  ordered F3_Manifestation "F3_NFPL1" "0".

(** ** Graph objects and the module state *)

(** Graphs are mutable objects: a function that receives a graph receives
    its address in the store.  The store and the dictionary
    [autoinc_id_counts] of the module are the state that the functions
    below read and change. *)
Record world := World {
  graphs : list Graph;
  autoinc_id_counts : gmap string Z
}.

(** A computation on the state that returns a value or raises. *)
Definition M (A : Type) : Type := world → result (A * world).

Definition ret {A} (a : A) : M A := λ w, Ok (a, w).

Definition bind {A B} (m : M A) (k : A → M B) : M B :=
  λ w, match m w with
       | Ok (a, w') => k a w'
       | Raise e => Raise e
       end.

Definition raise {A} (e : exn) : M A := λ _, Raise e.

Notation "'do' x <- m ; k" := (bind m (λ x, k))
  (at level 10, x name, m at level 100, k at level 200, only parsing).
Notation "'do_' m ; k" := (bind m (λ _, k))
  (at level 10, m at level 100, k at level 200, only parsing).

(** [for x in l: body] *)
Fixpoint for_each {A} (l : list A) (body : A → M unit) : M unit :=
  match l with
  | [] => ret tt
  | x :: l' => do_ body x; for_each l' body
  end.

(** [make_base_graph]: a new, empty graph object. *)
Definition make_base_graph : M nat :=
  λ w, Ok (length (graphs w),
           World (graphs w ++ [[]]) (autoinc_id_counts w)).

(** The present triples of the graph at an address. *)
Definition the_graph (a : nat) : M Graph :=
  λ w, Ok (default [] (graphs w !! a), w).

(** [graph.add((s, p, o))] on the graph at an address; rdflib asserts that
    the three positions hold terms, so [None] raises. *)
Definition graph_add (a : nat) (s : option term) (p : term) (o : option term)
    : M unit :=
  λ w, match s, o with
       | Some s, Some o =>
           Ok (tt, World (alter (λ g, Rdf.add g (s, p, o)) a (graphs w))
                         (autoinc_id_counts w))
       | _, _ => Raise AssertionError
       end.

(** [make_autoinc_id(prefix)] on the dictionary of the module. *)
Definition autoinc (prefix : string) : M string :=
  λ w, let '(uri, counts) := make_autoinc_id prefix (autoinc_id_counts w) in
       Ok (uri, World (graphs w) counts).

(** [dict(pairs)[key]]: the last pair with the key, or [KeyError]. *)
Definition dict_get (pairs : list (term * term)) (key : term) : M term :=
  match last (filter (λ kv, kv.1 = key) pairs) with
  | Some kv => ret kv.2
  | None => raise KeyError
  end.

(** ** The closure of the derivative relations *)

(** One step along any of the derivative relations, forward and backward. *)
Definition deriv_targets (G : Graph) (x : term) : list term :=
  flat_map (Rdf.objects G x) derivrels.

Definition deriv_sources (G : Graph) (x : term) : list term :=
  flat_map (λ p, Rdf.subjects G p x) derivrels.

(** The nodes reached in one or more steps of [next], each once: rdflib's
    evaluation of a path with [OneOrMore] and [unique=True].  A node is
    expanded once, and a step either drops a node from [todo] or moves one
    to [seen], so twice the number of triples bounds the steps. *)
Fixpoint closure_go (next : term → list term) (fuel : nat) (todo seen : list term)
    : list term :=
  match fuel with
  | O => seen
  | S fuel' =>
      match todo with
      | [] => seen
      | x :: todo' =>
          if decide (x ∈ seen) then closure_go next fuel' todo' seen
          else closure_go next fuel' (next x ++ todo') (seen ++ [x])
      end
  end.

(** [graph.objects(x, derivpath, unique=True)] and
    [graph.subjects(derivpath, x, unique=True)] *)
Definition closure_objects (G : Graph) (x : term) : list term :=
  closure_go (deriv_targets G) (2 * length G + 1) (deriv_targets G x) [].

Definition closure_subjects (G : Graph) (x : term) : list term :=
  closure_go (deriv_sources G) (2 * length G + 1) (deriv_sources G x) [].

(** ** [infer_works] *)

Definition authorprops : list term :=
  [ S141_composed_by; S142_written_by; S143_translated_by; S144_edited_by;
    S146_performed_by; S147_directed_by ].

Definition copyprops : list term :=
  [ P102_has_title; P1_is_identified_by; P72_has_language; SEARCHLABEL; UILABEL ].

(** The body of the loop of [infer_works] for one expression [exp]; [graph]
    is the address of the input graph and [g] that of the result. *)
Definition infer_work (graph g : nat) (exp : term) : M unit :=
  do G <- the_graph graph;
  let sources := closure_objects G exp in
  do G <- the_graph graph;
  if bool_decide (sources = []) && bool_decide (Rdf.value G exp R3i_realises = None)
  then
    (* Don't make F1 Work for F2 containing a "-" reference *)
    do G <- the_graph graph;
    let skip := Rdf.triples G (Some exp) (Some SKIP) None in
    if bool_decide (skip ≠ []) then ret tt
    else
      do G <- the_graph graph;
      let propslist := Rdf.predicate_objects G exp in
      let f2_id := get_id_from_uri (term_str exp) in
      do f2_label <- dict_get propslist RDFS_label;
      let f1_id := Str.replace1 "F2_" "F1_" f2_id in
      let f1_label := Str.replace1 "F2" "F1" (term_str f2_label) in
      let f27_id := Str.replace1 "F2_" "F27_" f2_id in
      let f27_label := Str.replace1 "F2" "F27" (term_str f2_label) in
      let f28_id := Str.replace1 "F2_" "F28_" f2_id in
      do_ graph_add g (Some (LKG f1_id)) RDF_type (Some F1_Work);
      do_ graph_add g (Some (LKG f1_id)) RDFS_label (Some (Literal f1_label None));
      do_ for_each copyprops (λ p,
            do v <- dict_get propslist p;
            graph_add g (Some (LKG f1_id)) p (Some v));
      do uri <- autoinc "F1";
      do_ graph_add g (Some (LKG f1_id)) ORDERLABEL
            (Some (Literal (default EmptyString (last (Str.split "_" uri)))
                           (Some XSD_float)));
      do_ graph_add g (Some (LKG f1_id)) R3_is_realised_in (Some (LKG f2_id));
      do_ graph_add g (Some (LKG f2_id)) R3i_realises (Some (LKG f1_id));
      do_ graph_add g (Some (LKG f28_id)) R19_created_a_realisation_of (Some (LKG f1_id));
      do_ graph_add g (Some (LKG f1_id)) R19i_was_realised_through (Some (LKG f28_id));
      do_ graph_add g (Some (LKG f27_id)) RDF_type (Some F27_Work_Creation);
      do_ graph_add g (Some (LKG f27_id)) RDFS_label (Some (Literal f27_label None));
      do_ graph_add g (Some (LKG f27_id)) R16_created (Some (LKG f1_id));
      do_ graph_add g (Some (LKG f1_id)) R16i_was_created_by (Some (LKG f27_id));
      do G <- the_graph graph;
      do_ for_each (Rdf.predicate_objects G (LKG f28_id)) (λ pv,
            if bool_decide (pv.1 ∈ authorprops)
            then graph_add g (Some (LKG f27_id)) pv.1 (Some pv.2)
            else ret tt);
      do G <- the_graph graph;
      let derivatives := closure_subjects G exp in
      for_each derivatives (λ d,
        do_ graph_add g (Some (LKG f1_id)) R3_is_realised_in (Some d);
        do_ graph_add g (Some d) R3i_realises (Some (LKG f1_id));
        do G <- the_graph graph;
        let d_f28 := Rdf.value G d R17i_was_created_by in
        do_ graph_add g d_f28 R19_created_a_realisation_of (Some (LKG f1_id));
        graph_add g (Some (LKG f1_id)) R19i_was_realised_through d_f28)
  else ret tt.

(** [infer_works(graph)]: the address of the graph it returns. *)
Definition infer_works (graph : nat) : M nat :=
  do g <- make_base_graph;
  do G <- the_graph graph;
  do_ for_each (Rdf.subjects G RDF_type F2_Expression) (infer_work graph g);
  ret g.

(** [graph += other] on graph objects, as [build_graph] merges the result
    of [infer_works] into the graph. *)
Definition graph_iadd (graph other : nat) : M unit :=
  λ w, Ok (tt, World (alter (λ G, Rdf.iadd G (default [] (graphs w !! other)))
                            graph (graphs w))
                     (autoinc_id_counts w)).

(** An expression as [add_nonfic] records it, with what [infer_works]
    reads of it, and a graph in which one expression derives from two
    others. *)
Definition expression (yid : string) : Graph :=
  let f2 := LKG ("F2_" +:+ yid) in
  let f28 := LKG ("F28_" +:+ yid) in
  [ (f2, RDF_type, F2_Expression);
    (f2, RDFS_label, Literal ("F2 " +:+ yid) None);
    (f2, P72_has_language, LKG "E56_pol");
    (f2, UILABEL, Literal yid None);
    (f2, P102_has_title, LKG ("E35_" +:+ yid));
    (f2, P1_is_identified_by, LKG ("E42_" +:+ yid));
    (f2, R17i_was_created_by, f28);
    (f28, S142_written_by, LKG "E21_P0");
    (f2, SEARCHLABEL, Literal yid None) ].

Definition two_sources_example : Graph :=
  expression "NFPL1" ++ expression "NFPL2" ++ expression "NFRU3" ++
  [ (LKG "F2_NFRU3", S761_is_translation_of, LKG "F2_NFPL1");
    (LKG "F2_NFRU3", R76_is_derivative_of, LKG "F2_NFPL2") ].


(** A computation that leaves every graph but the one at [g] as it was,
    and creates none. *)
Definition writes_only_to (g : nat) {A} (m : M A) : Prop :=
  ∀ w a w', m w = Ok (a, w') →
    length (graphs w') = length (graphs w) ∧
    ∀ i, i ≠ g → graphs w' !! i = graphs w !! i.

(** The expression [exp] of the graph [G] passes the tests under which
    [infer_works] makes a work for it: it has no source, realises nothing
    yet and carries no skip flag. *)
Definition work_root (G : Graph) (exp : term) : Prop :=
  closure_objects G exp = [] ∧
  Rdf.value G exp R3i_realises = None ∧
  Rdf.triples G (Some exp) (Some SKIP) None = [].

(** The nodes that [infer_works] names from the identifier of [exp]. *)
Definition f2_of (exp : term) : term := LKG (get_id_from_uri (term_str exp)).

Definition f1_of (exp : term) : term :=
  LKG (Str.replace1 "F2_" "F1_" (get_id_from_uri (term_str exp))).

(** The expression [e] belongs to the work of the root [exp]. *)
Definition in_cluster (G : Graph) (exp e : term) : Prop :=
  e = f2_of exp ∨ e ∈ closure_subjects G exp.

(** The triples that [infer_works] adds for the root [exp]: a realisation
    of the work of [exp] by a member of its cluster; a type other than
    that of expressions; or a relation that is neither a type nor a
    realisation. *)
Definition work_triple (G : Graph) (exp : term) (t : triple) : Prop :=
  (pred t = R3i_realises ∧ obj t = f1_of exp ∧ in_cluster G exp (subj t)) ∨
  (pred t = RDF_type ∧ obj t ≠ F2_Expression) ∨
  (pred t ≠ R3i_realises ∧ pred t ≠ RDF_type).

(** What a computation does when the input graph, at [graph], is [G]: it
    returns a value in [P], leaves the input graph alone, and adds to the
    graph at [g] triples in [Q] only. *)
Definition adds_only (graph g : nat) (G : Graph) {A} (m : M A)
    (P : A → Prop) (Q : triple → Prop) : Prop :=
  ∀ w a w' gg,
    graphs w !! graph = Some G → graphs w !! g = Some gg →
    m w = Ok (a, w') →
    P a ∧ graphs w' !! graph = Some G ∧
    ∃ gg', graphs w' !! g = Some gg' ∧
           (∀ t, t ∈ gg → t ∈ gg') ∧
           (∀ t, t ∈ gg' → t ∈ gg ∨ Q t).

(** A computation after which the graph at [g] holds the triple [t], the
    input graph being as before. *)
Definition ensures (graph g : nat) (G : Graph) {A} (m : M A) (t : triple) : Prop :=
  ∀ w a w' gg,
    graphs w !! graph = Some G → graphs w !! g = Some gg →
    m w = Ok (a, w') →
    graphs w' !! graph = Some G ∧
    ∃ gg', graphs w' !! g = Some gg' ∧ t ∈ gg'.

(** One derivative relation of any of the five kinds from [a] to [b]. *)
Definition derives (G : Graph) (a b : term) : Prop :=
  ∃ p, p ∈ derivrels ∧ (a, p, b) ∈ G.

(** The list [refs] that [normalize_ref] has built when it returns. *)
Definition normalize_ref_list (sourceref prefix_default prefix_nf : string)
    (lang_prefixes : list string) (prefix_other : string) : result (list string) :=
  collect (λ subref,
      collect (normalize_sref prefix_default prefix_nf lang_prefixes prefix_other)
              (Str.split "+" subref))
    (Str.split ", " sourceref).

(** ** [utils.py]: names of persons *)

(** [is_same_name].  The two slices are taken at the length of the
    abbreviation without its dot; a string being its UTF-8 encoding, they
    are equal here exactly when they are equal as Python strings, since the
    abbreviation ends in the one-byte dot. *)
Definition is_same_name (a b : string) : bool :=
  let anorm := Str.strip Str.isspace (Str.upper a) in
  let bnorm := Str.strip Str.isspace (Str.upper b) in
  if bool_decide (anorm = bnorm) then true
  else if negb (xorb (Str.endswith "." anorm) (Str.endswith "." bnorm)) then false
  else
    let ini := if Str.endswith "." anorm then anorm else bnorm in
    let full := if Str.endswith "." anorm then bnorm else anorm in
    if String.length full <? String.length ini then false
    else bool_decide (Str.take (String.length ini - 1) ini
                      = Str.take (String.length ini - 1) full).

(** A Python [dict] with its keys in insertion order. *)
Abbreviation pydict K V := (list (K * V)).

Definition dict_lookup {K V} `{EqDecision K} (d : pydict K V) (k : K) : option V :=
  snd <$> head (filter (λ kv, kv.1 = k) d).

(** [d[k] = v]: a present key keeps its place. *)
Fixpoint dict_set {K V} `{EqDecision K} (d : pydict K V) (k : K) (v : V) : pydict K V :=
  match d with
  | [] => [(k, v)]
  | (k', v') :: d' =>
      if decide (k' = k) then (k, v) :: d' else (k', v') :: dict_set d' k v
  end.

(** [verify_lang]: the code that [langmap] gives for [lang], which may be
    [None]. *)
Definition verify_lang (lang : string) (langmap : pydict string (option string))
    : result (option string) :=
  match dict_lookup langmap lang with
  | None => Raise KeyError
  | Some l => Ok l
  end.

(** The languages of a dictionary of names are codes or [None]. *)
Abbreviation namedict := (pydict (option string) (list (list string))).

(** The loop [for l in langs] of [make_namedict]; [dict] is the
    dictionary that the source calls [result]. *)
Fixpoint add_alias (langmap : pydict string (option string)) (alias : string)
    (langs : list string) (dict : namedict) : result namedict :=
  match langs with
  | [] => Ok dict
  | l :: langs' =>
      l ←r verify_lang l langmap;
      add_alias langmap alias langs'
        (match dict_lookup dict l with
         | Some names => dict_set dict l (names ++ [[alias]])
         | None => dict_set dict l [[alias]]
         end)
  end.

(** The loop [for y in person_names] of [make_namedict]. *)
Fixpoint add_names (langmap : pydict string (option string))
    (person_names : list string) (dict : namedict) : result namedict :=
  match person_names with
  | [] => Ok dict
  | y :: names' =>
      let split := Str.split " (" y in
      let alias := default EmptyString (head split) in
      let langs :=
        if bool_decide (1 < length split)
        then Str.split "," (Str.rstrip (λ c, bool_decide (c = ")"%char))
                              (default EmptyString (split !! 1)))
        else [] in
      dict ←r add_alias langmap alias langs dict;
      add_names langmap names'
        (match langs with
         | [] => dict_set dict (Some "NOLANG")
                   (default [] (dict_lookup dict (Some "NOLANG")) ++ [[alias]])
         | _ => dict
         end)
  end.

(** [make_namedict] *)
Definition make_namedict (person_names : list string)
    (langmap : pydict string (option string)) : result namedict :=
  add_names langmap person_names [(Some "NOLANG", [])].

(** The normal form that [is_same_name] compares: upper case, without the
    white space around. *)
Definition name_norm (a : string) : string := Str.strip Str.isspace (Str.upper a).

(** [ini] is [full] cut short and closed with a dot, [full] itself not
    ending in a dot. *)
Definition abbreviates (ini full : string) : Prop :=
  ∃ p r, ini = p +:+ "." ∧ full = p +:+ r ∧ r ≠ EmptyString ∧
         Str.last full ≠ Some "."%char.

(** ** More of [graphutils.py] *)

(** [graph'] is [graph] followed by new triples that attach [object]
    through [predicate], each to another node. *)
Definition appends_marks (predicate object : term) (graph graph' : Graph) : Prop :=
  ∃ ys, graph' = graph ++ ((λ y, (y, predicate, object)) <$> ys) ∧
        NoDup ys ∧ Forall (λ y, (y, predicate, object) ∉ graph) ys.

(** The blocks "Link to parts" and "Link to parent if child" of
    [add_nonfic], for the expression [f2_uri] of a row. *)
Definition link_parts (graph : Graph) (f2_uri has_part part_of : string) : Graph :=
  let graph :=
    foldl (λ g component,
             let component_f2_uri := "F2_" +:+ component in
             Rdf.add (Rdf.add g (LKG f2_uri, R5_has_component, LKG component_f2_uri))
                     (LKG component_f2_uri, R5i_is_component_of, LKG f2_uri))
          graph (Str.words has_part) in
  if bool_decide (part_of ≠ EmptyString) then
    let part_of_f2_uri := "F2_" +:+ part_of in
    Rdf.add (Rdf.add graph (LKG part_of_f2_uri, R5_has_component, LKG f2_uri))
            (LKG f2_uri, R5i_is_component_of, LKG part_of_f2_uri)
  else graph.

(** The two component relations are each other's inverse in the graph. *)
Definition mirrored (g : Graph) : Prop :=
  ∀ x y, (x, R5_has_component, y) ∈ g ↔ (y, R5i_is_component_of, x) ∈ g.

(** [graph.objects(s, LRMOO.R5_has_component*OneOrMore, unique=True)] *)
Definition component_closure (G : Graph) (s : term) : list term :=
  closure_go (λ x, Rdf.objects G x R5_has_component) (2 * length G + 1)
             (Rdf.objects G s R5_has_component) [].

(** [graph.subject_objects(p, unique=True)] *)
Definition subject_objects (g : Graph) (p : term) : list (term * term) :=
  remove_dups ((λ t, (subj t, obj t)) <$> Rdf.triples g None (Some p) None).

(** [gather_down_derivatives]: the triples of the graph it returns. *)
Definition gather_down_derivatives (graph : Graph) : Graph :=
  foldl (λ resultGraph drel,
    foldl (λ resultGraph so,
      foldl (λ resultGraph c,
               Rdf.add (Rdf.add resultGraph (c, drel, so.2))
                       (c, S763_is_reduced_form_of, so.2))
            resultGraph (component_closure graph so.1))
      resultGraph (subject_objects graph drel))
    [] derivrels.

(** One component relation from [x] to [y]. *)
Definition has_component (G : Graph) (x y : term) : Prop :=
  (x, R5_has_component, y) ∈ G.
(** * Properties *)

(** ** The reference resolver *)

Example expand_range_doc :
  expand_range "355.9.1÷9.4" = Ok ["355.9.1"; "355.9.2"; "355.9.3"; "355.9.4"].
Proof. vm_compute. reflexivity. Qed.

Section StrLemmas.

Lemma split_go_absent sep cur s :
  Str.contains sep s = false →
  Str.split_go sep 0 cur s = [String.rev_app cur s].
Proof.
  revert cur. induction s as [|c s IH]; intros cur H; [done|].
  cbn [Str.contains] in H. apply orb_false_iff in H as [Hp Hc].
  cbn [Str.split_go]. rewrite Hp. by rewrite IH.
Qed.

Lemma split_absent sep s :
  Str.contains sep s = false → Str.split sep s = [s].
Proof. intros H. unfold Str.split. by rewrite split_go_absent. Qed.

Lemma last_cons c s :
  s ≠ EmptyString → Str.last (String c s) = Str.last s.
Proof. by destruct s. Qed.

Lemma last_app a b :
  b ≠ EmptyString → Str.last (a +:+ b) = Str.last b.
Proof.
  intros Hb. induction a as [|c a IH]; [done|].
  change (String c a +:+ b) with (String c (a +:+ b)).
  rewrite last_cons; [done|]. destruct a; [done|discriminate].
Qed.

Lemma last_Some_nonempty s c : Str.last s = Some c → s ≠ EmptyString.
Proof. by destruct s. Qed.

Lemma drop_last s c :
  Str.last s = Some c →
  Str.drop (String.length s - 1) s = String c EmptyString.
Proof.
  induction s as [|a s IH]; [done|]. intros H.
  destruct s as [|b s]; [by simplify_eq/=|].
  rewrite last_cons in H by done. specialize (IH H).
  replace (String.length (String a (String b s)) - 1)
    with (S (String.length (String b s) - 1)) by (cbn [String.length]; lia).
  cbn [Str.drop]. done.
Qed.

Lemma endswith_char q s c :
  Str.last s = Some c → c ≠ q → Str.endswith (String q EmptyString) s = false.
Proof.
  intros H Hne. unfold Str.endswith. cbn [String.length].
  rewrite (drop_last _ _ H). apply andb_false_iff. right.
  apply bool_decide_eq_false. congruence.
Qed.

Lemma lstrip_last P s c :
  Str.last s = Some c → P c = false → Str.last (Str.lstrip P s) = Some c.
Proof.
  intros H Hc. induction s as [|a s IH]; [done|].
  cbn [Str.lstrip]. destruct (P a) eqn:Ha; [|done].
  apply IH. destruct s; [|done]. simplify_eq/=. congruence.
Qed.

Lemma rstrip_id P s c :
  Str.last s = Some c → P c = false → Str.rstrip P s = s.
Proof.
  intros H Hc. induction s as [|a s IH]; [done|].
  cbn [Str.rstrip]. destruct s as [|b s].
  - simplify_eq/=. by rewrite Hc.
  - rewrite IH by done. done.
Qed.

Lemma strip_last P s c :
  Str.last s = Some c → P c = false → Str.last (Str.strip P s) = Some c.
Proof.
  intros H Hc. unfold Str.strip.
  pose proof (lstrip_last P s c H Hc) as H'.
  by rewrite (rstrip_id _ _ _ H' Hc).
Qed.

Lemma strip_nonempty P s c :
  Str.last s = Some c → P c = false → Str.strip P s ≠ EmptyString.
Proof. intros H Hc. eapply last_Some_nonempty, strip_last; eauto. Qed.

Lemma drop_takewhile_last P s c :
  Str.last s = Some c → P c = false →
  Str.last (Str.drop (String.length (Str.takewhile P s)) s) = Some c.
Proof.
  intros H Hc. induction s as [|a s IH]; [done|].
  cbn [Str.takewhile]. destruct (P a) eqn:Ha; [|done].
  cbn [String.length Str.drop]. apply IH.
  destruct s; [|done]. simplify_eq/=. congruence.
Qed.

Lemma re_match_Some P s m :
  Str.re_match P s = Some m → m = Str.takewhile P s.
Proof. unfold Str.re_match. destruct (Str.takewhile P s); naive_solver. Qed.

Lemma re_match_head P s m :
  Str.re_match P s = Some m → ∃ c s', s = String c s' ∧ P c = true.
Proof.
  unfold Str.re_match. destruct s as [|c s]; [done|]. cbn [Str.takewhile].
  destruct (P c) eqn:Hc; [eauto|done].
Qed.

Lemma rstrip_head_nonempty P c s :
  P c = false → Str.rstrip P (String c s) ≠ EmptyString.
Proof. intros Hc. cbn [Str.rstrip]. destruct (Str.rstrip P s); by rewrite ?Hc. Qed.

Lemma strip_head_nonempty P c s :
  P c = false → Str.strip P (String c s) ≠ EmptyString.
Proof.
  intros Hc. unfold Str.strip. cbn [Str.lstrip]. rewrite Hc.
  by apply rstrip_head_nonempty.
Qed.

Lemma isletter_not_digit c : Str.isletter c = true → Str.isdigit c = false.
Proof.
  unfold Str.isletter, Str.isdigit. generalize (nat_of_ascii c). intros n.
  rewrite orb_true_iff, !andb_true_iff, andb_false_iff, !Nat.leb_le, !Nat.leb_gt. lia.
Qed.

Lemma isletter_not_space c : Str.isletter c = true → Str.isspace c = false.
Proof.
  unfold Str.isletter, Str.isspace. generalize (nat_of_ascii c). intros n.
  rewrite orb_true_iff, !andb_true_iff, orb_false_iff, !andb_false_iff,
    !Nat.leb_le, !Nat.leb_gt. lia.
Qed.

Lemma isdigit_not_space c : Str.isdigit c = true → Str.isspace c = false.
Proof.
  unfold Str.isdigit, Str.isspace. generalize (nat_of_ascii c). intros n.
  rewrite !andb_true_iff, orb_false_iff, !andb_false_iff,
    !Nat.leb_le, !Nat.leb_gt. lia.
Qed.

End StrLemmas.

Lemma relation_suffix_class c :
  relation_suffix c = true →
  Str.isspace c = false ∧ Str.isletter c = false ∧ Str.iscolon c = false ∧
  c ≠ "?"%char.
Proof.
  unfold relation_suffix. intros H%bool_decide_eq_true. revert H.
  rewrite !elem_of_cons, elem_of_nil.
  intros [->|[->|[->|[->|[]]]]]; by vm_compute.
Qed.

Lemma sref_prefix_last pd pnf langs poth sref full c :
  relation_suffix c = true → Str.last sref = Some c →
  sref_prefix pd pnf langs poth sref = Ok (Some full) →
  Str.last full = Some c.
Proof.
  intros Hc Hl. destruct (relation_suffix_class c Hc) as (Hsp & Hlet & Hcol & Hq).
  unfold sref_prefix. destruct sref as [|a s]; [done|].
  destruct (Str.isdigit a).
  - intros [= <-]. rewrite last_app; done.
  - destruct (Str.re_match Str.isletter (String a s)) as [prefix|] eqn:Hm; [|done].
    case_bool_decide; [|done]. intros [= <-].
    apply re_match_Some in Hm. subst prefix.
    assert (Str.last (Str.strip Str.iscolon (Str.drop
              (String.length (Str.takewhile Str.isletter (String a s)))
              (String a s))) = Some c) as Hn.
    { apply strip_last; [|done]. by apply drop_takewhile_last. }
    rewrite !last_app; eauto using last_Some_nonempty.
    intros E. apply (last_Some_nonempty _ _ Hn).
    by destruct (Str.takewhile _ _).
Qed.

Lemma sref_expand_plain full :
  Str.contains RANGE_MARK full = false →
  Str.contains ";" full = false →
  Str.endswith "?" full = false →
  sref_expand full = Ok [full].
Proof.
  intros Hr Hs Hq. unfold sref_expand.
  rewrite (split_absent _ _ Hr). cbn [length].
  rewrite bool_decide_eq_false_2 by lia. by rewrite Hs, Hq.
Qed.

Lemma normalize_ref_single tok pd pnf langs poth :
  Str.contains ", " tok = false → Str.contains "+" tok = false →
  normalize_ref tok pd pnf langs poth =
    (refs ←r normalize_sref pd pnf langs poth tok; Ok (Str.join " " refs)).
Proof.
  intros H1 H2. unfold normalize_ref.
  rewrite (split_absent _ _ H1). cbn [collect].
  rewrite (split_absent _ _ H2). cbn [collect].
  destruct (normalize_sref pd pnf langs poth tok); cbn; [|done].
  by rewrite !app_nil_r.
Qed.

(** C6. A plain sub-token that ends in a question mark is left out
    (resolving "44.2?" gives the empty list), but the two other shapes do
    not look at the mark: the last entry of a semicolon sub-list keeps it,
    mark included, and a range is expanded as if the mark were absent. *)
Theorem uncertain_reference_only_dropped_when_plain :
  normalize_ref "44.2?" "PL" "NF" ["PL"; "RU"] "OTH" = Ok EmptyString ∧
  normalize_ref "44.1;2?" "PL" "NF" ["PL"; "RU"] "OTH" = Ok "NFPL44.1 NFPL44.2?" ∧
  normalize_ref "9.1÷9.4?" "PL" "NF" ["PL"; "RU"] "OTH"
    = Ok "NFPL9.1 NFPL9.2 NFPL9.3 NFPL9.4".
Proof. by vm_compute. Qed.

(** C7, as stated, fails: a range is expanded to bare identifiers, and a
    semicolon sub-list carries the suffix on its last identifier only. *)
Lemma relation_suffix_lost_in_expansion :
  ¬ suffix_on_every_id "9.1÷9.4>" "PL" "NF" ["PL"; "RU"] "OTH" ">" ∧
  ¬ suffix_on_every_id "44.1;2;3>" "PL" "NF" ["PL"; "RU"] "OTH" ">".
Proof.
  split; intros H; specialize (H _ eq_refl); vm_compute in H;
    apply Forall_cons in H as [H _]; discriminate H.
Qed.

(** C7, amended. A sub-token that ends in a relation suffix and whose
    prefixed form has neither a range mark nor a semicolon is resolved to
    exactly one identifier, and that identifier ends in the same suffix. *)
Theorem relation_suffix_kept_on_plain_reference
    (tok pd pnf : string) (langs : list string) (poth : string)
    (c : ascii) (full : string) :
  relation_suffix c = true →
  Str.last tok = Some c →
  Str.contains ", " tok = false →
  Str.contains "+" tok = false →
  sref_prefix pd pnf langs poth tok = Ok (Some full) →
  Str.contains RANGE_MARK full = false →
  Str.contains ";" full = false →
  normalize_ref tok pd pnf langs poth = Ok full ∧ Str.last full = Some c.
Proof.
  intros Hc Hl Hcomma Hplus Hpre Hr Hs.
  pose proof (sref_prefix_last _ _ _ _ _ _ _ Hc Hl Hpre) as Hlast.
  destruct (relation_suffix_class c Hc) as (Hsp & _ & _ & Hq).
  split; [|done].
  rewrite normalize_ref_single by done. unfold normalize_sref.
  rewrite bool_decide_eq_false_2 by (eapply strip_nonempty; eauto).
  rewrite Hpre. cbn [rbind].
  rewrite sref_expand_plain; eauto using endswith_char.
Qed.

Lemma relation_suffix_kept_on_plain_reference_witness :
  normalize_ref "RU:7.3>" "PL" "NF" ["PL"; "RU"] "OTH" = Ok "NFRU7.3>" ∧
  Str.last "NFRU7.3>" = Some ">"%char.
Proof.
  apply (relation_suffix_kept_on_plain_reference
           "RU:7.3>" "PL" "NF" ["PL"; "RU"] "OTH" ">" "NFRU7.3>");
    vm_compute; reflexivity.
Defined.

(** C8, as stated, fails: a sub-token with an unknown letter prefix leaves
    nothing in the output, so nothing is routed under the other prefix. *)
Lemma unknown_prefix_not_routed :
  ¬ routed_under "XX:12" "PL" "NF" ["PL"; "RU"] "OTH" "OTHXX".
Proof.
  intros (out & H & Hex). vm_compute in H. injection H as <-.
  vm_compute in Hex. by apply Exists_nil in Hex.
Qed.

(** C8, amended. A sub-token whose leading letters are not a known sheet
    prefix adds no reference at all; the other-namespace prefix is given to
    a sub-token that starts with a digit when the default sheet prefix is
    not a known one. *)
Theorem unknown_prefix_dropped_other_by_default
    (pd pnf : string) (langs : list string) (poth : string) :
  (∀ sref prefix,
     Str.re_match Str.isletter sref = Some prefix →
     prefix ∉ langs →
     normalize_sref pd pnf langs poth sref = Ok []) ∧
  (∀ d rest,
     Str.isdigit d = true →
     pd ∉ langs →
     let full := (poth +:+ pd) +:+ String d rest in
     Str.contains RANGE_MARK full = false →
     Str.contains ";" full = false →
     Str.endswith "?" full = false →
     normalize_sref pd pnf langs poth (String d rest) = Ok [full]).
Proof.
  split.
  - intros sref prefix Hm Hin.
    destruct (re_match_head _ _ _ Hm) as (c & s' & -> & Hc).
    unfold normalize_sref.
    rewrite bool_decide_eq_false_2
      by (apply strip_head_nonempty; by apply isletter_not_space).
    unfold sref_prefix. rewrite (isletter_not_digit _ Hc), Hm.
    by rewrite bool_decide_eq_false_2.
  - intros d rest Hd Hin full Hr Hs Hq.
    unfold normalize_sref.
    rewrite bool_decide_eq_false_2
      by (apply strip_head_nonempty; by apply isdigit_not_space).
    unfold sref_prefix. rewrite Hd, bool_decide_eq_false_2 by done.
    cbn [rbind]. by apply sref_expand_plain.
Qed.

Lemma unknown_prefix_dropped_other_by_default_witness :
  normalize_sref "PL" "NF" ["PL"; "RU"] "OTH" "XX:12" = Ok [] ∧
  normalize_sref "XX" "NF" ["PL"; "RU"] "OTH" "12" = Ok ["OTHXX12"].
Proof.
  split.
  - apply (proj1 (unknown_prefix_dropped_other_by_default "PL" "NF" ["PL"; "RU"] "OTH")
             "XX:12" "XX").
    + vm_compute; reflexivity.
    + refine (bool_decide_unpack _ _); vm_compute; exact I.
  - apply (proj2 (unknown_prefix_dropped_other_by_default "XX" "NF" ["PL"; "RU"] "OTH")
             "1"%char "2").
    + vm_compute; reflexivity.
    + refine (bool_decide_unpack _ _); vm_compute; exact I.
    + vm_compute; reflexivity.
    + vm_compute; reflexivity.
    + vm_compute; reflexivity.
Defined.

(** ** The graph store *)

Section RdfLemmas.

Lemma elem_of_triples g s p o t :
  t ∈ Rdf.triples g s p o ↔ t ∈ g ∧ Rdf.matches s p o t = true.
Proof.
  unfold Rdf.triples. rewrite list_elem_of_filter, Is_true_true. tauto.
Qed.

Lemma pat_ok_Some x y : Rdf.pat_ok (Some y) x = true ↔ x = y.
Proof. unfold Rdf.pat_ok. apply bool_decide_eq_true. Qed.

Lemma matches_spec s p o t :
  Rdf.matches s p o t = true ↔
  Rdf.pat_ok s (subj t) = true ∧ Rdf.pat_ok p (pred t) = true ∧
  Rdf.pat_ok o (obj t) = true.
Proof. unfold Rdf.matches. rewrite !andb_true_iff. tauto. Qed.

Lemma contains_true g s p o :
  Rdf.contains g s p o = true ↔ ∃ t, t ∈ g ∧ Rdf.matches s p o t = true.
Proof.
  unfold Rdf.contains. split.
  - destruct (Rdf.triples g s p o) as [|t l] eqn:E; [done|]. intros _.
    exists t. apply elem_of_triples. rewrite E. left.
  - intros (t & Ht). apply elem_of_triples in Ht.
    by destruct (Rdf.triples g s p o); [apply elem_of_nil in Ht|].
Qed.

Lemma contains_exact g s p o :
  Rdf.contains g (Some s) (Some p) (Some o) = true ↔ (s, p, o) ∈ g.
Proof.
  rewrite contains_true. split.
  - intros ([[s' p'] o'] & Hin & Hm). apply matches_spec in Hm.
    rewrite !pat_ok_Some in Hm. cbn in Hm. by destruct Hm as (-> & -> & ->).
  - intros Hin. exists (s, p, o). split; [done|].
    apply matches_spec. by rewrite !pat_ok_Some.
Qed.

Lemma elem_of_add g t t' : t' ∈ Rdf.add g t ↔ t' ∈ g ∨ t' = t.
Proof.
  unfold Rdf.add. destruct (decide (t ∈ g)).
  - naive_solver.
  - rewrite elem_of_app, list_elem_of_singleton. tauto.
Qed.

Lemma add_fresh g t : t ∉ g → Rdf.add g t = g ++ [t].
Proof. intros H. unfold Rdf.add. by rewrite decide_False. Qed.

Lemma add_present g t : t ∈ g → Rdf.add g t = g.
Proof. intros H. unfold Rdf.add. by rewrite decide_True. Qed.

Lemma elem_of_foldl_add {A} (f : A → triple) g l t :
  t ∈ foldl (λ g x, Rdf.add g (f x)) g l ↔ t ∈ g ∨ ∃ x, x ∈ l ∧ t = f x.
Proof.
  revert g. induction l as [|x l IH]; intros g; cbn [foldl].
  - split; [by left|]. intros [?|(? & []%elem_of_nil & _)]; done.
  - rewrite IH, elem_of_add. setoid_rewrite elem_of_cons. naive_solver.
Qed.


Lemma elem_of_foldl_remove g l t :
  t ∈ foldl Rdf.remove g l ↔ t ∈ g ∧ t ∉ l.
Proof.
  revert g. induction l as [|x l IH]; intros g; cbn [foldl].
  - rewrite elem_of_nil. tauto.
  - rewrite IH. unfold Rdf.remove at 1. rewrite list_elem_of_filter, not_elem_of_cons.
    tauto.
Qed.

Lemma elem_of_objects g s p o :
  o ∈ Rdf.objects g s p ↔ (s, p, o) ∈ g.
Proof.
  unfold Rdf.objects. rewrite list_elem_of_fmap. split.
  - intros ([[s' p'] o'] & -> & Ht). apply elem_of_triples in Ht as [Hin Hm].
    apply matches_spec in Hm. rewrite !pat_ok_Some in Hm. cbn in Hm.
    by destruct Hm as (-> & -> & _).
  - intros Hin. exists (s, p, o). split; [done|]. apply elem_of_triples.
    split; [done|]. apply matches_spec. by rewrite !pat_ok_Some.
Qed.

Lemma value_Some g s p o : Rdf.value g s p = Some o → (s, p, o) ∈ g.
Proof.
  unfold Rdf.value. intros H. apply elem_of_objects.
  destruct (Rdf.objects g s p); [done|]. simplify_eq/=. left.
Qed.


(** Triples with another predicate do not change what a pattern with a
    given predicate finds. *)
Lemma triples_app g e s p o :
  Rdf.triples (g ++ e) s p o = Rdf.triples g s p o ++ Rdf.triples e s p o.
Proof. unfold Rdf.triples. apply filter_app. Qed.

Lemma triples_other_pred e s p o :
  Forall (λ t, pred t ≠ p) e → Rdf.triples e s (Some p) o = [].
Proof.
  intros H. unfold Rdf.triples. induction H as [|t e Ht _ IH]; [done|].
  rewrite filter_cons_False; [done|].
  rewrite Is_true_true, matches_spec, pat_ok_Some. tauto.
Qed.

Lemma objects_app_other g e s p :
  Forall (λ t, pred t ≠ p) e → Rdf.objects (g ++ e) s p = Rdf.objects g s p.
Proof.
  intros H. unfold Rdf.objects.
  by rewrite triples_app, (triples_other_pred _ _ _ _ H), app_nil_r.
Qed.

Lemma value_app_other g e s p :
  Forall (λ t, pred t ≠ p) e → Rdf.value (g ++ e) s p = Rdf.value g s p.
Proof. intros H. unfold Rdf.value. by rewrite objects_app_other. Qed.

End RdfLemmas.

(** ** The temporary flags *)

Lemma rev_app_last s c acc :
  Str.last s = Some c → ∃ t, String.rev_app s acc = String c t.
Proof.
  revert acc. induction s as [|a s IH]; intros acc H; [done|].
  destruct s as [|b s]; [simplify_eq/=; eauto|].
  cbn [String.rev_app]. by apply IH.
Qed.

Lemma link_source_skip_flag graph f2_uri nfprefix lang ref :
  Str.last ref = Some "-"%char →
  link_source graph f2_uri nfprefix lang ref
    = Ok (Rdf.add graph (LKG f2_uri, SKIP, Literal_True)).
Proof.
  intros H. unfold link_source.
  destruct (rev_app_last ref _ EmptyString H) as [t Ht].
  unfold String.rev at 1. rewrite Ht. done.
Qed.

(** C9. After [remove_tempflags] the graph has exactly its former triples
    whose predicate is not the skip flag.  In particular the flag that a
    citation-only reference (one that ends in "-") puts on its expression
    during the run, once per expression since a graph holds a triple once,
    is gone from the graph that is handed on. *)
Theorem remove_tempflags_strips_every_flag :
  (∀ (graph : Graph) t, t ∈ remove_tempflags graph ↔ t ∈ graph ∧ pred t ≠ SKIP) ∧
  (∀ (graph : Graph) f2_uri nfprefix lang ref,
     Str.last ref = Some "-"%char →
     ∃ graph', link_source graph f2_uri nfprefix lang ref = Ok graph' ∧
       (LKG f2_uri, SKIP, Literal_True) ∈ graph' ∧
       (LKG f2_uri, SKIP, Literal_True) ∉ remove_tempflags graph').
Proof.
  assert (∀ (graph : Graph) t,
            t ∈ remove_tempflags graph ↔ t ∈ graph ∧ pred t ≠ SKIP) as H.
  { intros graph t. unfold remove_tempflags.
    rewrite elem_of_foldl_remove, elem_of_triples.
    rewrite matches_spec, pat_ok_Some. cbn [Rdf.pat_ok]. split.
    - intros [Hin Hn]. split; [done|]. intros Hp. apply Hn. tauto.
    - intros [Hin Hn]. split; [done|]. tauto. }
  split; [done|].
  intros graph f2_uri nfprefix lang ref Hl. eexists. split.
  - by apply link_source_skip_flag.
  - split.
    + apply elem_of_add. by right.
    + intros [_ Hp]%H. by apply Hp.
Qed.

Lemma remove_tempflags_strips_every_flag_witness :
  ∃ graph',
    link_source [(LKG "F2_NFPL5", RDF_type, F2_Expression)]
                "F2_NFPL5" "NF" "PL" "NFPL9-" = Ok graph' ∧
    (LKG "F2_NFPL5", SKIP, Literal_True) ∈ graph' ∧
    (LKG "F2_NFPL5", SKIP, Literal_True) ∉ remove_tempflags graph'.
Proof.
  apply (proj2 remove_tempflags_strips_every_flag).
  vm_compute; reflexivity.
Defined.

(** ** Hierarchy propagation *)

Section FilterLength.
Context {A : Type} (P Q : A → Prop).
Context {decP : ∀ x, Decision (P x)} {decQ : ∀ x, Decision (Q x)}.

Lemma filter_length_mono (l : list A) :
  (∀ x, x ∈ l → P x → Q x) → length (filter P l) ≤ length (filter Q l).
Proof.
  induction l as [|a l IH]; intros H; [done|].
  rewrite !filter_cons.
  assert (length (filter P l) ≤ length (filter Q l)) as IH'.
  { apply IH. intros x Hx. apply H. by right. }
  destruct (decide (P a)) as [Hp|Hp].
  - rewrite decide_True by (apply H; [left|done]). cbn. lia.
  - destruct (decide (Q a)); cbn; lia.
Qed.

Lemma filter_length_lt (l : list A) (a : A) :
  (∀ x, x ∈ l → P x → Q x) → a ∈ l → Q a → ¬ P a →
  length (filter P l) < length (filter Q l).
Proof.
  induction l as [|b l IH]; intros H Hin Hq Hp; [by apply elem_of_nil in Hin|].
  rewrite !filter_cons.
  assert (∀ x, x ∈ l → P x → Q x) as H' by (intros x Hx; apply H; by right).
  apply elem_of_cons in Hin as [<-|Hin].
  - rewrite decide_False, decide_True by done. cbn.
    pose proof (filter_length_mono l H'). lia.
  - specialize (IH H' Hin Hq Hp).
    destruct (decide (P b)) as [Hb|Hb].
    + rewrite decide_True by (apply H; [left|done]). cbn. lia.
    + destruct (decide (Q b)); cbn; lia.
Qed.
End FilterLength.

Section PropagateTermination.
Context (hierarchy_prop predicate object : term) (neighbor_prop : option term).
Context (U : list term).

Let mu (g : Graph) : nat := length (unmarked predicate object U g).
Let closed (g : Graph) : Prop := object ∈ U ∧ ∀ t, t ∈ g → obj t ∈ U.

(** What a run that returns [r] from the graph [g] is known to have done:
    without a neighbour property it has not raised, and the graph it
    returns has no more nodes left to mark than [g]. *)
Let fine (g : Graph) (r : result Graph) : Prop :=
  (truthy neighbor_prop = false → ∃ g', r = Ok g') ∧
  ∀ g', r = Ok g' → closed g' ∧ mu g' ≤ mu g.

(** What a call does when its budget suffices. *)
Let behaves (k : nat) (recur : Graph → term → option (result Graph)) : Prop :=
  ∀ g n, closed g → mu g < k → ∃ r, recur g n = Some r ∧ fine g r.

Lemma resolve_in_universe g node o :
  closed g → node ∈ U → resolve neighbor_prop g node = Some o → o ∈ U.
Proof.
  intros [_ Hc] Hn. unfold resolve. destruct (truthy neighbor_prop).
  - intros Hv%value_Some. by apply (Hc _ Hv).
  - by intros [= <-].
Qed.

Lemma mark_decreases g o :
  closed g → o ∈ U → (o, predicate, object) ∉ g →
  closed (g ++ [(o, predicate, object)]) ∧
  mu (g ++ [(o, predicate, object)]) < mu g.
Proof.
  intros [HU Hc] Ho Hn. split.
  - split; [done|]. intros t [Ht| ->%list_elem_of_singleton]%elem_of_app; auto.
  - unfold mu, unmarked. apply filter_length_lt with (a := o); try done.
    + intros x _ Hx Hin. apply Hx. apply elem_of_app. by left.
    + intros Hx. apply Hx. apply elem_of_app. right. left.
Qed.

Lemma propagate_loop_terminates k recur linked g :
  behaves k recur →
  Forall (λ n, n ∈ U) linked → closed g → mu g ≤ k →
  ∃ r, propagate_loop recur predicate object neighbor_prop linked g = Some r ∧
       fine g r.
Proof.
  intros Hrec Hl. revert g. induction Hl as [|node linked Hn _ IH]; intros g Hc Hk.
  { eexists. split; [done|]. split; [eauto|]. intros g' [= <-]. auto. }
  cbn [propagate_loop].
  destruct (Rdf.contains g _ _ _) eqn:Hcon; [by apply IH|].
  destruct (resolve neighbor_prop g node) as [o|] eqn:Hres; cbn [Rdf.add_checked].
  2:{ eexists. split; [done|]. split; [|intros ? [=]].
      intros Hnp. unfold resolve in Hres. by rewrite Hnp in Hres. }
  assert ((o, predicate, object) ∉ g) as Hfresh.
  { intros Hin%contains_exact. congruence. }
  pose proof (resolve_in_universe _ _ _ Hc Hn Hres) as Ho.
  destruct (mark_decreases g o Hc Ho Hfresh) as [Hc' Hmu].
  rewrite add_fresh by done.
  destruct (Hrec (g ++ [(o, predicate, object)]) node Hc' ltac:(lia))
    as (r & Hr0 & Hok & Hr).
  setoid_rewrite Hr0.
  destruct r as [g''|e].
  - destruct (Hr _ eq_refl) as [Hc'' Hmu''].
    destruct (IH g'' Hc'' ltac:(lia)) as (r & Hr1 & Hok' & Hr').
    exists r. split; [done|]. split; [done|]. intros g' ->.
    destruct (Hr' _ eq_refl). split; [done|lia].
  - eexists. split; [done|]. split; [|intros ? [=]].
    intros Hnp. by destruct (Hok Hnp).
Qed.

Lemma propagate_terminates_within fuel :
  behaves fuel (λ g n, propagate_through_prop fuel g n hierarchy_prop
                         predicate object neighbor_prop).
Proof.
  induction fuel as [|fuel IH]; intros g n Hc Hmu; [lia|].
  cbn [propagate_through_prop].
  apply propagate_loop_terminates with (k := fuel); [done| |done|lia].
  apply Forall_forall. intros x Hx%elem_of_reverse%elem_of_objects.
  by apply (proj2 Hc _ Hx).
Qed.
End PropagateTermination.

Lemma propagate_through_prop_terminates graph src hier predicate object np :
  ∃ fuel r,
    propagate_through_prop fuel graph src hier predicate object np = Some r ∧
    (truthy np = false → ∃ graph', r = Ok graph').
Proof.
  set (U := universe graph object).
  exists (S (length (unmarked predicate object U graph))).
  destruct (propagate_terminates_within hier predicate object np U
              (S (length (unmarked predicate object U graph))) graph src)
    as (r & Hr & Hok & _); [|lia|eauto].
  split; [left|]. intros t Ht. right. apply list_elem_of_fmap. eauto.
Qed.

Section PropagateTree.
Context (g : Graph) (hierarchy_prop predicate object : term).
Context (neighbor_prop : option term) (b : nat).
Hypothesis Hhier : predicate ≠ hierarchy_prop.
Hypothesis Hneigh : neighbor_prop ≠ Some predicate.

Let mk (y : term) : triple := (y, predicate, object).
Let marks (e : Graph) : Prop := Forall (λ t, pred t = predicate) e.
Let rho : term → option term := resolve neighbor_prop g.

Lemma marks_other e q : marks e → predicate ≠ q → Forall (λ t, pred t ≠ q) e.
Proof. intros H Hq. eapply Forall_impl; [exact H|]. cbn. congruence. Qed.

Lemma marks_snoc e ys : marks e → marks (e ++ (mk <$> ys)).
Proof.
  intros H. apply Forall_app. split; [done|].
  apply Forall_fmap, Forall_forall. done.
Qed.

Lemma objects_marked e n :
  marks e → Rdf.objects (g ++ e) n hierarchy_prop = Rdf.objects g n hierarchy_prop.
Proof. intros H. apply objects_app_other. by apply marks_other. Qed.

Lemma resolve_marked e n :
  marks e → resolve neighbor_prop (g ++ e) n = rho n.
Proof.
  intros H. unfold rho, resolve. destruct neighbor_prop as [q|]; [|done].
  destruct (truthy (Some q)); [|done].
  apply value_app_other, marks_other; [done|]. cbn. congruence.
Qed.

Lemma not_contains_fresh e y :
  mk y ∉ g ++ e →
  Rdf.contains (g ++ e) (Some y) (Some predicate) (Some object) = false.
Proof.
  intros H. apply not_true_is_false. by intros ?%contains_exact.
Qed.

(** The loop over the children [cs] of a node, all of them roots of full
    trees of depth [d], given what the recursive call does on such trees. *)
Lemma propagate_loop_tree d recur :
  (∀ n e, marks e → full_tree b d g hierarchy_prop n = true →
     let V := visit_order d g hierarchy_prop n in
     Forall (λ x, is_Some (rho x)) V →
     NoDup (omap rho V) →
     Forall (λ y, mk y ∉ g ++ e) (omap rho V) →
     recur (g ++ e) n = Some (Ok (g ++ e ++ (mk <$> omap rho V)))) →
  ∀ cs e, marks e → Forall (λ c, full_tree b d g hierarchy_prop c = true) cs →
    let V := flat_map (λ c, c :: visit_order d g hierarchy_prop c) cs in
    Forall (λ x, is_Some (rho x)) V →
    NoDup (omap rho V) →
    Forall (λ y, mk y ∉ g ++ e) (omap rho V) →
    propagate_loop recur predicate object neighbor_prop cs (g ++ e)
      = Some (Ok (g ++ e ++ (mk <$> omap rho V))).
Proof.
  intros Hrec cs. induction cs as [|c cs IH]; intros e He Hfull V Hsome Hnd Hfresh.
  { cbn. by rewrite !app_nil_r. }
  subst V. cbn [flat_map app] in *.
  apply Forall_cons in Hfull as [Hc Hfull].
  apply Forall_cons in Hsome as [[y Hy] Hsome].
  apply Forall_app in Hsome as [Hsome_c Hsome_cs].
  assert (omap rho (c :: visit_order d g hierarchy_prop c ++
            flat_map (λ c, c :: visit_order d g hierarchy_prop c) cs)
          = y :: omap rho (visit_order d g hierarchy_prop c) ++
            omap rho (flat_map (λ c, c :: visit_order d g hierarchy_prop c) cs))
    as Hom by (cbn; by rewrite Hy, omap_app).
  rewrite Hom in Hnd, Hfresh |- *. clear Hom.
  apply NoDup_cons in Hnd as [Hy_notin Hnd].
  apply NoDup_app in Hnd as (Hnd_c & Hdisj & Hnd_cs).
  apply Forall_cons in Hfresh as [Hy_fresh Hfresh].
  apply Forall_app in Hfresh as [Hfresh_c Hfresh_cs].
  cbn [propagate_loop]. rewrite resolve_marked by done. fold rho. rewrite Hy.
  rewrite not_contains_fresh by done. cbn [Rdf.add_checked].
  change (y, predicate, object) with (mk y).
  rewrite add_fresh by done. rewrite <-(assoc_L (++)).
  assert (marks (e ++ [mk y])) as He1 by apply (marks_snoc e [y] He).
  rewrite (Hrec c (e ++ [mk y])); [|done..| ].
  2:{ apply Forall_forall. intros y' Hy' Hin.
      rewrite (assoc_L (++)) in Hin.
      apply elem_of_app in Hin as [Hin|Hin%list_elem_of_singleton].
      - by apply (proj1 (Forall_forall _ _) Hfresh_c y').
      - apply Hy_notin. apply elem_of_app. left. by simplify_eq. }
  rewrite <-(assoc_L (++) e).
  rewrite (IH (e ++ [mk y] ++ (mk <$> omap rho (visit_order d g hierarchy_prop c))));
    [| |done..| ].
  - by rewrite fmap_cons, fmap_app, <-!(assoc_L (++)).
  - apply (marks_snoc e (y :: _) He).
  - apply Forall_forall. intros y' Hy' Hin.
    rewrite !(assoc_L (++)) in Hin.
    apply elem_of_app in Hin as [Hin|Hin].
    + apply elem_of_app in Hin as [Hin|Hin%list_elem_of_singleton].
      * by apply (proj1 (Forall_forall _ _) Hfresh_cs y').
      * apply Hy_notin. apply elem_of_app. right. by simplify_eq.
    + apply list_elem_of_fmap in Hin as (y'' & Heq & Hin). simplify_eq.
      by apply (Hdisj y'').
Qed.

Lemma full_tree_S d n :
  full_tree b (S d) g hierarchy_prop n = true →
  length (Rdf.objects g n hierarchy_prop) = b ∧
  Forall (λ c, full_tree b d g hierarchy_prop c = true)
         (Rdf.objects g n hierarchy_prop).
Proof.
  cbn [full_tree]. intros [Hb Hall]%andb_true_iff.
  apply bool_decide_eq_true in Hb. split; [done|].
  apply Forall_forall. intros c Hc.
  apply (proj1 (forallb_forall _ _) Hall). by apply list_elem_of_In.
Qed.

Lemma propagate_tree d :
  ∀ fuel n e, d < fuel → marks e → full_tree b d g hierarchy_prop n = true →
    let V := visit_order d g hierarchy_prop n in
    Forall (λ x, is_Some (rho x)) V →
    NoDup (omap rho V) →
    Forall (λ y, mk y ∉ g ++ e) (omap rho V) →
    propagate_through_prop fuel (g ++ e) n hierarchy_prop predicate object
        neighbor_prop
      = Some (Ok (g ++ e ++ (mk <$> omap rho V))).
Proof.
  induction d as [|d IH]; intros fuel n e Hfuel He Hfull V Hsome Hnd Hfresh;
    (destruct fuel as [|fuel]; [lia|]); cbn [propagate_through_prop];
    rewrite objects_marked by done.
  - cbn [full_tree] in Hfull. apply bool_decide_eq_true in Hfull.
    rewrite Hfull. cbn. by rewrite !app_nil_r.
  - apply full_tree_S in Hfull as [_ Hfull].
    apply (propagate_loop_tree d); try done.
    + intros n' e' He' Hfull' V' Hsome' Hnd' Hfresh'.
      apply IH; [lia|done..].
    + by apply Forall_reverse.
Qed.

Lemma visit_order_length d n :
  full_tree b d g hierarchy_prop n = true →
  length (visit_order d g hierarchy_prop n) = geometric_sum b d.
Proof.
  revert n. induction d as [|d IH]; intros n Hfull; [done|].
  apply full_tree_S in Hfull as [Hb Hfull]. cbn [visit_order].
  rewrite (flat_map_constant_length (c := S (geometric_sum b d))).
  - rewrite length_reverse, Hb. unfold geometric_sum.
    rewrite <-(fmap_S_seq 0), <-list_fmap_compose. cbn [seq fmap list_fmap sum_list].
    rewrite <-fmap_S_seq, <-list_fmap_compose.
    rewrite <-(fmap_S_seq 0 d), <-list_fmap_compose.
    clear. induction (seq 0 d) as [|i l IHl]; cbn; [lia|].
    cbn in IHl. lia.
  - intros c Hc. cbn [length]. f_equal. apply IH.
    apply (proj1 (Forall_forall _ _) Hfull).
    apply elem_of_reverse. by apply list_elem_of_In.
Qed.

End PropagateTree.

Lemma omap_length_all_Some {A B} (f : A → option B) (l : list A) :
  Forall (λ x, is_Some (f x)) l → length (omap f l) = length l.
Proof.
  induction 1 as [|x l [y Hy] _ IH]; [done|]. cbn. rewrite Hy. cbn. by rewrite IH.
Qed.

(** C4. The propagation returns on every graph, whatever the shape of the
    hierarchy (shared nodes and cycles included): each recursive call is
    paid for by a node that did not carry the relation before.  Without a
    neighbour property it returns a graph; with one it may instead stop on
    the assertion of [Graph.add], at a node without neighbour.  On a tree
    of depth [d] in which every inner node has [b] children, when no node
    below the root carries the relation yet, it adds the relation once for
    each of the [b^1 + ... + b^d] descendants (to the node, or to its
    neighbour when a neighbour property is given) and nothing else. *)
Theorem propagate_terminates_and_marks_tree_once :
  (∀ (graph : Graph) src hier predicate object np,
     ∃ fuel r,
       propagate_through_prop fuel graph src hier predicate object np = Some r ∧
       (truthy np = false → ∃ graph', r = Ok graph')) ∧
  (∀ (b d : nat) (graph : Graph) src hier predicate object np,
     predicate ≠ hier →
     np ≠ Some predicate →
     full_tree b d graph hier src = true →
     let V := visit_order d graph hier src in
     let T := omap (resolve np graph) V in
     Forall (λ x, is_Some (resolve np graph x)) V →
     NoDup T →
     Forall (λ y, (y, predicate, object) ∉ graph) T →
     length V = geometric_sum b d ∧
     length T = length V ∧
     ∀ fuel, d < fuel →
       propagate_through_prop fuel graph src hier predicate object np
         = Some (Ok (graph ++ ((λ y, (y, predicate, object)) <$> T)))).
Proof.
  split; [apply propagate_through_prop_terminates|].
  intros b d graph src hier predicate object np Hh Hn Hfull V T Hsome Hnd Hfresh.
  split; [by apply visit_order_length|].
  split; [by apply omap_length_all_Some|].
  intros fuel Hfuel.
  pose proof (propagate_tree graph hier predicate object np b Hh Hn d fuel src []
                Hfuel (Forall_nil_2 _) Hfull Hsome) as H.
  rewrite !app_nil_r in H. cbn [app] in H. by apply H.
Qed.

Lemma propagate_terminates_and_marks_tree_once_witness :
  length (visit_order 2 example_hierarchy R5_has_component (LKG "F2_r")) = 6 ∧
  propagate_through_prop 3 example_hierarchy (LKG "F2_r") R5_has_component
      S142_written_by (LKG "E21_P1") None
    = Some (Ok (example_hierarchy ++
                ((λ y, (y, S142_written_by, LKG "E21_P1")) <$>
                   [LKG "F2_b"; LKG "F2_b2"; LKG "F2_b1";
                    LKG "F2_a"; LKG "F2_a2"; LKG "F2_a1"]))).
Proof.
  destruct (proj2 propagate_terminates_and_marks_tree_once 2 2 example_hierarchy
              (LKG "F2_r") R5_has_component S142_written_by (LKG "E21_P1") None)
    as (Hlen & _ & Hrun).
  - intros H; vm_compute in H; discriminate H.
  - discriminate.
  - vm_compute; reflexivity.
  - refine (bool_decide_unpack _ _); vm_compute; exact I.
  - refine (bool_decide_unpack _ _); vm_compute; exact I.
  - refine (bool_decide_unpack _ _); vm_compute; exact I.
  - split; [exact Hlen|]. apply (Hrun 3). lia.
Defined.

(** ** Derivative inference *)

Lemma hasc_neq_compof : R5_has_component ≠ R5i_is_component_of.
Proof. intros H; vm_compute in H; discriminate H. Qed.

Lemma derivrels_not_hierarchy p :
  p ∈ derivrels → p ≠ R5_has_component ∧ p ≠ R5i_is_component_of.
Proof.
  unfold derivrels. rewrite !elem_of_cons, elem_of_nil.
  intros [->|[->|[->|[->|[->|[]]]]]]; split; intros H; vm_compute in H; discriminate H.
Qed.

Lemma triples_other_subj e s p o :
  Forall (λ t, subj t ≠ s) e → Rdf.triples e (Some s) p o = [].
Proof.
  intros H. unfold Rdf.triples. induction H as [|t e Ht _ IH]; [done|].
  rewrite filter_cons_False; [done|].
  rewrite Is_true_true, matches_spec, pat_ok_Some. tauto.
Qed.

Lemma one_value_spec l :
  one_value l = true → ∃ x, head l = Some x ∧ ∀ y, y ∈ l → y = x.
Proof.
  unfold one_value. intros H%bool_decide_eq_true.
  destruct (remove_dups l) as [|x [|??]] eqn:E; try done.
  assert (∀ y, y ∈ l → y = x) as Hall.
  { intros y Hy. apply elem_of_remove_dups in Hy. rewrite E in Hy.
    by apply list_elem_of_singleton in Hy. }
  exists x. split; [|done].
  destruct l as [|a l]; [done|]. cbn. f_equal. apply Hall. left.
Qed.

Lemma elem_of_intersection p sets :
  p ∈ intersection sets → ∀ s, s ∈ sets → p ∈ s.
Proof.
  destruct sets as [|s0 sets]; [by intros ?%elem_of_nil|]. cbn.
  intros [Hall Hp]%list_elem_of_filter s [->|Hs]%elem_of_cons; [done|].
  by apply (proj1 (Forall_forall _ _) Hall).
Qed.

Lemma elem_of_predicates g s o p :
  p ∈ Rdf.predicates g s o ↔ (s, p, o) ∈ g.
Proof.
  unfold Rdf.predicates. rewrite elem_of_remove_dups, list_elem_of_fmap. split.
  - intros ([[s' p'] o'] & -> & Ht). apply elem_of_triples in Ht as [Hin Hm].
    apply matches_spec in Hm. rewrite !pat_ok_Some in Hm. cbn in Hm.
    by destruct Hm as (-> & _ & ->).
  - intros Hin. exists (s, p, o). split; [done|]. apply elem_of_triples.
    split; [done|]. apply matches_spec. by rewrite !pat_ok_Some.
Qed.

Section DerivativeInference.
Context (g0 : Graph).
Hypothesis Hirr : irreflexive g0.
Hypothesis Hasym : asymmetric g0.
Hypothesis Htree : component_tree g0.

Let kids (n : term) : list term := Rdf.objects g0 n R5_has_component.

Lemma mirror_down x y :
  (x, R5i_is_component_of, y) ∈ g0 → x ∈ kids y.
Proof.
  intros H. apply elem_of_objects.
  destruct (proj1 (Forall_forall _ _) Htree _ H) as [_ Hm].
  by destruct (Hm eq_refl).
Qed.

Lemma mirror_up x y :
  x ∈ kids y → (x, R5i_is_component_of, y) ∈ g0.
Proof.
  intros H%elem_of_objects.
  destruct (proj1 (Forall_forall _ _) Htree _ H) as [Hm _].
  by apply Hm.
Qed.

Lemma single_parent x y z :
  (x, R5i_is_component_of, y) ∈ g0 → (x, R5i_is_component_of, z) ∈ g0 → y = z.
Proof.
  intros Hy Hz.
  destruct (proj1 (Forall_forall _ _) Htree _ Hz) as [_ Hm].
  destruct (Hm eq_refl) as [_ Hall].
  by apply (proj1 (Forall_forall _ _) Hall _ Hy).
Qed.

Lemma bottom_up_leaf p k n t :
  kids n = [] → bottom_up g0 p k n t → (n, p, t) ∈ g0.
Proof. intros Hk. destruct k; [done|]. cbn. fold (kids n). by rewrite Hk. Qed.

Lemma bottom_up_node p k n t :
  kids n ≠ [] → bottom_up g0 p k n t →
  ∃ k' x, k = S k' ∧ Forall (λ c, bottom_up g0 p k' c x) (kids n) ∧
          (x, R5i_is_component_of, t) ∈ g0.
Proof.
  intros Hk. destruct k as [|k']; [done|]. cbn. fold (kids n).
  destruct (kids n) eqn:E; [done|]. intros (x & ? & ?). eauto.
Qed.

(** No expression is inferred to derive from itself. *)
Lemma bottom_up_irreflexive p k n :
  p ∈ derivrels → ¬ bottom_up g0 p k n n.
Proof.
  intros Hp. revert n. induction k as [|k IH]; intros n H; [done|].
  destruct (decide (kids n = [])) as [Hk|Hk].
  - apply bottom_up_leaf in H; [|done].
    by apply (proj1 (Forall_forall _ _) Hirr _ H).
  - apply bottom_up_node in H as (k' & x & [= <-] & Hall & Hx); [|done].
    apply (IH x). apply (proj1 (Forall_forall _ _) Hall). by apply mirror_down.
Qed.

(** No two expressions are inferred to derive from each other. *)
Lemma bottom_up_asymmetric p k k' n t :
  p ∈ derivrels → bottom_up g0 p k n t → ¬ bottom_up g0 p k' t n.
Proof.
  intros Hp. revert k' n t. induction k as [|k IH]; intros k' n t H H'; [done|].
  destruct (decide (kids n = [])) as [Hn|Hn];
    destruct (decide (kids t = [])) as [Ht|Ht].
  - apply bottom_up_leaf in H, H'; [|done..].
    by apply (proj1 (Forall_forall _ _) Hasym _ H).
  - apply bottom_up_node in H' as (? & y & _ & _ & Hy%mirror_down); [|done].
    rewrite Hn in Hy. by apply elem_of_nil in Hy.
  - apply bottom_up_node in H as (? & x & _ & _ & Hx%mirror_down); [|done].
    rewrite Ht in Hx. by apply elem_of_nil in Hx.
  - apply bottom_up_node in H as (k1 & x & [= <-] & Hall & Hx%mirror_down); [|done].
    apply bottom_up_node in H' as (k2 & y & -> & Hall' & Hy%mirror_down); [|done].
    apply (IH k2 y x).
    + by apply (proj1 (Forall_forall _ _) Hall).
    + by apply (proj1 (Forall_forall _ _) Hall').
Qed.

Lemma bottom_up_not_hasc k n t : ¬ bottom_up g0 R5_has_component k n t.
Proof.
  revert n t. induction k as [|k IH]; intros n t H; [done|].
  destruct (decide (kids n = [])) as [Hk|Hk].
  - apply bottom_up_leaf in H; [|done]. apply elem_of_objects in H.
    fold (kids n) in H. rewrite Hk in H. by apply elem_of_nil in H.
  - apply bottom_up_node in H as (k' & x & [= <-] & Hall & _); [|done].
    destruct (kids n) as [|c cs]; [done|].
    apply Forall_cons in Hall as [Hc _]. by apply IH in Hc.
Qed.

Lemma bottom_up_compof k n t :
  bottom_up g0 R5i_is_component_of k n t → (n, R5i_is_component_of, t) ∈ g0.
Proof.
  revert n t. induction k as [|k IH]; intros n t H; [done|].
  destruct (decide (kids n = [])) as [Hk|Hk].
  - by apply bottom_up_leaf in H.
  - apply bottom_up_node in H as (k' & x & [= <-] & Hall & Hx); [|done].
    destruct (kids n) as [|c cs] eqn:E; [done|].
    apply Forall_cons in Hall as [Hc%IH _].
    assert (c ∈ kids n) as Hcn by (rewrite E; left).
    apply mirror_up in Hcn. by rewrite (single_parent _ _ _ Hcn Hc).
Qed.

(** *** The run of the inference on an extension of the input graph *)

Let ext (e : Graph) : Prop := Forall (inferred g0) e.

Let good (k : nat) (n : term) (r : derivinfo) : Prop :=
  match r with
  | Some (props, t) => ∀ p, p ∈ props → bottom_up g0 p k n t
  | None => True
  end.

Lemma ext_kids e n :
  ext e → Rdf.objects (g0 ++ e) n R5_has_component = kids n.
Proof.
  intros H. apply objects_app_other.
  eapply Forall_impl; [exact H|]. by intros t (_ & ? & _).
Qed.

Lemma ext_parent e x :
  ext e → Rdf.value (g0 ++ e) x R5i_is_component_of
          = Rdf.value g0 x R5i_is_component_of.
Proof.
  intros H. apply value_app_other.
  eapply Forall_impl; [exact H|]. by intros t (_ & _ & ? & _).
Qed.

Lemma ext_leaf_triples e n p o :
  ext e → kids n = [] →
  Rdf.triples (g0 ++ e) (Some n) p o = Rdf.triples g0 (Some n) p o.
Proof.
  intros H Hn. rewrite triples_app, (triples_other_subj e); [by rewrite app_nil_r|].
  eapply Forall_impl; [exact H|]. intros t (Hk & _) Heq. rewrite Heq in Hk.
  by apply Hk.
Qed.

Lemma ext_leaf_deriv_objects e n :
  ext e → kids n = [] → deriv_objects (g0 ++ e) n = deriv_objects g0 n.
Proof.
  intros H Hn. unfold deriv_objects. f_equal.
  induction derivrels as [|p ps IH]; [done|]. cbn [flat_map]. rewrite IH.
  f_equal. unfold Rdf.objects. by rewrite ext_leaf_triples.
Qed.

Lemma ext_leaf_predicates e n t :
  ext e → kids n = [] → Rdf.predicates (g0 ++ e) n t = Rdf.predicates g0 n t.
Proof.
  intros H Hn. unfold Rdf.predicates. by rewrite ext_leaf_triples.
Qed.

(** Adding the inferred relations of a node keeps the graph an extension
    of the input by inferred triples. *)
Lemma assert_relations_ext k n ref ps e :
  kids n ≠ [] → ext e →
  Forall (λ p, bottom_up g0 p k n ref) ps →
  ∃ e', foldl (λ g p, Rdf.add g (n, p, ref)) (g0 ++ e) ps = g0 ++ e' ∧ ext e'.
Proof.
  intros Hn He Hps. revert e He.
  induction Hps as [|p ps Hp _ IH]; intros e He; [by exists e|].
  cbn [foldl]. destruct (decide ((n, p, ref) ∈ g0 ++ e)) as [Hin|Hin].
  { rewrite add_present by done. by apply IH. }
  rewrite add_fresh by done. rewrite <-(assoc_L (++)). apply IH.
  apply Forall_app. split; [done|]. apply Forall_singleton.
  split; [done|]. split; [|split; [|by exists k]]; cbn; intros ->.
  - by apply bottom_up_not_hasc in Hp.
  - apply bottom_up_compof in Hp. apply Hin. apply elem_of_app. by left.
Qed.

Lemma infer_children_spec k recur :
  (∀ n e g' r, ext e → recur (g0 ++ e) n = Some (g', r) →
     ∃ e', g' = g0 ++ e' ∧ ext e' ∧ good k n r) →
  ∀ cs e g' dis, ext e →
    infer_children recur cs (g0 ++ e) = Some (g', dis) →
    ∃ e', g' = g0 ++ e' ∧ ext e' ∧ Forall2 (good k) cs dis.
Proof.
  intros Hrec cs. induction cs as [|c cs IH]; intros e g' dis He H.
  { cbn in H. simplify_eq. exists e. by repeat split. }
  cbn [infer_children] in H.
  destruct (recur (g0 ++ e) c) as [[g1 di]|] eqn:Hc; [|done].
  destruct (Hrec _ _ _ _ He Hc) as (e1 & -> & He1 & Hgood).
  destruct (infer_children recur cs (g0 ++ e1)) as [[g2 dis']|] eqn:Hcs; [|done].
  simplify_eq.
  destruct (IH _ _ _ He1 Hcs) as (e2 & -> & He2 & Hall).
  exists e2. repeat split; [done|]. by constructor.
Qed.

Lemma children_evidence k p x cs derivinfo dis :
  Forall2 (good k) cs derivinfo →
  Forall2 (λ di d, id di = Some d) derivinfo dis →
  (∀ y, y ∈ snd <$> dis → y = x) →
  (∀ s, s ∈ fst <$> dis → p ∈ s) →
  Forall (λ c, bottom_up g0 p k c x) cs.
Proof.
  intros Hall. revert dis.
  induction Hall as [|c di cs derivinfo Hgood _ IH]; intros dis Hdis Hx Hp;
    [constructor|].
  inversion Hdis as [|? [props t] ? dis0 Hid Hrest]; simplify_eq/=.
  constructor.
  - rewrite <-(Hx t) by left. apply Hgood, Hp. left.
  - apply (IH dis0); [done| |]; intros y Hy; [apply Hx|apply Hp]; by right.
Qed.

Lemma infer_derivative_spec k :
  ∀ n e g' r, ext e → _infer_derivative k (g0 ++ e) n = Some (g', r) →
    ∃ e', g' = g0 ++ e' ∧ ext e' ∧ good k n r.
Proof.
  induction k as [|k IH]; intros n e g' r He H; [done|].
  cbn [_infer_derivative] in H. rewrite ext_kids in H by done.
  destruct (kids n) as [|c cs] eqn:Hn.
  - (* no components *)
    rewrite ext_leaf_deriv_objects in H by done.
    destruct (deriv_objects g0 n) as [|refnode [|??]]; simplify_eq;
      try (exists e; by repeat split).
    exists e. repeat split; [done|]. intros p Hp.
    rewrite ext_leaf_predicates in Hp by done.
    apply elem_of_predicates in Hp. cbn. fold (kids n). by rewrite Hn.
  - (* components *)
    destruct (infer_children _ _ _) as [[g1 derivinfo]|] eqn:Hcs; [|done].
    destruct (infer_children_spec k _ IH _ _ _ _ He Hcs) as (e1 & -> & He1 & Hall).
    destruct (mapM id derivinfo) as [dis|] eqn:Hdis;
      [|simplify_eq; exists e1; by repeat split].
    destruct (one_value (snd <$> dis)) eqn:Hone;
      [|simplify_eq; exists e1; by repeat split].
    rewrite ext_parent in H by done.
    destruct (truthy (Rdf.value g0 _ R5i_is_component_of)) eqn:Htruthy;
      [|simplify_eq; exists e1; by repeat split].
    destruct (Rdf.value g0 _ R5i_is_component_of) as [ref|] eqn:Href; [|done].
    cbn [default] in H. simplify_eq.
    apply one_value_spec in Hone as (x & Hhead & Hx).
    replace (snd <$> head dis) with (head (snd <$> dis)) in Href
      by (by destruct dis).
    rewrite Hhead in Href. cbn [default] in Href. apply value_Some in Href.
    assert (∀ p, p ∈ intersection (fst <$> dis) →
                 bottom_up g0 p (S k) n ref) as Hup.
    { intros p Hp. cbn [bottom_up]. fold (kids n). rewrite Hn.
      exists x. split; [|done].
      apply (children_evidence k p x _ derivinfo dis); [done| |done|].
      - by apply mapM_Some.
      - by apply elem_of_intersection. }
    change (id ref) with ref.
    destruct (assert_relations_ext (S k) n ref
                (sorted (intersection (fst <$> dis))) e1) as (e2 & -> & He2);
      [by rewrite Hn|done| |].
    + apply Forall_forall. intros p Hp. apply Hup.
      unfold sorted in Hp. by rewrite merge_sort_Permutation in Hp.
    + exists e2. by repeat split.
Qed.

Lemma infer_derivatives_loop_spec k subjects e g' :
  ext e → infer_derivatives_loop k subjects (g0 ++ e) = Some g' →
  ∃ e', g' = g0 ++ e' ∧ ext e'.
Proof.
  revert e. induction subjects as [|s subjects IH]; intros e He H.
  { cbn in H. simplify_eq. by exists e. }
  cbn [infer_derivatives_loop] in H.
  destruct (negb _); [|by apply (IH e)].
  destruct (_infer_derivative k (g0 ++ e) s) as [[g1 r]|] eqn:Hs; [|done].
  destruct (infer_derivative_spec k _ _ _ _ He Hs) as (e1 & -> & He1 & _).
  by apply (IH e1).
Qed.

Lemma infer_derivatives_spec k g' :
  infer_derivatives k g0 = Some g' → ∃ e', g' = g0 ++ e' ∧ ext e'.
Proof.
  unfold infer_derivatives. intros H.
  apply (infer_derivatives_loop_spec k (Rdf.subjects_of g0 R5_has_component) []).
  - constructor.
  - by rewrite app_nil_r.
Qed.

End DerivativeInference.

Ltac by_computation := refine (bool_decide_unpack _ _); vm_compute; exact I.

(** C1. With the translations going to two different components of B the
    inference adds nothing: the components' targets must be one and the
    same node before the parents are compared, so the first scenario of
    the specification yields no relation between A and B, as does the
    second.  It takes both components of A translating the same component
    of B for A to become a translation of B. *)
Theorem distinct_component_targets_infer_nothing :
  (∀ fuel, infer_derivatives (2 + fuel) translations_of_distinct_components
             = Some translations_of_distinct_components) ∧
  (∀ fuel, infer_derivatives (2 + fuel) translation_and_reduction
             = Some translation_and_reduction) ∧
  (∀ fuel, infer_derivatives (2 + fuel) translations_of_one_component
             = Some (translations_of_one_component ++
                     [(LKG "F2_A", S761_is_translation_of, LKG "F2_B")])).
Proof. repeat split; intros fuel; vm_compute; reflexivity. Qed.

(** C3, as stated, fails: the inference does not look at the relations of
    a composite expression, so it adds "A is a translation of B" from the
    components although the input records B as a translation of A. *)
Lemma inferred_relation_closes_cycle :
  ¬ adds_no_cycle 3 translations_against_a_parent_link.
Proof.
  intros H.
  destruct (H ltac:(by_computation) ltac:(by_computation) _ eq_refl
              (LKG "F2_A") S761_is_translation_of (LKG "F2_B")) as [Hcyc _];
    [by_computation..|].
  apply Hcyc. by_computation.
Qed.

(** C3, amended. On an input graph whose derivative relations are
    asymmetric and irreflexive and whose component relations mirror each
    other with one parent per expression, every derivative relation
    (A, p, B) that the inference adds has A distinct from B, and (B, p, A)
    holds in the result only if the input graph already had it: the
    inference adds no relation in both directions and none from a node to
    itself. *)
Theorem inferred_relations_add_no_cycle (fuel : nat) (g g' : Graph) :
  irreflexive g → asymmetric g → component_tree g →
  infer_derivatives fuel g = Some g' →
  ∀ a p b, p ∈ derivrels → (a, p, b) ∈ g' → (a, p, b) ∉ g →
    a ≠ b ∧ ((b, p, a) ∈ g' → (b, p, a) ∈ g).
Proof.
  intros Hirr Hasym Htree Hrun a p b Hp Hin Hnew.
  destruct (infer_derivatives_spec g Htree fuel g' Hrun) as (e & -> & He).
  apply elem_of_app in Hin as [?|Hin]; [done|].
  destruct (proj1 (Forall_forall _ _) He _ Hin) as (_ & _ & _ & k & Hab).
  cbn in Hab. split.
  - intros ->. by apply (bottom_up_irreflexive g Hirr Htree p k b).
  - intros [?|Hin']%elem_of_app; [done|].
    destruct (proj1 (Forall_forall _ _) He _ Hin') as (_ & _ & _ & k' & Hba).
    cbn in Hba. by destruct (bottom_up_asymmetric g Hasym Htree p k k' a b).
Qed.

Lemma inferred_relations_add_no_cycle_witness :
  LKG "F2_A" ≠ LKG "F2_B" ∧
  ((LKG "F2_B", S761_is_translation_of, LKG "F2_A")
     ∈ translations_of_one_component ++
       [(LKG "F2_A", S761_is_translation_of, LKG "F2_B")] →
   (LKG "F2_B", S761_is_translation_of, LKG "F2_A") ∈ translations_of_one_component).
Proof.
  apply (inferred_relations_add_no_cycle 3 translations_of_one_component
           (translations_of_one_component ++
              [(LKG "F2_A", S761_is_translation_of, LKG "F2_B")]));
    first [by_computation | vm_compute; reflexivity].
Defined.

(** ** Identifier allocation *)

Lemma make_autoinc_id_step prefix (counts : gmap string Z) :
  let n := default 0%Z (counts !! prefix) in
  make_autoinc_id prefix counts
    = (prefix +:+ "_" +:+ pretty n, <[prefix := (n + 1)%Z]> counts).
Proof.
  unfold make_autoinc_id. destruct (counts !! prefix) as [n|] eqn:E; cbn.
  - by rewrite E.
  - by rewrite lookup_insert_eq, insert_insert_eq.
Qed.

Lemma allocations_nth prefixes : ∀ (counts : gmap string Z) j p,
  prefixes !! j = Some p →
  (allocations prefixes counts).1 !! j
    = Some (p +:+ "_" +:+
            pretty (default 0 (counts !! p)
                    + Z.of_nat (length (filter (λ q, q = p) (take j prefixes))))%Z).
Proof.
  induction prefixes as [|q prefixes IH]; intros counts j p Hj; [done|].
  cbn [allocations]. rewrite make_autoinc_id_step.
  destruct (allocations prefixes _) as [uris counts'] eqn:E.
  destruct j as [|j]; cbn in Hj.
  - simplify_eq. cbn. by rewrite Z.add_0_r.
  - cbn [fst take]. rewrite lookup_cons.
    specialize (IH (<[q:=(default 0 (counts !! q) + 1)%Z]> counts) j p Hj).
    rewrite E in IH. cbn [fst] in IH. rewrite IH. do 3 f_equal.
    destruct (decide (q = p)) as [->|Hne].
    + rewrite filter_cons_True, lookup_insert_eq by done. cbn [default length].
      f_equal. unfold id. lia.
    + by rewrite filter_cons_False, lookup_insert_ne by done.
Qed.

Lemma restore_counts_other numbers_of classes : ∀ (counts counts' : gmap string Z) p,
  restore_counts numbers_of classes counts = Ok counts' →
  p ∉ class_prefix <$> classes →
  counts' !! p = counts !! p.
Proof.
  induction classes as [|i classes IH]; intros counts counts' p H Hp.
  { cbn in H. by simplify_eq. }
  cbn [restore_counts] in H.
  destruct (numbers_of i) as [numbers|]; [|done]. cbn [rbind] in H.
  destruct (zmax numbers) as [m|]; [|done]. cbn [rbind] in H.
  rewrite fmap_cons, not_elem_of_cons in Hp. destruct Hp as [Hne Hp].
  rewrite (IH _ _ _ H Hp). by rewrite lookup_insert_ne.
Qed.

Lemma restore_counts_app numbers_of l1 l2 (counts : gmap string Z) :
  restore_counts numbers_of (l1 ++ l2) counts
    = (c ←r restore_counts numbers_of l1 counts; restore_counts numbers_of l2 c).
Proof.
  revert counts. induction l1 as [|i l1 IH]; intros counts; [done|].
  cbn [app restore_counts].
  destruct (numbers_of i) as [numbers|]; [|done]. cbn [rbind].
  destruct (zmax numbers) as [m|]; [|done]. cbn [rbind]. apply IH.
Qed.

Lemma import_lkg_person_counter (g : Graph) (counts counts' : gmap string Z)
    numbers m :
  import_lkg g counts = Ok counts' →
  suffix_numbers g E21_Person = Ok numbers →
  zmax numbers = Ok m →
  counts' !! "E21" = Some (m + 1)%Z.
Proof.
  unfold import_lkg. intros H Hn Hm.
  destruct (restore_counts (suffix_numbers g) _ counts) as [c1|] eqn:H1; [|done].
  cbn [rbind] in H.
  rewrite (restore_counts_other _ _ _ _ "E21" H) by by_computation.
  change (simple_ids ++ prefixed_ids)
    with ((simple_ids ++ [E21_Person]) ++ [E53_Place; F11_Corporate_Body]) in H1.
  rewrite restore_counts_app in H1.
  destruct (restore_counts _ (simple_ids ++ [E21_Person]) counts) as [c2|] eqn:H2;
    [|done].
  cbn [rbind] in H1.
  rewrite (restore_counts_other _ _ _ _ "E21" H1) by by_computation.
  rewrite restore_counts_app in H2.
  destruct (restore_counts _ simple_ids counts) as [c0|]; [|done].
  cbn [rbind restore_counts] in H2. rewrite Hn in H2. cbn [rbind] in H2.
  rewrite Hm in H2. cbn [rbind] in H2. simplify_eq.
  apply lookup_insert_eq.
Qed.

(** C5. The counter of a prefix starts at 0 and each allocation for the
    prefix returns the prefix with the current number and moves the
    counter up by one, so no two allocations of a run return the same
    identifier for one prefix.  After [import_lkg] the counter of the
    person prefix is the greatest number among the persisted person
    identifiers plus one: with P0 to P7 in the graph it is 8, and the next
    person identifier that is allocated ends in the number 8. *)
Theorem allocator_counts_up_and_resumes :
  (∀ prefix (counts : gmap string Z),
     let n := default 0%Z (counts !! prefix) in
     make_autoinc_id prefix counts
       = (prefix +:+ "_" +:+ pretty n, <[prefix := (n + 1)%Z]> counts)) ∧
  (∀ prefixes (counts : gmap string Z) i j p,
     i < j → prefixes !! i = Some p → prefixes !! j = Some p →
     (allocations prefixes counts).1 !! i ≠ (allocations prefixes counts).1 !! j) ∧
  (∀ (g : Graph) (counts counts' : gmap string Z) numbers m,
     import_lkg g counts = Ok counts' →
     suffix_numbers g E21_Person = Ok numbers →
     zmax numbers = Ok m →
     counts' !! "E21" = Some (m + 1)%Z ∧
     (make_autoinc_id "E21" counts').1 = "E21_" +:+ pretty (m + 1)%Z) ∧
  (∃ counts',
     import_lkg persisted_example ∅ = Ok counts' ∧
     suffix_numbers persisted_example E21_Person = Ok [0; 1; 2; 3; 4; 5; 6; 7]%Z ∧
     counts' !! "E21" = Some 8%Z ∧
     (make_autoinc_id "E21" counts').1 = "E21_8").
Proof.
  split; [apply make_autoinc_id_step|]. split; [|split].
  - intros prefixes counts i j p Hij Hi Hj.
    rewrite (allocations_nth _ _ _ _ Hi), (allocations_nth _ _ _ _ Hj).
    intros [= H%(inj (String.app _))%(inj (String.app _))%(inj pretty)].
    assert (length (filter (λ q, q = p) (take i prefixes))
            < length (filter (λ q, q = p) (take j prefixes))); [|lia].
    rewrite <-(take_drop i (take j prefixes)).
    rewrite take_take, Nat.min_l by lia.
    rewrite filter_app, length_app.
    assert (drop i (take j prefixes) !! 0 = Some p) as H0.
    { rewrite lookup_drop, Nat.add_0_r, lookup_take_lt by lia. done. }
    destruct (drop i (take j prefixes)) as [|q l]; simplify_eq/=.
    rewrite filter_cons_True by done. cbn. lia.
  - intros g counts counts' numbers m Himp Hn Hm.
    pose proof (import_lkg_person_counter _ _ _ _ _ Himp Hn Hm) as Hc.
    split; [done|]. rewrite make_autoinc_id_step. cbn. by rewrite Hc.
  - destruct (import_lkg persisted_example ∅) as [counts'|] eqn:Himp;
      [|by vm_compute in Himp].
    exists counts'. split; [done|].
    assert (suffix_numbers persisted_example E21_Person
            = Ok [0; 1; 2; 3; 4; 5; 6; 7]%Z) as Hn by (by vm_compute).
    split; [done|].
    pose proof (import_lkg_person_counter _ _ _ _ 7%Z Himp Hn eq_refl) as Hc.
    split; [done|]. rewrite make_autoinc_id_step. cbn. by rewrite Hc.
Qed.

Lemma allocator_counts_up_and_resumes_witness :
  (allocations ["E42"; "E35"; "E42"] ∅).1 !! 0
    ≠ (allocations ["E42"; "E35"; "E42"] ∅).1 !! 2 ∧
  match import_lkg persisted_example ∅ with
  | Ok counts' =>
      counts' !! "E21" = Some (7 + 1)%Z ∧
      (make_autoinc_id "E21" counts').1 = "E21_" +:+ pretty (7 + 1)%Z
  | Raise _ => True
  end.
Proof.
  split.
  - apply (proj1 (proj2 allocator_counts_up_and_resumes)
             ["E42"; "E35"; "E42"] ∅ 0 2 "E42"); [lia|reflexivity..].
  - destruct (import_lkg persisted_example ∅) as [counts'|] eqn:Himp; [|exact I].
    apply (proj1 (proj2 (proj2 allocator_counts_up_and_resumes))
             persisted_example ∅ counts' [0; 1; 2; 3; 4; 5; 6; 7]%Z 7%Z);
      [exact Himp|vm_compute; reflexivity..].
Defined.

(** ** Work inference *)

(** *** Running a computation *)

Lemma bind_Ok {A B} (m : M A) (k : A → M B) w b w'' :
  bind m k w = Ok (b, w'') ↔ ∃ a w', m w = Ok (a, w') ∧ k a w' = Ok (b, w'').
Proof.
  unfold bind. destruct (m w) as [[a w']|e]; [|naive_solver].
  split; [eauto|]. by intros (? & ? & [= <- <-] & ?).
Qed.

Lemma dict_get_Ok pairs key w v w' :
  dict_get pairs key w = Ok (v, w') → w' = w ∧ (key, v) ∈ pairs.
Proof.
  unfold dict_get. destruct (last _) as [[k v']|] eqn:E; [|done].
  intros [= <- <-]. split; [done|].
  apply last_Some_elem_of, list_elem_of_filter in E as [Hk Hin].
  cbn in Hk. by subst.
Qed.

(** *** The frame of a computation that writes to the graph at [g] only *)

Section Frame.
Context (g : nat).
Local Notation frame := (writes_only_to g).

Lemma frame_ret {A} (a : A) : frame (ret a).
Proof. by intros w ? ? [= <- <-]. Qed.

Lemma frame_bind {A B} (m : M A) (k : A → M B) :
  frame m → (∀ a, frame (k a)) → frame (bind m k).
Proof.
  intros Hm Hk w b w'' (a & w' & H1 & H2)%bind_Ok.
  destruct (Hm _ _ _ H1) as [Hl1 Hf1], (Hk _ _ _ _ H2) as [Hl2 Hf2].
  split; [congruence|]. intros i Hi. by rewrite Hf2, Hf1.
Qed.

Lemma frame_for_each {A} (l : list A) (body : A → M unit) :
  (∀ x, frame (body x)) → frame (for_each l body).
Proof.
  intros Hb. induction l as [|x l IH]; [apply frame_ret|].
  cbn [for_each]. apply frame_bind; auto.
Qed.

Lemma frame_the_graph a : frame (the_graph a).
Proof. by intros w ? ? [= <- <-]. Qed.

Lemma frame_graph_add s p o : frame (graph_add g s p o).
Proof.
  intros w [] w'. unfold graph_add. destruct s, o; try done.
  intros [= <-]. cbn. split; [apply length_alter|].
  intros i Hi. by apply list_lookup_alter_ne.
Qed.

Lemma frame_autoinc prefix : frame (autoinc prefix).
Proof.
  intros w a w'. unfold autoinc. destruct (make_autoinc_id _ _).
  by intros [= <- <-].
Qed.

Lemma frame_dict_get pairs key : frame (dict_get pairs key).
Proof. by intros w v w' [-> _]%dict_get_Ok. Qed.

Lemma frame_if {A} (b : bool) (m1 m2 : M A) :
  frame m1 → frame m2 → frame (if b then m1 else m2).
Proof. by destruct b. Qed.

Lemma frame_infer_work graph exp : frame (infer_work graph g exp).
Proof.
  unfold infer_work.
  repeat first
    [ apply frame_ret | apply frame_the_graph | apply frame_graph_add
    | apply frame_autoinc | apply frame_dict_get
    | apply frame_if | apply frame_for_each; intros ?
    | apply frame_bind; [|intros ?] ].
Qed.

End Frame.

Lemma make_base_graph_Ok w g w' :
  make_base_graph w = Ok (g, w') →
  g = length (graphs w) ∧ graphs w' = graphs w ++ [[]] ∧
  autoinc_id_counts w' = autoinc_id_counts w.
Proof. by intros [= <- <-]. Qed.

(** C10. [infer_works] changes no graph that existed when it was called,
    the input graph among them: the graph it returns is a new object, and
    every triple it infers goes into that one. *)
Theorem infer_works_leaves_input_untouched (graph : nat) (w w' : world) (g : nat) :
  infer_works graph w = Ok (g, w') →
  g = length (graphs w) ∧
  length (graphs w') = S (length (graphs w)) ∧
  ∀ a, a < length (graphs w) → graphs w' !! a = graphs w !! a.
Proof.
  unfold infer_works.
  intros (g0 & w1 & (-> & Hg1 & _)%make_base_graph_Ok & H)%bind_Ok.
  apply bind_Ok in H as (G & w2 & [= <- <-] & H).
  apply bind_Ok in H as ([] & w3 & Hloop & [= <- <-]).
  apply (frame_for_each (length (graphs w))) in Hloop as [Hlen Hframe];
    [|intros exp; apply frame_infer_work].
  split; [done|]. split.
  - rewrite Hlen, Hg1, length_app. cbn. lia.
  - intros a Ha. rewrite Hframe, Hg1 by lia. by apply lookup_app_l.
Qed.

Lemma infer_works_leaves_input_untouched_witness :
  match infer_works 0 (World [two_sources_example] ∅) with
  | Ok (g, w') =>
      g = 1 ∧ length (graphs w') = 2 ∧
      ∀ a, a < 1 → graphs w' !! a = [two_sources_example] !! a
  | Raise _ => True
  end.
Proof.
  destruct (infer_works 0 (World [two_sources_example] ∅)) as [[g w']|] eqn:H;
    [|exact I].
  exact (infer_works_leaves_input_untouched 0 _ w' g H).
Defined.

(** *** What the loop body adds *)

Section Adds.
Context (graph g : nat) (G : Graph).
Hypothesis Hne : graph ≠ g.
Local Notation adds := (adds_only graph g G).

Lemma adds_ret {A} (a : A) Q : adds (ret a) (λ b, b = a) Q.
Proof. intros w ? ? gg HG Hg [= <- <-]. naive_solver. Qed.

Lemma adds_ret_tt Q : adds (ret tt) (λ _, True) Q.
Proof. intros w ? ? gg HG Hg [= <- <-]. naive_solver. Qed.

Lemma adds_weaken {A} (m : M A) (P P' : A → Prop) (Q Q' : triple → Prop) :
  adds m P Q → (∀ a, P a → P' a) → (∀ t, Q t → Q' t) → adds m P' Q'.
Proof.
  intros Hm HP HQ w a w' gg HG Hg H.
  destruct (Hm _ _ _ _ HG Hg H) as (? & ? & gg' & ? & ? & Hnew).
  split; [auto|]. split; [done|]. exists gg'. naive_solver.
Qed.

Lemma adds_bind {A B} (m : M A) (k : A → M B) P P' Q :
  adds m P Q → (∀ a, P a → adds (k a) P' Q) → adds (bind m k) P' Q.
Proof.
  intros Hm Hk w b w'' gg HG Hg (a & w' & H1 & H2)%bind_Ok.
  destruct (Hm _ _ _ _ HG Hg H1) as (Ha & HG' & gg' & Hg' & Hsub & Hnew).
  destruct (Hk a Ha _ _ _ _ HG' Hg' H2) as (Hb & HG'' & gg'' & Hg'' & Hsub' & Hnew').
  split; [done|]. split; [done|]. exists gg''. naive_solver.
Qed.

Lemma adds_for_each {A} (l : list A) (body : A → M unit) Q :
  (∀ x, x ∈ l → adds (body x) (λ _, True) Q) →
  adds (for_each l body) (λ _, True) Q.
Proof.
  induction l as [|x l IH]; intros Hb.
  { apply adds_ret_tt. }
  cbn [for_each]. eapply adds_bind; [apply Hb; left|].
  intros _ _. apply IH. intros y Hy. apply Hb. by right.
Qed.

Lemma adds_the_graph Q : adds (the_graph graph) (λ G', G' = G) Q.
Proof.
  intros w ? ? gg HG Hg [= <- <-]. rewrite HG. naive_solver.
Qed.

Lemma adds_graph_add s p o (Q : triple → Prop) :
  (∀ s' o', s = Some s' → o = Some o' → Q (s', p, o')) →
  adds (graph_add g s p o) (λ _, True) Q.
Proof.
  intros HQ w [] w' gg HG Hg. unfold graph_add.
  destruct s as [s'|], o as [o'|]; try done. intros [= <-]. cbn.
  split; [done|]. split; [by rewrite list_lookup_alter_ne by done|].
  exists (Rdf.add gg (s', p, o')). split; [by rewrite list_lookup_alter_eq, Hg|].
  split; intros t; rewrite elem_of_add; [tauto|].
  intros [?| ->]; [by left|right; by apply HQ].
Qed.

Lemma adds_autoinc prefix Q : adds (autoinc prefix) (λ _, True) Q.
Proof.
  intros w a w' gg HG Hg. unfold autoinc. destruct (make_autoinc_id _ _).
  intros [= <- <-]. cbn. naive_solver.
Qed.

Lemma adds_dict_get pairs key Q :
  adds (dict_get pairs key) (λ v, (key, v) ∈ pairs) Q.
Proof.
  intros w v w' gg HG Hg [-> Hin]%dict_get_Ok. naive_solver.
Qed.

Lemma copyprops_plain p :
  p ∈ copyprops → p ≠ R3i_realises ∧ p ≠ RDF_type.
Proof.
  unfold copyprops. rewrite !elem_of_cons, elem_of_nil.
  intros [->|[->|[->|[->|[->|[]]]]]]; split; intros H; vm_compute in H; discriminate H.
Qed.

Lemma authorprops_plain p :
  p ∈ authorprops → p ≠ R3i_realises ∧ p ≠ RDF_type.
Proof.
  unfold authorprops. rewrite !elem_of_cons, elem_of_nil.
  intros [->|[->|[->|[->|[->|[->|[]]]]]]]; split; intros H; vm_compute in H;
    discriminate H.
Qed.

Ltac closed_neq := let H := fresh in intros H; vm_compute in H; discriminate H.

(** A triple with a fixed predicate that is neither a type nor a
    realisation, or a type other than that of expressions. *)
Ltac plain_triple :=
  first [ right; right; split; cbn [pred fst snd]; closed_neq
        | right; left; split; [reflexivity|cbn [obj snd]; closed_neq] ].

Ltac add_step tac :=
  eapply adds_bind;
    [ apply adds_graph_add; intros ? ? [= <-] [= <-]; split; [assumption|tac]
    | intros _ _ ].

Lemma infer_work_adds exp :
  adds (infer_work graph g exp) (λ _, True)
       (λ t, work_root G exp ∧ work_triple G exp t).
Proof.
  unfold infer_work.
  eapply adds_bind; [apply adds_the_graph|intros ? ->].
  eapply adds_bind; [apply adds_the_graph|intros ? ->].
  destruct (bool_decide (closure_objects G exp = []) && _) eqn:Hguard;
    [|apply adds_ret_tt].
  apply andb_true_iff in Hguard as [Hsrc%bool_decide_eq_true Hreal%bool_decide_eq_true].
  eapply adds_bind; [apply adds_the_graph|intros ? ->].
  case_bool_decide as Hskip; [apply adds_ret_tt|].
  assert (work_root G exp) as Hroot.
  { split; [done|]. split; [done|].
    by destruct (Rdf.triples G (Some exp) (Some SKIP) None). }
  eapply adds_bind; [apply adds_the_graph|intros ? ->].
  eapply adds_bind; [apply adds_dict_get|intros f2_label _].
  add_step plain_triple.
  add_step plain_triple.
  eapply adds_bind.
  { apply adds_for_each. intros p Hp%copyprops_plain.
    eapply adds_bind; [apply adds_dict_get|intros v _].
    apply adds_graph_add. intros ? ? [= <-] [= <-]. split; [done|].
    right; right. exact Hp. }
  intros _ _.
  eapply adds_bind; [apply adds_autoinc|intros uri _].
  add_step plain_triple.
  add_step plain_triple.
  add_step ltac:(left; repeat split; by left).
  do 6 add_step plain_triple.
  eapply adds_bind; [apply adds_the_graph|intros ? ->].
  eapply adds_bind.
  { apply adds_for_each. intros [p v] _. cbn [fst snd].
    case_bool_decide as Hp; [|apply adds_ret_tt].
    apply authorprops_plain in Hp.
    apply adds_graph_add. intros ? ? [= <-] [= <-]. split; [done|].
    right; right. exact Hp. }
  intros _ _.
  eapply adds_bind; [apply adds_the_graph|intros ? ->].
  apply adds_for_each. intros d Hd.
  add_step plain_triple.
  add_step ltac:(left; repeat split; by right).
  eapply adds_bind; [apply adds_the_graph|intros ? ->].
  eapply adds_bind.
  { apply adds_graph_add. intros ? ? _ [= <-]. split; [done|]. plain_triple. }
  intros _ _.
  apply adds_graph_add. intros ? ? [= <-] _. split; [done|]. plain_triple.
Qed.

(** *** What the loop body is sure to add *)

Local Notation mono m := (adds m (λ _, True) (λ _, True)).

Lemma mono_bind {A B} (m : M A) (k : A → M B) :
  mono m → (∀ a, mono (k a)) → mono (bind m k).
Proof. intros Hm Hk. eapply adds_bind; [exact Hm|]. intros a _. apply Hk. Qed.

Lemma mono_the_graph : mono (the_graph graph).
Proof. eapply adds_weaken; [apply (adds_the_graph (λ _, True))|done..]. Qed.

Lemma mono_dict_get pairs key : mono (dict_get pairs key).
Proof.
  eapply adds_weaken; [apply (adds_dict_get pairs key (λ _, True))|done..].
Qed.

Lemma mono_graph_add s p o : mono (graph_add g s p o).
Proof. by apply adds_graph_add. Qed.

Lemma mono_if {A} (b : bool) (m1 m2 : M A) :
  mono m1 → mono m2 → mono (if b then m1 else m2).
Proof. by destruct b. Qed.

Ltac solve_mono :=
  repeat first
    [ apply adds_ret_tt | apply mono_the_graph | apply mono_graph_add
    | apply adds_autoinc | apply mono_dict_get
    | apply mono_if | apply adds_for_each; intros ? _
    | apply mono_bind; [|intros ?] ].

Local Notation sure := (ensures graph g G).

Lemma sure_here {A} s p o (k : unit → M A) :
  (∀ u, mono (k u)) → sure (bind (graph_add g (Some s) p (Some o)) k) (s, p, o).
Proof.
  intros Hk w b w'' gg HG Hg (a & w' & H1 & H2)%bind_Ok.
  destruct (adds_graph_add (Some s) p (Some o) (λ t, t = (s, p, o))
              ltac:(by intros ? ? [= <-] [= <-]) _ _ _ _ HG Hg H1)
    as (_ & HG' & gg' & Hg' & _ & _).
  assert ((s, p, o) ∈ gg') as Hin.
  { revert H1 Hg'. unfold graph_add. destruct a. intros [= <-]. cbn [graphs].
    rewrite list_lookup_alter_eq, Hg. intros [= <-]. apply elem_of_add. by right. }
  destruct (Hk a _ _ _ _ HG' Hg' H2) as (_ & HG'' & gg'' & Hg'' & Hsub & _).
  split; [done|]. exists gg''. split; [done|]. by apply Hsub.
Qed.

Lemma sure_later {A B} (m : M A) (k : A → M B) P t :
  adds m P (λ _, True) → (∀ a, P a → sure (k a) t) → sure (bind m k) t.
Proof.
  intros Hm Hk w b w'' gg HG Hg (a & w' & H1 & H2)%bind_Ok.
  destruct (Hm _ _ _ _ HG Hg H1) as (Ha & HG' & gg' & Hg' & _ & _).
  by apply (Hk a Ha _ _ _ _ HG' Hg' H2).
Qed.

Lemma infer_work_realises exp :
  work_root G exp →
  sure (infer_work graph g exp) (f2_of exp, R3i_realises, f1_of exp).
Proof.
  intros (Hsrc & Hreal & Hskip). unfold infer_work.
  eapply sure_later; [apply adds_the_graph|intros ? ->].
  eapply sure_later; [apply adds_the_graph|intros ? ->].
  rewrite !bool_decide_eq_true_2 by done. cbn [andb].
  eapply sure_later; [apply adds_the_graph|intros ? ->].
  rewrite bool_decide_eq_false_2 by (rewrite Hskip; intros H; by apply H).
  eapply sure_later; [apply adds_the_graph|intros ? ->].
  eapply sure_later; [apply mono_dict_get|intros f2_label _].
  do 2 (eapply sure_later; [apply mono_graph_add|intros _ _]).
  eapply sure_later; [solve_mono|intros _ _].
  eapply sure_later; [apply adds_autoinc|intros uri _].
  do 2 (eapply sure_later; [apply mono_graph_add|intros _ _]).
  apply sure_here. intros _. solve_mono.
Qed.

Lemma mono_infer_work exp : mono (infer_work graph g exp).
Proof. eapply adds_weaken; [apply infer_work_adds|done..]. Qed.

Lemma sure_then {A B} (m : M A) (k : A → M B) t :
  sure m t → (∀ a, mono (k a)) → sure (bind m k) t.
Proof.
  intros Hm Hk w b w'' gg HG Hg (a & w' & H1 & H2)%bind_Ok.
  destruct (Hm _ _ _ _ HG Hg H1) as (HG' & gg' & Hg' & Hin).
  destruct (Hk a _ _ _ _ HG' Hg' H2) as (_ & HG'' & gg'' & Hg'' & Hsub & _).
  split; [done|]. exists gg''. split; [done|]. by apply Hsub.
Qed.

Lemma sure_for_each {A} (l : list A) (body : A → M unit) x t :
  x ∈ l → sure (body x) t → (∀ y, mono (body y)) →
  sure (for_each l body) t.
Proof.
  intros Hx Hs Hm. induction l as [|y l IH]; [by apply elem_of_nil in Hx|].
  cbn [for_each]. apply elem_of_cons in Hx as [<-|Hx].
  - apply sure_then; [done|]. intros _. by apply adds_for_each.
  - eapply sure_later; [apply Hm|]. intros _ _. by apply IH.
Qed.

Lemma infer_work_realises_derivative exp d :
  work_root G exp → d ∈ closure_subjects G exp →
  sure (infer_work graph g exp) (f1_of exp, R3_is_realised_in, d) ∧
  sure (infer_work graph g exp) (d, R3i_realises, f1_of exp).
Proof.
  intros (Hsrc & Hreal & Hskip) Hd.
  split; unfold infer_work;
    (eapply sure_later; [apply adds_the_graph|intros ? ->]);
    (eapply sure_later; [apply adds_the_graph|intros ? ->]);
    rewrite !bool_decide_eq_true_2 by done; cbn [andb];
    (eapply sure_later; [apply adds_the_graph|intros ? ->]);
    rewrite bool_decide_eq_false_2 by (rewrite Hskip; intros H; by apply H);
    (eapply sure_later; [apply adds_the_graph|intros ? ->]);
    (eapply sure_later; [apply mono_dict_get|intros f2_label _]);
    do 2 (eapply sure_later; [apply mono_graph_add|intros _ _]);
    (eapply sure_later; [solve_mono|intros _ _]);
    (eapply sure_later; [apply adds_autoinc|intros uri _]);
    do 9 (eapply sure_later; [apply mono_graph_add|intros _ _]);
    (eapply sure_later; [apply adds_the_graph|intros ? ->]);
    (eapply sure_later; [solve_mono|intros _ _]);
    (eapply sure_later; [apply adds_the_graph|intros ? ->]);
    (eapply sure_for_each; [exact Hd| |intros y; solve_mono]).
  - apply sure_here. intros _. solve_mono.
  - eapply sure_later; [apply mono_graph_add|intros _ _].
    apply sure_here. intros _. solve_mono.
Qed.

Lemma bind_the_graph {A} (k : Graph → M A) w :
  graphs w !! graph = Some G → bind (the_graph graph) k w = k G w.
Proof. intros HG. unfold bind, the_graph. by rewrite HG. Qed.



End Adds.

(** *** The closure of the derivative relations *)

Lemma closure_go_seen next fuel : ∀ todo seen x,
  x ∈ seen → x ∈ closure_go next fuel todo seen.
Proof.
  induction fuel as [|fuel IH]; intros todo seen x Hx; [done|].
  cbn [closure_go]. destruct todo as [|y todo]; [done|].
  destruct (decide (y ∈ seen)); apply IH; [done|].
  apply elem_of_app. by left.
Qed.


Lemma elem_of_flat_map {A B} (f : A → list B) (l : list A) (y : B) :
  y ∈ flat_map f l ↔ ∃ x, x ∈ l ∧ y ∈ f x.
Proof.
  rewrite list_elem_of_In, in_flat_map.
  by setoid_rewrite list_elem_of_In.
Qed.

Lemma elem_of_subjects g p o s :
  s ∈ Rdf.subjects g p o ↔ (s, p, o) ∈ g.
Proof.
  unfold Rdf.subjects. rewrite list_elem_of_fmap. split.
  - intros ([[s' p'] o'] & -> & Ht). apply elem_of_triples in Ht as [Hin Hm].
    apply matches_spec in Hm. rewrite !pat_ok_Some in Hm. cbn in Hm.
    by destruct Hm as (_ & -> & ->).
  - intros Hin. exists (s, p, o). split; [done|]. apply elem_of_triples.
    split; [done|]. apply matches_spec. by rewrite !pat_ok_Some.
Qed.

Lemma elem_of_deriv_targets G x o :
  o ∈ deriv_targets G x ↔ ∃ p, p ∈ derivrels ∧ (x, p, o) ∈ G.
Proof.
  unfold deriv_targets. rewrite elem_of_flat_map.
  by setoid_rewrite elem_of_objects.
Qed.

Lemma elem_of_deriv_sources G x s :
  s ∈ deriv_sources G x ↔ ∃ p, p ∈ derivrels ∧ (s, p, x) ∈ G.
Proof.
  unfold deriv_sources. rewrite elem_of_flat_map.
  by setoid_rewrite elem_of_subjects.
Qed.

(** An expression has no source in the closure exactly when it has no
    derivative relation to anything. *)
Lemma closure_objects_nil G x :
  closure_objects G x = [] ↔ deriv_targets G x = [].
Proof.
  unfold closure_objects. replace (2 * length G + 1) with (S (2 * length G)) by lia.
  split.
  - destruct (deriv_targets G x) as [|a l]; [done|]. cbn [closure_go].
    rewrite decide_False by apply not_elem_of_nil. intros H.
    pose proof (closure_go_seen (deriv_targets G) (2 * length G)
                  (deriv_targets G a ++ l) ([] ++ [a]) a) as Ha.
    rewrite H in Ha. exfalso. apply (not_elem_of_nil a), Ha.
    apply elem_of_app. right. left.
  - by intros ->.
Qed.



(** *** One run of [infer_works], and a second one *)

Lemma infer_works_run graph (w w' : world) g (G : Graph) :
  graphs w !! graph = Some G →
  infer_works graph w = Ok (g, w') →
  ∃ gg, graphs w' !! g = Some gg ∧
    (∀ t, t ∈ gg →
       ∃ exp, exp ∈ Rdf.subjects G RDF_type F2_Expression ∧
              work_root G exp ∧ work_triple G exp t) ∧
    (∀ exp, exp ∈ Rdf.subjects G RDF_type F2_Expression → work_root G exp →
       (f2_of exp, R3i_realises, f1_of exp) ∈ gg).
Proof.
  intros HG. unfold infer_works.
  intros (g0 & w1 & (-> & Hg1 & _)%make_base_graph_Ok & H)%bind_Ok.
  pose proof (lookup_lt_Some _ _ _ HG) as Hlt.
  assert (graph ≠ length (graphs w)) as Hne by lia.
  assert (graphs w1 !! graph = Some G) as HG1
    by (rewrite Hg1; by apply lookup_app_l_Some).
  assert (graphs w1 !! length (graphs w) = Some []) as Hgg1
    by (rewrite Hg1; by apply list_lookup_middle).
  rewrite bind_the_graph with (G := G) in H by done.
  apply bind_Ok in H as ([] & w2 & Hloop & [= <- <-]).
  set (exps := Rdf.subjects G RDF_type F2_Expression) in *.
  assert (adds_only graph (length (graphs w)) G
            (for_each exps (infer_work graph (length (graphs w)))) (λ _, True)
            (λ t, ∃ exp, exp ∈ exps ∧ work_root G exp ∧ work_triple G exp t))
    as Hadds.
  { apply adds_for_each. intros exp Hexp.
    eapply adds_weaken; [by apply infer_work_adds|done|naive_solver]. }
  destruct (Hadds _ _ _ _ HG1 Hgg1 Hloop) as (_ & _ & gg & Hgg & _ & Hnew).
  exists gg. split; [done|]. split.
  - intros t Ht. by destruct (Hnew t Ht) as [[]%elem_of_nil|?].
  - intros exp Hexp Hroot.
    assert (ensures graph (length (graphs w)) G
              (for_each exps (infer_work graph (length (graphs w))))
              (f2_of exp, R3i_realises, f1_of exp)) as Hsure.
    { eapply sure_for_each; [exact Hexp|by apply infer_work_realises|].
      intros y. by apply mono_infer_work. }
    destruct (Hsure _ _ _ _ HG1 Hgg1 Hloop) as (_ & gg' & Hgg' & Hin).
    by simplify_eq.
Qed.

Lemma infer_works_run_cluster graph (w w' : world) g (G : Graph) gg :
  graphs w !! graph = Some G →
  infer_works graph w = Ok (g, w') →
  graphs w' !! g = Some gg →
  ∀ exp d, exp ∈ Rdf.subjects G RDF_type F2_Expression → work_root G exp →
    d ∈ closure_subjects G exp →
    (f1_of exp, R3_is_realised_in, d) ∈ gg ∧ (d, R3i_realises, f1_of exp) ∈ gg.
Proof.
  intros HG. unfold infer_works.
  intros (g0 & w1 & (-> & Hg1 & _)%make_base_graph_Ok & H)%bind_Ok.
  pose proof (lookup_lt_Some _ _ _ HG) as Hlt.
  assert (graph ≠ length (graphs w)) as Hne by lia.
  assert (graphs w1 !! graph = Some G) as HG1
    by (rewrite Hg1; by apply lookup_app_l_Some).
  assert (graphs w1 !! length (graphs w) = Some []) as Hgg1
    by (rewrite Hg1; by apply list_lookup_middle).
  rewrite bind_the_graph with (G := G) in H by done.
  apply bind_Ok in H as ([] & w2 & Hloop & [= <- <-]).
  intros Hgg exp d Hexp Hroot Hd.
  destruct (infer_work_realises_derivative graph (length (graphs w)) G Hne exp d
              Hroot Hd) as [H1 H2].
  split.
  - assert (ensures graph (length (graphs w)) G
              (for_each (Rdf.subjects G RDF_type F2_Expression)
                 (infer_work graph (length (graphs w))))
              (f1_of exp, R3_is_realised_in, d)) as Hsure.
    { eapply sure_for_each; [exact Hexp|exact H1|].
      intros y. by apply mono_infer_work. }
    destruct (Hsure _ _ _ _ HG1 Hgg1 Hloop) as (_ & gg' & Hgg' & Hin).
    by simplify_eq.
  - assert (ensures graph (length (graphs w)) G
              (for_each (Rdf.subjects G RDF_type F2_Expression)
                 (infer_work graph (length (graphs w))))
              (d, R3i_realises, f1_of exp)) as Hsure.
    { eapply sure_for_each; [exact Hexp|exact H2|].
      intros y. by apply mono_infer_work. }
    destruct (Hsure _ _ _ _ HG1 Hgg1 Hloop) as (_ & gg' & Hgg' & Hin).
    by simplify_eq.
Qed.



Lemma realises_neq_type : R3i_realises ≠ RDF_type.
Proof. intros H; vm_compute in H; discriminate H. Qed.



(** *** The closure is the transitive closure *)

Section Closure.
Context (next : term → list term) (E : Graph) (key : triple → term).
Hypothesis Hnext : ∀ z, length (next z) = length (filter (λ t, key t = z) E).
Context (x : term).

Let R (a b : term) : Prop := b ∈ next a.

Lemma unseen_split (l : Graph) (seen : list term) z :
  z ∉ seen →
  length (filter (λ t, key t ∉ seen ++ [z]) l) + length (filter (λ t, key t = z) l)
    = length (filter (λ t, key t ∉ seen) l).
Proof.
  intros Hz. induction l as [|t l IH]; [done|].
  rewrite !filter_cons. destruct (decide (key t = z)) as [Heq|Hne].
  - rewrite decide_False by (rewrite Heq, elem_of_app, list_elem_of_singleton; tauto).
    rewrite decide_True by (by rewrite Heq). cbn [length]. lia.
  - destruct (decide (key t ∉ seen)) as [Hs|Hs].
    + rewrite decide_True
        by (rewrite elem_of_app, list_elem_of_singleton; tauto).
      cbn [length]. lia.
    + rewrite decide_False; [done|].
      rewrite elem_of_app. intros Hn. apply Hs. tauto.
Qed.

Lemma closure_go_sound fuel : ∀ todo seen,
  (∀ y, y ∈ seen → tc R x y) → (∀ y, y ∈ todo → tc R x y) →
  ∀ y, y ∈ closure_go next fuel todo seen → tc R x y.
Proof.
  induction fuel as [|fuel IH]; intros todo seen Hseen Htodo; [done|].
  cbn [closure_go]. destruct todo as [|z todo]; [done|].
  assert (tc R x z) as Hz by (apply Htodo; left).
  destruct (decide (z ∈ seen)); apply IH; try done.
  - intros y Hy. apply Htodo. by right.
  - intros y [?| ->%list_elem_of_singleton]%elem_of_app; auto.
  - intros y [Hy|?]%elem_of_app; [by apply tc_r with z|].
    apply Htodo. by right.
Qed.

Lemma closure_go_closed fuel : ∀ todo seen,
  length todo + length (filter (λ t, key t ∉ seen) E) < fuel →
  (∀ a b, a ∈ seen → R a b → b ∈ seen ∨ b ∈ todo) →
  (∀ b, R x b → b ∈ seen ∨ b ∈ todo) →
  let r := closure_go next fuel todo seen in
  (∀ a b, a ∈ r → R a b → b ∈ r) ∧ (∀ b, R x b → b ∈ r).
Proof.
  induction fuel as [|fuel IH]; intros todo seen Hfuel Hseen Hx; [lia|].
  cbn [closure_go]. destruct todo as [|z todo].
  { cbn. split.
    - intros a b Ha Hab. by destruct (Hseen a b Ha Hab) as [?|[]%elem_of_nil].
    - intros b Hb. by destruct (Hx b Hb) as [?|[]%elem_of_nil]. }
  destruct (decide (z ∈ seen)) as [Hz|Hz]; apply IH.
  - cbn [length] in Hfuel. lia.
  - intros a b Ha Hab.
    destruct (Hseen a b Ha Hab) as [?|[->|?]%elem_of_cons]; auto.
  - intros b Hb. destruct (Hx b Hb) as [?|[->|?]%elem_of_cons]; auto.
  - pose proof (unseen_split E seen z Hz) as Hsplit.
    rewrite length_app, Hnext. cbn [length] in Hfuel. lia.
  - intros a b [Ha| ->%list_elem_of_singleton]%elem_of_app Hab.
    + rewrite !elem_of_app, list_elem_of_singleton.
      destruct (Hseen a b Ha Hab) as [?|[->|?]%elem_of_cons]; auto.
    + right. apply elem_of_app. by left.
  - intros b Hb. rewrite !elem_of_app, list_elem_of_singleton.
    destruct (Hx b Hb) as [?|[->|?]%elem_of_cons]; auto.
Qed.

Lemma closure_go_spec fuel y :
  2 * length E < fuel →
  y ∈ closure_go next fuel (next x) [] ↔ tc R x y.
Proof.
  intros Hfuel. split.
  - apply closure_go_sound; [by intros ? ?%elem_of_nil|].
    intros b Hb. by apply tc_once.
  - destruct (closure_go_closed fuel (next x) []) as [Hclosed Hfirst].
    + rewrite Hnext.
      pose proof (length_filter (λ t, key t = x) E).
      pose proof (length_filter (λ t, key t ∉ []) E). lia.
    + by intros ? ? ?%elem_of_nil.
    + intros b Hb. by right.
    + intros Hreach.
      assert (∀ a, tc R a y →
                a = x ∨ a ∈ closure_go next fuel (next x) [] →
                y ∈ closure_go next fuel (next x) []) as Hind; [|by eauto].
      clear Hreach. intros a Hreach.
      induction Hreach as [a y Hay|a z y Haz _ IH].
      * intros [->|Ha]; [by apply Hfirst|by apply (Hclosed a)].
      * intros Ha. apply IH. right.
        destruct Ha as [->|Ha]; [by apply Hfirst|by apply (Hclosed a)].
Qed.

End Closure.

Lemma filter_disjoint_length {A} (P Q : A → Prop)
    `{!∀ x, Decision (P x), !∀ x, Decision (Q x)} (l : list A) :
  (∀ x, P x → Q x → False) →
  length (filter (λ x, P x ∨ Q x) l) = length (filter P l) + length (filter Q l).
Proof.
  intros Hdis. induction l as [|a l IH]; [done|]. rewrite !filter_cons.
  destruct (decide (P a)) as [Hp|Hp], (decide (Q a)) as [Hq|Hq].
  - by destruct (Hdis a).
  - rewrite decide_True by tauto. cbn. lia.
  - rewrite decide_True by tauto. cbn. lia.
  - rewrite decide_False by tauto. lia.
Qed.

(** The steps from a node are as many as the derivative triples that have
    the node as their subject (forward) or object (backward). *)
Lemma steps_length (ps : list term) (G : Graph) (key : triple → term)
    (step : term → term → list term) z :
  NoDup ps →
  (∀ p, length (step p z)
        = length (filter (λ t, key t = z ∧ pred t = p) G)) →
  length (flat_map (λ p, step p z) ps)
    = length (filter (λ t, key t = z) (filter (λ t, pred t ∈ ps) G)).
Proof.
  intros Hnd Hstep. rewrite list_filter_filter.
  induction ps as [|p ps IH].
  { cbn. clear. induction G as [|t G IHG]; [done|].
    rewrite filter_cons_False; [done|]. rewrite elem_of_nil. tauto. }
  apply NoDup_cons in Hnd as [Hp Hnd]. cbn [flat_map].
  rewrite length_app, IH, Hstep by done.
  rewrite <-filter_disjoint_length.
  - f_equal. apply list_filter_iff. intros t. rewrite elem_of_cons. tauto.
  - intros t [_ ->] [_ ?]. done.
Qed.

Lemma derivrels_NoDup : NoDup derivrels.
Proof. by_computation. Qed.

Lemma deriv_targets_length (G : Graph) z :
  length (deriv_targets G z)
    = length (filter (λ t, subj t = z) (filter (λ t, pred t ∈ derivrels) G)).
Proof.
  apply (steps_length derivrels G subj (λ p z, Rdf.objects G z p));
    [apply derivrels_NoDup|]. intros p.
  unfold Rdf.objects, Rdf.triples. rewrite length_fmap. f_equal.
  apply list_filter_iff. intros t.
  rewrite Is_true_true, matches_spec, !pat_ok_Some. cbn. tauto.
Qed.

Lemma deriv_sources_length (G : Graph) z :
  length (deriv_sources G z)
    = length (filter (λ t, obj t = z) (filter (λ t, pred t ∈ derivrels) G)).
Proof.
  apply (steps_length derivrels G obj (λ p z, Rdf.subjects G p z));
    [apply derivrels_NoDup|]. intros p.
  unfold Rdf.subjects, Rdf.triples. rewrite length_fmap. f_equal.
  apply list_filter_iff. intros t.
  rewrite Is_true_true, matches_spec, !pat_ok_Some. cbn. tauto.
Qed.

Lemma tc_flip_iff {A} (R : relation A) x y : tc (flip R) x y ↔ tc R y x.
Proof.
  split; induction 1 as [a b H|a b c H _ IH];
    first [by apply tc_once | by apply tc_r with b].
Qed.

Lemma tc_iff {A} (R R' : relation A) x y :
  (∀ a b, R a b ↔ R' a b) → tc R x y ↔ tc R' x y.
Proof.
  intros HR. split; induction 1 as [a b H|a b c H _ IH];
    first [by apply tc_once, HR | by eapply tc_l; [apply HR, H|]].
Qed.

(** The model of the closure finds exactly the expressions that a chain
    of one or more derivative relations leads to, and, backwards, the
    expressions from which such a chain leads to the given one. *)
Lemma closure_objects_spec (G : Graph) x y :
  y ∈ closure_objects G x ↔ tc (derives G) x y.
Proof.
  unfold closure_objects.
  rewrite (closure_go_spec (deriv_targets G)
             (filter (λ t, pred t ∈ derivrels) G) subj (deriv_targets_length G)).
  - apply tc_iff. intros a b. apply elem_of_deriv_targets.
  - pose proof (length_filter (λ t, pred t ∈ derivrels) G). lia.
Qed.

Lemma closure_subjects_spec (G : Graph) x d :
  d ∈ closure_subjects G x ↔ tc (derives G) d x.
Proof.
  unfold closure_subjects.
  rewrite (closure_go_spec (deriv_sources G)
             (filter (λ t, pred t ∈ derivrels) G) obj (deriv_sources_length G)).
  - rewrite <-tc_flip_iff. apply tc_iff. intros a b. apply elem_of_deriv_sources.
  - pose proof (length_filter (λ t, pred t ∈ derivrels) G). lia.
Qed.

(** ** More on Python's string operations *)

Section MoreStrLemmas.

Lemma string_app_assoc (a b c : string) : (a +:+ b) +:+ c = a +:+ (b +:+ c).
Proof.
  induction a as [|x a IH]; [done|].
  change (String x ((a +:+ b) +:+ c) = String x (a +:+ (b +:+ c))). by rewrite IH.
Qed.

Lemma string_app_cons c (a b : string) : String c a +:+ b = String c (a +:+ b).
Proof. done. Qed.

Lemma string_app_nil_l (a : string) : EmptyString +:+ a = a.
Proof. done. Qed.

Lemma rev_app_spec s acc : String.rev_app s acc = String.rev s +:+ acc.
Proof.
  unfold String.rev. revert acc. induction s as [|c s IH]; intros acc; [done|].
  cbn [String.rev_app]. rewrite IH, (IH (String c EmptyString)).
  by rewrite string_app_assoc.
Qed.

Lemma rev_cons c s : String.rev (String c s) = String.rev s +:+ String c EmptyString.
Proof. unfold String.rev at 1. cbn [String.rev_app]. apply rev_app_spec. Qed.

Lemma string_app_nil_r (s : string) : s +:+ EmptyString = s.
Proof.
  induction s as [|c s IH]; [done|].
  change (String c (s +:+ EmptyString) = String c s). by rewrite IH.
Qed.

Lemma rev_app_distr a b : String.rev (a +:+ b) = String.rev b +:+ String.rev a.
Proof.
  induction a as [|c a IH]; [by rewrite string_app_nil_r|].
  change (String c a +:+ b) with (String c (a +:+ b)).
  by rewrite !rev_cons, IH, <-string_app_assoc.
Qed.

Lemma rev_involutive s : String.rev (String.rev s) = s.
Proof.
  induction s as [|c s IH]; [done|]. by rewrite rev_cons, rev_app_distr, IH.
Qed.

Lemma prefix_app p s : String.prefix p (p +:+ s) = true.
Proof.
  induction p as [|c p IH]; [by destruct s|]. rewrite string_app_cons.
  cbn [String.prefix]. destruct (ascii_dec c c); [done|congruence].
Qed.

Lemma prefix_inv p s : String.prefix p s = true → ∃ r, s = p +:+ r.
Proof.
  revert s. induction p as [|c p IH]; intros s H; [by exists s|].
  destruct s as [|d s]; [done|]. cbn in H.
  destruct (ascii_dec c d) as [->|]; [|done].
  destruct (IH _ H) as [r ->]. by exists r.
Qed.

Lemma drop_app a b : Str.drop (String.length a) (a +:+ b) = b.
Proof.
  induction a as [|c a IH]; [by destruct b|].
  rewrite string_app_cons. apply IH.
Qed.

(** Membership of one character, through [Str.contains]. *)
Lemma contains_char_cons c d s :
  Str.contains (String c EmptyString) (String d s)
    = bool_decide (c = d) || Str.contains (String c EmptyString) s.
Proof.
  cbn [Str.contains String.prefix].
  destruct (ascii_dec c d) as [->|Hne].
  - rewrite bool_decide_eq_true_2 by done. by destruct s.
  - by rewrite bool_decide_eq_false_2 by done.
Qed.

Lemma contains_char_app c a b :
  Str.contains (String c EmptyString) (a +:+ b)
    = Str.contains (String c EmptyString) a || Str.contains (String c EmptyString) b.
Proof.
  induction a as [|d a IH]; [done|].
  change (String d a +:+ b) with (String d (a +:+ b)).
  by rewrite !contains_char_cons, IH, orb_assoc.
Qed.

Lemma contains_char_rev c s :
  Str.contains (String c EmptyString) (String.rev s)
    = Str.contains (String c EmptyString) s.
Proof.
  induction s as [|d s IH]; [done|].
  rewrite rev_cons, contains_char_app, IH, !contains_char_cons.
  cbn [Str.contains String.prefix]. rewrite !orb_false_r. apply orb_comm.
Qed.

Lemma split1_go_char c cur a b :
  Str.contains (String c EmptyString) a = false →
  Str.split1_go (String c EmptyString) cur (a +:+ String c b)
    = [String.rev cur +:+ a; b].
Proof.
  revert cur. induction a as [|d a IH]; intros cur H.
  - rewrite string_app_nil_l, string_app_nil_r.
    cbn [Str.split1_go String.prefix String.length Str.drop].
    destruct (ascii_dec c c); [by destruct b|done].
  - rewrite contains_char_cons in H. apply orb_false_iff in H as [Hd Ha].
    apply bool_decide_eq_false in Hd.
    change (String d a +:+ String c b) with (String d (a +:+ String c b)).
    cbn [Str.split1_go String.prefix].
    destruct (ascii_dec c d) as [|_]; [done|].
    rewrite IH by done. by rewrite rev_cons, string_app_assoc.
Qed.

Lemma split1_char c a b :
  Str.contains (String c EmptyString) a = false →
  Str.split1 (String c EmptyString) (a +:+ String c b) = [a; b].
Proof. intros H. unfold Str.split1. by rewrite split1_go_char. Qed.

Lemma split1_go_absent sep cur s :
  Str.contains sep s = false → Str.split1_go sep cur s = [String.rev cur +:+ s].
Proof.
  revert cur. induction s as [|c s IH]; intros cur H.
  - by rewrite string_app_nil_r.
  - cbn [Str.contains] in H. apply orb_false_iff in H as [Hp Hc].
    cbn [Str.split1_go]. rewrite Hp, IH by done.
    by rewrite rev_cons, string_app_assoc.
Qed.

Lemma split1_absent sep s :
  Str.contains sep s = false → Str.split1 sep s = [s].
Proof. intros H. unfold Str.split1. by rewrite split1_go_absent. Qed.

(** [s.rsplit(c, 1)] cuts at the last occurrence of the character. *)
Lemma rsplit1_char c a b :
  Str.contains (String c EmptyString) b = false →
  Str.rsplit1 (String c EmptyString) (a +:+ String c b) = [a; b].
Proof.
  intros H. unfold Str.rsplit1.
  change (String.rev (String c EmptyString)) with (String c EmptyString).
  change (String c b) with (String c EmptyString +:+ b).
  rewrite !rev_app_distr. change (String.rev (String c EmptyString)) with (String c EmptyString).
  rewrite string_app_assoc. change (String c EmptyString +:+ String.rev a) with (String c (String.rev a)).
  rewrite split1_char by (by rewrite contains_char_rev).
  by rewrite !rev_involutive.
Qed.

Lemma rsplit1_absent c s :
  Str.contains (String c EmptyString) s = false →
  Str.rsplit1 (String c EmptyString) s = [s].
Proof.
  intros H. unfold Str.rsplit1.
  change (String.rev (String c EmptyString)) with (String c EmptyString).
  by rewrite split1_absent by (by rewrite contains_char_rev).
Qed.

(** Every string either lacks the character or splits at its last
    occurrence. *)
Lemma last_occurrence c s :
  Str.contains (String c EmptyString) s = false ∨
  ∃ a b, s = a +:+ String c b ∧ Str.contains (String c EmptyString) b = false.
Proof.
  induction s as [|d s IH]; [by left|].
  destruct IH as [H|(a & b & -> & Hb)].
  - destruct (decide (c = d)) as [->|Hne].
    + right. by exists EmptyString, s.
    + left. rewrite contains_char_cons, H. by rewrite bool_decide_eq_false_2.
  - right. by exists (String d a), b.
Qed.

(** [s.split(c)] for a one-character separator splits each side of an
    occurrence on its own. *)
Lemma split_go_char c cur a b :
  Str.split_go (String c EmptyString) 0 cur (a +:+ String c b)
    = Str.split_go (String c EmptyString) 0 cur a
      ++ Str.split_go (String c EmptyString) 0 EmptyString b.
Proof.
  revert cur. induction a as [|d a IH]; intros cur.
  - rewrite string_app_nil_l.
    cbn [Str.split_go String.prefix String.length Nat.sub].
    destruct (ascii_dec c c); [by destruct b|done].
  - rewrite string_app_cons.
    cbn [Str.split_go String.prefix String.length Nat.sub].
    destruct (ascii_dec c d) as [->|_].
    + replace (String.prefix EmptyString (a +:+ String d b)) with true
        by (by destruct (a +:+ String d b)).
      replace (String.prefix EmptyString a) with true by (by destruct a).
      by rewrite IH.
    + apply IH.
Qed.

Lemma split_char c a b :
  Str.split (String c EmptyString) (a +:+ String c b)
    = Str.split (String c EmptyString) a ++ Str.split (String c EmptyString) b.
Proof. apply split_go_char. Qed.

Lemma digits_go_app acc a b :
  Str.digits_go acc (a +:+ b) = Str.digits_go (Str.digits_go acc a) b.
Proof.
  revert acc. induction a as [|c a IH]; intros acc; [done|].
  rewrite string_app_cons. apply IH.
Qed.

Lemma forallb_app P a b :
  Str.forallb P (a +:+ b) = Str.forallb P a && Str.forallb P b.
Proof.
  induction a as [|c a IH]; [done|]. rewrite string_app_cons.
  cbn [Str.forallb]. by rewrite IH, andb_assoc.
Qed.

Lemma pretty_N_char_digit x :
  (x < 10)%N →
  Str.isdigit (pretty_N_char x) = true ∧
  Str.digit_value (pretty_N_char x) = N.to_nat x.
Proof.
  intros H.
  assert (x = 0 ∨ x = 1 ∨ x = 2 ∨ x = 3 ∨ x = 4 ∨ x = 5 ∨ x = 6
          ∨ x = 7 ∨ x = 8 ∨ x = 9)%N as Hx by lia.
  repeat destruct Hx as [->|Hx]; try subst x; by vm_compute.
Qed.

(** The decimal digits that [str(n)] writes, read back. *)
Lemma pretty_N_go_digits x : ∀ s,
  ∃ d, pretty_N_go x s = d +:+ s ∧ Str.forallb Str.isdigit d = true ∧
       Str.int_of_digits d = N.to_nat x ∧ ((0 < x)%N → d ≠ EmptyString).
Proof.
  induction (N.lt_wf_0 x) as [x _ IH]; intros s.
  destruct (decide (x = 0%N)) as [->|Hx].
  { exists EmptyString. rewrite pretty_N_go_0. split_and!; [done..|lia]. }
  rewrite pretty_N_go_step by lia.
  destruct (IH (x `div` 10)%N) with (s := String (pretty_N_char (x `mod` 10)) s)
    as (d & -> & Hd & Hv & _).
  { apply N.div_lt; lia. }
  destruct (pretty_N_char_digit (x `mod` 10)%N) as [Hc Hcv].
  { apply N.mod_lt. lia. }
  exists (d +:+ String (pretty_N_char (x `mod` 10)) EmptyString).
  rewrite string_app_assoc. split; [done|]. split; [|split].
  - rewrite forallb_app, Hd. cbn. by rewrite Hc.
  - unfold Str.int_of_digits in *. rewrite digits_go_app, Hv. cbn [Str.digits_go].
    rewrite Hcv. pose proof (N.div_mod x 10). lia.
  - intros _. by destruct d.
Qed.

Lemma pretty_N_digits (x : N) :
  Str.forallb Str.isdigit (pretty x) = true ∧
  Str.int_of_digits (pretty x) = N.to_nat x ∧ pretty x ≠ EmptyString.
Proof.
  unfold pretty, pretty_N. case_decide as Hx; [by subst|].
  destruct (pretty_N_go_digits x EmptyString) as (d & -> & Hd & Hv & Hne).
  rewrite string_app_nil_r. repeat split; [done..|apply Hne; lia].
Qed.

Lemma pretty_nat_digits (n : nat) :
  Str.forallb Str.isdigit (pretty n) = true ∧
  Str.int_of_digits (pretty n) = n ∧ pretty n ≠ EmptyString.
Proof.
  destruct (pretty_N_digits (N.of_nat n)) as (? & ? & ?).
  unfold pretty, pretty_nat. repeat split; [done| |done].
  by rewrite <-(Nat2N.id n) at 2.
Qed.

Lemma pretty_Z_of_nat (n : nat) : pretty (Z.of_nat n) = pretty n.
Proof. by destruct n. Qed.

(** [int(str(n)) == n] for a number that is not negative. *)
Lemma int_pretty (n : nat) : Str.int (pretty n) = Ok (Z.of_nat n).
Proof.
  destruct (pretty_nat_digits n) as (Hd & Hv & Hne).
  unfold Str.int. destruct (pretty n) as [|c d] eqn:E; [done|].
  assert (Str.isdigit c = true) as Hc by (cbn in Hd; by apply andb_true_iff in Hd as []).
  assert (c ≠ "-"%char ∧ c ≠ "+"%char) as [H1 H2] by (split; intros ->; done).
  assert (∀ (A : Type) (x y z : A),
            match c with "-"%char => x | "+"%char => y | _ => z end = z) as Hmatch.
  { intros A x y z. destruct c as [[] [] [] [] [] [] [] []]; try done. }
  rewrite Hmatch. rewrite Hd, Hv. f_equal. lia.
Qed.

Lemma forallb_absent P c s :
  Str.forallb P s = true → P c = false →
  Str.contains (String c EmptyString) s = false.
Proof.
  intros Hs Hc. induction s as [|d s IH]; [done|].
  cbn in Hs. apply andb_true_iff in Hs as [Hd Hs].
  rewrite contains_char_cons, IH by done.
  rewrite bool_decide_eq_false_2; [done|]. intros ->. congruence.
Qed.

Lemma takewhile_all P s r :
  Str.forallb P s = true →
  (match r with String c _ => P c = false | EmptyString => True end) →
  Str.takewhile P (s +:+ r) = s.
Proof.
  intros Hs Hr. induction s as [|d s IH].
  - rewrite string_app_nil_l. destruct r; [done|].
    cbn [Str.takewhile]. by rewrite Hr.
  - cbn in Hs. apply andb_true_iff in Hs as [Hd Hs].
    rewrite string_app_cons. cbn [Str.takewhile]. by rewrite Hd, IH.
Qed.

End MoreStrLemmas.

Section TwoCharSeparator.
Context (x y : ascii) (Hxy : x ≠ y).

Local Abbreviation sep := (String x (String y EmptyString)).

Lemma prefix_two s :
  String.prefix sep s = true ↔ ∃ r, s = String x (String y r).
Proof.
  split.
  - intros [r ->]%prefix_inv. by exists r.
  - intros [r ->]. apply (prefix_app sep r).
Qed.

(** No occurrence of the separator begins inside [a], whatever follows. *)
Lemma prefix_two_before d a rest :
  Str.contains sep (String d a) = false →
  String.prefix sep (String d a +:+ String x (String y rest)) = false.
Proof.
  intros H. apply not_true_is_false. intros [r Hr]%prefix_two.
  rewrite string_app_cons in Hr. injection Hr as -> Hr.
  cbn [Str.contains] in H. apply orb_false_iff in H as [H _].
  destruct a as [|e a].
  - rewrite string_app_nil_l in Hr. injection Hr as ? _. by apply Hxy.
  - rewrite string_app_cons in Hr. injection Hr as -> _.
    cbn in H. by destruct (ascii_dec x x), (ascii_dec y y), a.
Qed.

Lemma contains_tail sp d a :
  Str.contains sp (String d a) = false → Str.contains sp a = false.
Proof. cbn [Str.contains]. by intros [_ ?]%orb_false_iff. Qed.

Lemma split1_go_two cur a rest :
  Str.contains sep a = false →
  Str.split1_go sep cur (a +:+ String x (String y rest))
    = [String.rev cur +:+ a; rest].
Proof.
  revert cur. induction a as [|d a IH]; intros cur H.
  - rewrite string_app_nil_l, string_app_nil_r.
    cbn [Str.split1_go].
    replace (String.prefix sep (String x (String y rest))) with true
      by (symmetry; apply prefix_two; eauto).
    done.
  - rewrite string_app_cons. cbn [Str.split1_go].
    rewrite <-(string_app_cons d a), prefix_two_before by done.
    rewrite IH by (by eapply contains_tail).
    by rewrite rev_cons, string_app_assoc.
Qed.

Lemma split1_two a rest :
  Str.contains sep a = false →
  Str.split1 sep (a +:+ String x (String y rest)) = [a; rest].
Proof. intros H. unfold Str.split1. by rewrite split1_go_two. Qed.

Lemma split_go_two cur a rest :
  Str.contains sep a = false →
  Str.split_go sep 0 cur (a +:+ String x (String y rest))
    = (String.rev cur +:+ a) :: Str.split_go sep 0 EmptyString rest.
Proof.
  revert cur. induction a as [|d a IH]; intros cur H.
  - rewrite string_app_nil_l, string_app_nil_r.
    cbn [Str.split_go].
    replace (String.prefix sep (String x (String y rest))) with true
      by (symmetry; apply prefix_two; eauto).
    done.
  - rewrite string_app_cons. cbn [Str.split_go].
    rewrite <-(string_app_cons d a), prefix_two_before by done.
    rewrite IH by (by eapply contains_tail).
    by rewrite rev_cons, string_app_assoc.
Qed.

Lemma split_two a rest :
  Str.contains sep a = false →
  Str.split sep (a +:+ String x (String y rest)) = a :: Str.split sep rest.
Proof. intros H. unfold Str.split. by rewrite split_go_two. Qed.

(** The separator does not turn up when a text without its first
    character, and that does not begin with its second, is appended. *)
Lemma contains_two_app u v :
  Str.contains sep u = false →
  Str.contains (String x EmptyString) v = false →
  (∀ v', v ≠ String y v') →
  Str.contains sep (u +:+ v) = false.
Proof.
  intros Hu Hv Hy. induction u as [|d u IH].
  - rewrite string_app_nil_l. clear Hy. induction v as [|e v IHv]; [done|].
    rewrite contains_char_cons in Hv. apply orb_false_iff in Hv as [He Hv].
    apply bool_decide_eq_false in He. cbn [Str.contains String.prefix].
    destruct (ascii_dec x e); [done|]. by rewrite IHv.
  - rewrite string_app_cons. cbn [Str.contains]. apply orb_false_iff. split.
    + apply not_true_is_false. intros [r Hr]%prefix_two. injection Hr as -> Hr.
      cbn [Str.contains] in Hu. apply orb_false_iff in Hu as [Hu _].
      destruct u as [|e u].
      * rewrite string_app_nil_l in Hr. by apply Hy in Hr.
      * rewrite string_app_cons in Hr. injection Hr as -> _.
        cbn in Hu. by destruct (ascii_dec x x), (ascii_dec y y), u.
    + apply IH. by eapply contains_tail.
Qed.

End TwoCharSeparator.

Lemma contains_app_r sp u w :
  String.prefix sp w = true → Str.contains sp (u +:+ w) = true.
Proof.
  intros H. induction u as [|d u IH].
  - rewrite string_app_nil_l. destruct w; cbn [Str.contains]; by rewrite H.
  - rewrite string_app_cons. cbn [Str.contains]. rewrite IH. apply orb_true_r.
Qed.

Lemma collect_app {A B} (f : A → result (list B)) l1 l2 :
  collect f (l1 ++ l2)
    = (r1 ←r collect f l1; r2 ←r collect f l2; Ok (r1 ++ r2)).
Proof.
  induction l1 as [|a l1 IH]; cbn [collect app rbind].
  - by destruct (collect f l2).
  - destruct (f a) as [r|e]; cbn [rbind]; [|done]. rewrite IH.
    destruct (collect f l1) as [r1|e]; cbn [rbind]; [|done].
    destruct (collect f l2) as [r2|e]; cbn [rbind]; [|done].
    by rewrite app_assoc.
Qed.

Lemma zrange_seq (a b : nat) :
  Str.zrange (Z.of_nat a) (Z.of_nat b + 1) = Z.of_nat <$> seq a (S b - a).
Proof.
  unfold Str.zrange.
  replace (Z.to_nat (Z.of_nat b + 1 - Z.of_nat a)) with (S b - a) by lia.
  generalize (S b - a). intros n.
  replace (seq a n) with (seq (a + 0) n) by (f_equal; lia).
  rewrite <-(fmap_add_seq a 0 n), <-list_fmap_compose.
  apply list_fmap_ext. intros _ i _. cbn. lia.
Qed.

Lemma range_mark_bytes : RANGE_MARK = String "195" (String "183" EmptyString).
Proof. reflexivity. Qed.

Lemma pretty_nat_absent (c : ascii) (n : nat) :
  Str.isdigit c = false → Str.contains (String c EmptyString) (pretty n) = false.
Proof.
  intros Hc. destruct (pretty_nat_digits n) as (Hd & _ & _).
  by eapply forallb_absent.
Qed.

(** A text that ends in a dot and a number has no range mark when the part
    before the dot has none. *)
Lemma bound_without_mark m (a : nat) :
  Str.contains RANGE_MARK m = false →
  Str.contains RANGE_MARK (m +:+ "." +:+ pretty a) = false.
Proof.
  intros Hm. rewrite range_mark_bytes in *.
  apply contains_two_app; [done| |done].
  change ("." +:+ pretty a) with (String "." (pretty a)).
  rewrite contains_char_cons, pretty_nat_absent by done. done.
Qed.

Lemma contains_mark_app lo hi :
  Str.contains RANGE_MARK (lo +:+ RANGE_MARK +:+ hi) = true.
Proof. apply contains_app_r, prefix_app. Qed.

Lemma split1_mark lo hi :
  Str.contains RANGE_MARK lo = false →
  Str.split1 RANGE_MARK (lo +:+ RANGE_MARK +:+ hi) = [lo; hi].
Proof. rewrite range_mark_bytes. by apply split1_two. Qed.

(** X1. [expand_range] on a range written as two dotted bounds lists the
    identifiers from the first sub-number to the last one, both included,
    under the main identifier of the first bound; what the second bound
    has in front of its last dot is not looked at, and a last sub-number
    below the first gives the empty list. *)
Theorem expand_range_enumerates (m q : string) (a b : nat) :
  Str.contains RANGE_MARK m = false →
  let lo := m +:+ "." +:+ pretty a in
  let hi := q +:+ "." +:+ pretty b in
  expand_range (lo +:+ RANGE_MARK +:+ hi)
    = Ok ((λ i : nat, m +:+ "." +:+ pretty i) <$> seq a (S b - a)).
Proof.
  intros Hm lo hi. pose proof (bound_without_mark m a Hm) as Hlo.
  unfold expand_range. rewrite contains_mark_app. cbn [negb].
  rewrite split1_mark by done. cbn [lookup list_lookup default from_option id].
  unfold lo, hi.
  change ("." +:+ pretty a) with (String "." (pretty a)).
  change ("." +:+ pretty b) with (String "." (pretty b)).
  rewrite !(rsplit1_char ".") by (by apply pretty_nat_absent).
  cbn [lookup list_lookup]. rewrite !int_pretty. cbn [rbind].
  rewrite zrange_seq, <-list_fmap_compose. f_equal.
  apply list_fmap_ext. intros _ i _. cbn. by rewrite pretty_Z_of_nat.
Qed.

Lemma expand_range_enumerates_witness :
  expand_range (("355.9" +:+ "." +:+ pretty 1) +:+ RANGE_MARK +:+ ("9" +:+ "." +:+ pretty 4))
    = Ok ((λ i : nat, "355.9" +:+ "." +:+ pretty i) <$> seq 1 (5 - 1)).
Proof. apply (expand_range_enumerates "355.9" "9" 1 4). vm_compute. reflexivity. Defined.

(** X2. A range whose first bound has no dot makes [expand_range] raise
    [ValueError] (the unpacking of the split bound fails), and a range
    whose first bound is dotted but whose second bound has no dot makes it
    raise [IndexError], before any number is read. *)
Theorem expand_range_undotted_bound :
  (∀ lo hi,
     Str.contains RANGE_MARK lo = false → Str.contains "." lo = false →
     expand_range (lo +:+ RANGE_MARK +:+ hi) = Raise ValueError) ∧
  (∀ m firstpart hi,
     Str.contains RANGE_MARK (m +:+ "." +:+ firstpart) = false →
     Str.contains "." firstpart = false → Str.contains "." hi = false →
     expand_range ((m +:+ "." +:+ firstpart) +:+ RANGE_MARK +:+ hi) = Raise IndexError).
Proof.
  split.
  - intros lo hi Hlo Hdot. unfold expand_range.
    rewrite contains_mark_app. cbn [negb]. rewrite split1_mark by done.
    cbn [lookup list_lookup default from_option id].
    by rewrite rsplit1_absent.
  - intros m firstpart hi Hlo Hf Hhi. unfold expand_range.
    rewrite contains_mark_app. cbn [negb]. rewrite split1_mark by done.
    cbn [lookup list_lookup default from_option id].
    change ("." +:+ firstpart) with (String "." firstpart).
    rewrite (rsplit1_char ".") by done. by rewrite rsplit1_absent.
Qed.

Lemma expand_range_undotted_bound_witness :
  expand_range ("1" +:+ RANGE_MARK +:+ "4") = Raise ValueError ∧
  expand_range (("4" +:+ "." +:+ "1") +:+ RANGE_MARK +:+ "14") = Raise IndexError.
Proof.
  split.
  - apply (proj1 expand_range_undotted_bound "1" "4"); vm_compute; reflexivity.
  - apply (proj2 expand_range_undotted_bound "4" "1" "14"); vm_compute; reflexivity.
Defined.

(** ** Local names of IRIs *)

(** X3. [get_id_from_uri] returns a text without a slash; it returns what
    follows the last slash of the IRI, so for a name without a slash under
    a namespace that ends in a slash it gives the name back; the hash is
    the separator only for an IRI that has no slash at all. *)
Theorem get_id_from_uri_local_name :
  (∀ uri, Str.contains "/" (get_id_from_uri uri) = false) ∧
  (∀ ns id, Str.contains "/" id = false →
     get_id_from_uri (ns +:+ "/" +:+ id) = id) ∧
  (∀ ns id, Str.contains "/" ns = false → Str.contains "/" id = false →
     Str.contains "#" id = false →
     get_id_from_uri (ns +:+ "#" +:+ id) = id).
Proof.
  split_and!.
  - intros uri. unfold get_id_from_uri.
    destruct (last_occurrence "/" uri) as [H|(a & b & -> & Hb)].
    + rewrite (rsplit1_absent "/") by done. cbn [length].
      rewrite bool_decide_eq_true_2 by done.
      destruct (last_occurrence "#" uri) as [H'|(a & b & -> & Hb)].
      * rewrite (rsplit1_absent "#") by done. cbn [length].
        by rewrite bool_decide_eq_true_2.
      * rewrite (rsplit1_char "#") by done. cbn [length].
        rewrite bool_decide_eq_false_2 by done. cbn.
        rewrite contains_char_app in H. apply orb_false_iff in H as [_ H].
        rewrite contains_char_cons in H. by apply orb_false_iff in H as [_ H].
    + rewrite (rsplit1_char "/") by done. cbn [length].
      by rewrite bool_decide_eq_false_2.
  - intros ns id Hid. unfold get_id_from_uri.
    change ("/" +:+ id) with (String "/" id).
    rewrite (rsplit1_char "/") by done. cbn [length].
    by rewrite bool_decide_eq_false_2.
  - intros ns id Hns Hid Hhash. unfold get_id_from_uri.
    change ("#" +:+ id) with (String "#" id).
    rewrite (rsplit1_absent "/").
    2:{ rewrite contains_char_app, contains_char_cons, Hns, Hid. done. }
    cbn [length]. rewrite bool_decide_eq_true_2 by done.
    rewrite (rsplit1_char "#") by done. cbn [length].
    by rewrite bool_decide_eq_false_2.
Qed.

Lemma get_id_from_uri_local_name_witness :
  get_id_from_uri ("http://lkg.org.pl/ns/lkg-core" +:+ "/" +:+ "F2_NFPL12.3") = "F2_NFPL12.3" ∧
  get_id_from_uri ("urn:x" +:+ "#" +:+ "label") = "label".
Proof.
  split.
  - apply (proj1 (proj2 get_id_from_uri_local_name)). vm_compute. reflexivity.
  - apply (proj2 (proj2 get_id_from_uri_local_name)); vm_compute; reflexivity.
Defined.

(** X4. An identifier that [make_autoinc_id] hands out reads back: its
    text after the last underscore is the counter value in decimal, which
    is what the order labels are written from and what [import_lkg] parses
    to resume the counter; and, for a prefix without underscore, its class
    prefix is the prefix it was allocated for. *)
Theorem allocated_id_reads_back (prefix : string) (counts : gmap string Z) (n : nat) :
  default 0%Z (counts !! prefix) = Z.of_nat n →
  let uri := (make_autoinc_id prefix counts).1 in
  uri = prefix +:+ "_" +:+ pretty n ∧
  last (Str.split "_" uri) = Some (pretty n) ∧
  Str.int (Str.lstrip Str.isletter (default EmptyString (last (Str.rsplit1 "_" uri))))
    = Ok (Z.of_nat n) ∧
  (Str.contains "_" prefix = false → get_class_prefix uri = prefix) ∧
  (make_autoinc_id prefix counts).2 !! prefix = Some (Z.of_nat n + 1)%Z.
Proof.
  intros Hn uri.
  assert (uri = prefix +:+ "_" +:+ pretty n ∧
          (make_autoinc_id prefix counts).2 !! prefix = Some (Z.of_nat n + 1)%Z)
    as [Huri Hnext].
  { unfold uri, make_autoinc_id. destruct (counts !! prefix) as [z|] eqn:E.
    - cbn in Hn. subst z. rewrite E. cbn. rewrite lookup_insert_eq.
      by rewrite pretty_Z_of_nat.
    - cbn in Hn. rewrite lookup_insert_eq. cbn. rewrite lookup_insert_eq.
      assert (n = 0) as -> by lia. done. }
  assert (Str.contains "_" (pretty n) = false) as Hdigits
    by (by apply pretty_nat_absent).
  destruct (pretty_nat_digits n) as (Hd & _ & Hne).
  rewrite Huri. change ("_" +:+ pretty n) with (String "_" (pretty n)).
  split_and!; [done| | | |done].
  - rewrite (split_char "_"), (split_absent "_" (pretty n)) by done.
    by rewrite last_snoc.
  - rewrite (rsplit1_char "_") by done. cbn [last default from_option id].
    replace (Str.lstrip Str.isletter (pretty n)) with (pretty n); [apply int_pretty|].
    destruct (pretty n) as [|c s]; [done|]. cbn in Hd.
    apply andb_true_iff in Hd as [Hc _]. cbn [Str.lstrip].
    destruct (Str.isletter c) eqn:Hl; [|done].
    apply isletter_not_digit in Hl. congruence.
  - intros Hp. unfold get_class_prefix.
    rewrite (split_char "_"), (split_absent "_" prefix) by done. done.
Qed.

Lemma allocated_id_reads_back_witness :
  (make_autoinc_id "E42" {["E42" := 7%Z]}).1 = "E42" +:+ "_" +:+ pretty 7 ∧
  get_class_prefix (make_autoinc_id "E42" {["E42" := 7%Z]}).1 = "E42".
Proof.
  destruct (allocated_id_reads_back "E42" {["E42" := 7%Z]} 7) as (H1 & _ & _ & H4 & _).
  - vm_compute. reflexivity.
  - split; [exact H1|]. apply H4. vm_compute. reflexivity.
Defined.

(** ** More on the reference resolver *)

Lemma prefix_app_l sp u v :
  String.prefix sp u = true → String.prefix sp (u +:+ v) = true.
Proof.
  intros [r ->]%prefix_inv. rewrite string_app_assoc. apply prefix_app.
Qed.

Lemma contains_app_false sp u v :
  Str.contains sp (u +:+ v) = false →
  Str.contains sp u = false ∧ Str.contains sp v = false.
Proof.
  intros H. split.
  - apply not_true_is_false. intros Hu. rewrite <-not_true_iff_false in H.
    apply H. clear H. induction u as [|d u IH].
    + cbn [Str.contains] in Hu. rewrite orb_false_r in Hu.
      apply prefix_inv in Hu as [r Hr]. destruct sp; [|done].
      rewrite string_app_nil_l. by destruct v.
    + rewrite string_app_cons. cbn [Str.contains] in *.
      apply orb_true_iff in Hu as [Hu|Hu].
      * rewrite <-string_app_cons, (prefix_app_l _ _ _ Hu). done.
      * rewrite IH by done. apply orb_true_r.
  - induction u as [|d u IH]; [done|]. apply IH.
    rewrite string_app_cons in H. by eapply contains_tail.
Qed.

Lemma normalize_ref_join s pd pnf langs poth :
  normalize_ref s pd pnf langs poth
    = (refs ←r normalize_ref_list s pd pnf langs poth; Ok (Str.join " " refs)).
Proof. done. Qed.

Lemma collect_singleton {A B} (f : A → result (list B)) a :
  collect f [a] = f a.
Proof. cbn. destruct (f a); cbn; [|done]. by rewrite app_nil_r. Qed.

(** X5. The sub-references of a source reference are resolved one by one,
    in order, with nothing carried over from one to the next: the list
    that [normalize_ref] joins is, for two references separated by a comma
    and a space, or by a plus sign, the list of the first followed by the
    list of the second, and an exception in either one is the outcome. *)
Theorem normalize_ref_resolves_piecewise
    (pd pnf : string) (langs : list string) (poth : string) :
  let refs s := normalize_ref_list s pd pnf langs poth in
  (∀ s, normalize_ref s pd pnf langs poth
          = (l ←r refs s; Ok (Str.join " " l))) ∧
  (∀ a rest, Str.contains ", " a = false →
     refs (a +:+ ", " +:+ rest)
       = (r1 ←r refs a; r2 ←r refs rest; Ok (r1 ++ r2))) ∧
  (∀ a b, Str.contains ", " (a +:+ "+" +:+ b) = false →
     refs (a +:+ "+" +:+ b)
       = (r1 ←r refs a; r2 ←r refs b; Ok (r1 ++ r2))).
Proof.
  intros refs. split_and!; [done|..].
  - intros a rest Ha. unfold refs, normalize_ref_list.
    change (", " +:+ rest) with (String "," (String " " rest)).
    rewrite (split_two "," " ") by done. rewrite (split_absent ", " a) by done.
    rewrite collect_singleton. done.
  - intros a b Hab. unfold refs, normalize_ref_list.
    destruct (contains_app_false _ _ _ Hab) as [Ha Hb'].
    change ("+" +:+ b) with (String "+" b) in *.
    apply contains_tail in Hb' as Hb.
    rewrite !split_absent by done. rewrite !collect_singleton.
    by rewrite (split_char "+"), collect_app.
Qed.

Lemma normalize_ref_resolves_piecewise_witness :
  normalize_ref_list ("12" +:+ ", " +:+ "RU:7.3>, 15") "PL" "NF" ["PL"; "RU"] "OTH"
    = Ok (["NFPL12"] ++ ["NFRU7.3>"; "NFPL15"]).
Proof.
  rewrite (proj1 (proj2 (normalize_ref_resolves_piecewise "PL" "NF" ["PL"; "RU"] "OTH"))
             "12" "RU:7.3>, 15").
  - vm_compute. reflexivity.
  - vm_compute. reflexivity.
Defined.

(** X6. A sub-reference that is not blank and begins with a character that
    is neither a digit nor a letter (a space left after a comma, an arrow,
    a bracket) makes [normalize_ref] raise [AttributeError]: the match of
    the letter prefix is [None]. *)
Theorem normalize_ref_rejects_leading_mark
    (pd pnf : string) (langs : list string) (poth : string) (c : ascii) (rest : string) :
  Str.isdigit c = false → Str.isletter c = false →
  Str.strip Str.isspace (String c rest) ≠ EmptyString →
  normalize_sref pd pnf langs poth (String c rest) = Raise AttributeError ∧
  (Str.contains ", " (String c rest) = false →
   Str.contains "+" (String c rest) = false →
   normalize_ref (String c rest) pd pnf langs poth = Raise AttributeError).
Proof.
  intros Hd Hl Hs.
  assert (normalize_sref pd pnf langs poth (String c rest) = Raise AttributeError) as H.
  { unfold normalize_sref. rewrite bool_decide_eq_false_2 by done.
    unfold sref_prefix. rewrite Hd. unfold Str.re_match. cbn [Str.takewhile].
    by rewrite Hl. }
  split; [done|]. intros H1 H2.
  rewrite normalize_ref_single by done. by rewrite H.
Qed.

Lemma normalize_ref_rejects_leading_mark_witness :
  normalize_sref "PL" "NF" ["PL"; "RU"] "OTH" " 13" = Raise AttributeError ∧
  normalize_ref " 13" "PL" "NF" ["PL"; "RU"] "OTH" = Raise AttributeError.
Proof.
  destruct (normalize_ref_rejects_leading_mark "PL" "NF" ["PL"; "RU"] "OTH" " " "13")
    as [H1 H2]; [vm_compute; reflexivity..|vm_compute; discriminate|].
  split; [exact H1|]. apply H2; vm_compute; reflexivity.
Defined.

Lemma re_match_digits (n : nat) (tail : string) :
  (∀ c t, tail = String c t → Str.isdigit c = false) →
  Str.re_match Str.isdigit (pretty n +:+ tail) = Some (pretty n).
Proof.
  intros Ht. destruct (pretty_nat_digits n) as (Hd & _ & Hne).
  unfold Str.re_match. rewrite takewhile_all; [by destruct (pretty n)|done|].
  destruct tail; [done|]. by eapply Ht.
Qed.

(** X7. A sub-reference that begins with a digit and holds a range "m.a÷q.b"
    is resolved, on a known default sheet, to the identifiers m.a to m.b
    under the non-fiction and sheet prefixes, one per number and none when
    b is below a.  The text between the range mark and the last dot is not
    looked at, and whatever follows the last number (a relation suffix, a
    question mark) is dropped. *)
Theorem normalize_sref_expands_range
    (pd pnf : string) (langs : list string) (poth : string)
    (d : ascii) (m q tail : string) (a b : nat) :
  Str.isdigit d = true → pd ∈ langs →
  let idf := (pnf +:+ pd) +:+ String d m in
  let hi := q +:+ "." +:+ pretty b +:+ tail in
  Str.contains RANGE_MARK idf = false →
  Str.contains RANGE_MARK hi = false →
  Str.contains "." tail = false → Str.contains ";" tail = false →
  (∀ c t, tail = String c t → Str.isdigit c = false) →
  normalize_sref pd pnf langs poth
      (String d m +:+ "." +:+ pretty a +:+ RANGE_MARK +:+ hi)
    = Ok ((λ i : nat, idf +:+ "." +:+ pretty i) <$> seq a (S b - a)).
Proof.
  intros Hd Hpd idf hi Hidf Hhi Hdot Hsemi Htail.
  unfold normalize_sref.
  rewrite string_app_cons.
  rewrite bool_decide_eq_false_2
    by (apply strip_head_nonempty; by apply isdigit_not_space).
  unfold sref_prefix. rewrite Hd, bool_decide_eq_true_2 by done. cbn [rbind].
  rewrite <-string_app_cons.
  replace ((pnf +:+ pd) +:+ String d m +:+ "." +:+ pretty a +:+ RANGE_MARK +:+ hi)
    with ((idf +:+ "." +:+ pretty a) +:+ RANGE_MARK +:+ hi)
    by (unfold idf; by rewrite !string_app_assoc).
  pose proof (bound_without_mark idf a Hidf) as Hlo.
  destruct (pretty_nat_digits a) as (Hda & Hva & Hnea).
  destruct (pretty_nat_digits b) as (Hdb & Hvb & Hneb).
  unfold sref_expand.
  assert (Str.split RANGE_MARK ((idf +:+ "." +:+ pretty a) +:+ RANGE_MARK +:+ hi)
          = [idf +:+ "." +:+ pretty a; hi]) as ->.
  { transitivity ((idf +:+ "." +:+ pretty a) :: Str.split RANGE_MARK hi);
      [|by rewrite split_absent].
    rewrite range_mark_bytes in *. by apply (split_two "195" "183"). }
  cbn [length]. rewrite bool_decide_eq_true_2 by lia.
  cbn [head list.last default from_option id].
  change ("." +:+ pretty a) with (String "." (pretty a)).
  rewrite (rsplit1_char ".") by (by apply pretty_nat_absent).
  unfold hi. change ("." +:+ pretty b +:+ tail) with (String "." (pretty b +:+ tail)).
  rewrite !(rsplit1_char ".").
  2:{ rewrite contains_char_app, Hdot, pretty_nat_absent; done. }
  cbn [head list.last default from_option id].
  replace (Str.contains ";" (pretty b +:+ tail)) with false.
  2:{ rewrite contains_char_app, Hsemi, pretty_nat_absent; done. }
  rewrite <-(string_app_nil_r (pretty a)) at 1.
  rewrite !re_match_digits by done.
  rewrite Hva, Hvb. done.
Qed.

Lemma normalize_sref_expands_range_witness :
  normalize_sref "PL" "NF" ["PL"; "RU"] "OTH"
      (String "9" "" +:+ "." +:+ pretty 1 +:+ RANGE_MARK +:+ ("9" +:+ "." +:+ pretty 4 +:+ ">?"))
    = Ok ((λ i : nat, (("NF" +:+ "PL") +:+ String "9" "") +:+ "." +:+ pretty i) <$> seq 1 (5 - 1)).
Proof.
  apply (normalize_sref_expands_range "PL" "NF" ["PL"; "RU"] "OTH" "9" "" "9" ">?" 1 4);
    try (vm_compute; reflexivity).
  - by_computation.
  - intros c t [= <- <-]. vm_compute. reflexivity.
Defined.

(** ** Names of persons *)

Example make_namedict_doc :
  make_namedict ["John (EN,DE)"; "Hans (DE)"] [("EN", Some "EN"); ("DE", Some "DE")]
    = Ok [ (Some "NOLANG", []); (Some "EN", [["John"]]);
           (Some "DE", [["John"]; ["Hans"]]) ].
Proof. vm_compute. reflexivity. Qed.

Section Dict.
Context {K V : Type} `{EqDecision K}.
Implicit Types (d : pydict K V).

Lemma dict_lookup_elem d k v : dict_lookup d k = Some v → (k, v) ∈ d.
Proof.
  unfold dict_lookup. intros H.
  destruct (filter (λ kv, kv.1 = k) d) as [|[k' v'] l] eqn:E; [done|].
  cbn in H. injection H as ->.
  assert ((k', v) ∈ filter (λ kv : K * V, kv.1 = k) d) as Hin by (rewrite E; left).
  apply list_elem_of_filter in Hin as [Hk Hin]. cbn in Hk. by subst.
Qed.

Lemma dict_set_elem d k v kv : kv ∈ dict_set d k v → kv ∈ d ∨ kv = (k, v).
Proof.
  induction d as [|[k' v'] d IH]; cbn [dict_set].
  - rewrite list_elem_of_singleton. auto.
  - case_decide; rewrite !elem_of_cons; intros [?|?]; auto.
    destruct (IH ltac:(done)); auto.
Qed.

Lemma dict_lookup_set d k v : dict_lookup (dict_set d k v) k = Some v.
Proof.
  unfold dict_lookup. induction d as [|[k' v'] d IH]; cbn [dict_set].
  - by rewrite filter_cons_True.
  - case_decide.
    + by rewrite filter_cons_True.
    + by rewrite filter_cons_False.
Qed.

End Dict.

(** Every group of name forms in the dictionary holds one form. *)
Local Abbreviation ungrouped := (Forall (λ kv : option string * list (list string),
                                   Forall (λ forms, length forms = 1) kv.2)).

Lemma ungrouped_set (d : namedict) k v :
  ungrouped d → Forall (λ forms, length forms = 1) v → ungrouped (dict_set d k v).
Proof.
  intros Hd Hv. apply Forall_forall. intros kv [Hin| ->]%dict_set_elem; [|done].
  rewrite Forall_forall in Hd. by apply Hd.
Qed.

Lemma add_alias_ungrouped langmap alias langs : ∀ (d d' : namedict),
  ungrouped d → add_alias langmap alias langs d = Ok d' → ungrouped d'.
Proof.
  induction langs as [|l langs IH]; intros d d' Hd; cbn [add_alias].
  - by intros [= <-].
  - destruct (verify_lang l langmap) as [l'|]; cbn [rbind]; [|done].
    apply IH. destruct (dict_lookup d l') as [names|] eqn:E.
    + apply ungrouped_set; [done|]. apply Forall_app. split; [|by repeat constructor].
      apply dict_lookup_elem in E. rewrite Forall_forall in Hd. apply (Hd _ E).
    + apply ungrouped_set; [done|]. by repeat constructor.
Qed.

Lemma add_names_ungrouped langmap names : ∀ (d d' : namedict),
  ungrouped d → add_names langmap names d = Ok d' → ungrouped d'.
Proof.
  induction names as [|y names IH]; intros d d' Hd; cbn [add_names].
  - by intros [= <-].
  - destruct (add_alias langmap _ _ d) as [d1|] eqn:E; cbn [rbind]; [|done].
    apply add_alias_ungrouped in E; [|done].
    apply IH. destruct (if bool_decide _ then _ else _); [|done].
    apply ungrouped_set; [done|]. apply Forall_app. split; [|by repeat constructor].
    destruct (dict_lookup d1 (Some "NOLANG")) as [v|] eqn:E'; [|done].
    apply dict_lookup_elem in E'. rewrite Forall_forall in E. apply (E _ E').
Qed.

Lemma add_names_unlabelled langmap names : ∀ acc,
  Forall (λ y, Str.contains " (" y = false) names →
  add_names langmap names [(Some "NOLANG", acc)]
    = Ok [(Some "NOLANG", acc ++ ((λ y, [y]) <$> names))].
Proof.
  induction names as [|y names IH]; intros acc Hn; cbn [add_names].
  - by rewrite app_nil_r.
  - apply Forall_cons in Hn as [Hy Hn]. rewrite (split_absent _ _ Hy).
    cbn [length]. rewrite bool_decide_eq_false_2 by lia.
    cbn [add_alias rbind head default from_option id].
    cbn [dict_set]. rewrite decide_True by done.
    unfold dict_lookup. rewrite filter_cons_True by done.
    cbn [head fmap option_fmap option_map snd default from_option id].
    rewrite IH by done. by rewrite <-app_assoc.
Qed.

(** X8. [make_namedict] never groups forms of a name: every list of forms
    in its result holds exactly one name, whatever the labels.  When no
    name carries a language label in parentheses the language map is not
    consulted and all names are filed, in order, under the key NOLANG; and
    a label that the map does not know makes the call raise [KeyError]. *)
Theorem make_namedict_never_groups (langmap : pydict string (option string)) :
  (∀ names d, make_namedict names langmap = Ok d →
     Forall (λ kv, Forall (λ forms, length forms = 1) kv.2) d) ∧
  (∀ names, Forall (λ y, Str.contains " (" y = false) names →
     make_namedict names langmap = Ok [(Some "NOLANG", (λ y, [y]) <$> names)]) ∧
  (∀ alias label names,
     Str.contains " (" alias = false → Str.contains " (" label = false →
     Str.contains "," label = false → Str.contains ")" label = false →
     dict_lookup langmap label = None →
     make_namedict ((alias +:+ " (" +:+ label +:+ ")") :: names) langmap
       = Raise KeyError).
Proof.
  split_and!.
  - intros names d. apply add_names_ungrouped. by repeat constructor.
  - intros names Hn. unfold make_namedict. by rewrite add_names_unlabelled.
  - intros alias label names Ha Hl Hc Hp Hno. unfold make_namedict.
    cbn [add_names].
    change (" (" +:+ label +:+ ")") with (String " " (String "(" (label +:+ ")"))).
    rewrite (split_two " " "(") by done.
    rewrite (split_absent " (" (label +:+ ")")).
    2:{ apply contains_two_app; done. }
    cbn [length]. rewrite bool_decide_eq_true_2 by lia.
    cbn [lookup list_lookup head default from_option id].
    replace (Str.rstrip (λ c, bool_decide (c = ")"%char)) (label +:+ ")")) with label.
    2:{ clear -Hp. induction label as [|c label IH]; [done|].
        rewrite contains_char_cons in Hp. apply orb_false_iff in Hp as [Hc Hp].
        rewrite string_app_cons. cbn [Str.rstrip]. rewrite <-IH by done.
        destruct label; [|done]. cbn.
        apply bool_decide_eq_false in Hc. rewrite bool_decide_eq_false_2; [done|].
        congruence. }
    rewrite (split_absent "," label) by done.
    cbn [add_alias]. unfold verify_lang. by rewrite Hno.
Qed.

Lemma make_namedict_never_groups_witness :
  make_namedict ["Jan"; "Hans"] [("DE", Some "DE")]
    = Ok [(Some "NOLANG", (λ y, [y]) <$> ["Jan"; "Hans"])] ∧
  make_namedict (("John" +:+ " (" +:+ "EN" +:+ ")") :: ["Hans (DE)"]) [("DE", Some "DE")]
    = Raise KeyError.
Proof.
  split.
  - apply (proj1 (proj2 (make_namedict_never_groups [("DE", Some "DE")]))).
    repeat constructor.
  - apply (proj2 (proj2 (make_namedict_never_groups [("DE", Some "DE")])));
      vm_compute; reflexivity.
Defined.

Lemma string_length_app (a b : string) :
  String.length (a +:+ b) = String.length a + String.length b.
Proof.
  induction a as [|c a IH]; [done|]. rewrite string_app_cons. cbn. by rewrite IH.
Qed.

Lemma endswith_char_iff q s :
  Str.endswith (String q EmptyString) s = true ↔ Str.last s = Some q.
Proof.
  unfold Str.endswith. cbn [String.length].
  destruct (Str.last s) as [c|] eqn:E.
  - rewrite (drop_last _ _ E).
    assert (1 <= String.length s) as Hlen by (destruct s; [done|cbn; lia]).
    apply Nat.leb_le in Hlen. rewrite Hlen. cbn [andb].
    rewrite bool_decide_eq_true. naive_solver.
  - assert (s = EmptyString) as ->; [|done].
    induction s as [|d s IH]; [done|]. destruct s; [done|].
    rewrite last_cons in E by done. by specialize (IH E).
Qed.

Lemma last_snoc_string p c : Str.last (p +:+ String c EmptyString) = Some c.
Proof. by rewrite last_app. Qed.

Lemma unsnoc_string s c :
  Str.last s = Some c → ∃ p, s = p +:+ String c EmptyString.
Proof.
  induction s as [|d s IH]; [done|]. destruct s as [|e s].
  - intros [= ->]. by exists EmptyString.
  - rewrite last_cons by done. intros [p Hp]%IH. exists (String d p).
    by rewrite string_app_cons, <-Hp.
Qed.

Lemma take_app p x : Str.take (String.length p) (p +:+ x) = p.
Proof.
  induction p as [|c p IH]; [by destruct x|].
  rewrite string_app_cons. cbn. by rewrite IH.
Qed.

Lemma take_drop n s : Str.take n s +:+ Str.drop n s = s.
Proof.
  revert s. induction n as [|n IH]; intros [|c s]; try done.
  cbn [Str.take Str.drop]. by rewrite string_app_cons, IH.
Qed.

Lemma take_length n s : n ≤ String.length s → String.length (Str.take n s) = n.
Proof.
  revert s. induction n as [|n IH]; intros [|c s]; cbn; try done; try lia.
  intros H. rewrite IH; lia.
Qed.

Lemma is_same_name_sym a b : is_same_name a b = is_same_name b a.
Proof.
  unfold is_same_name.
  set (anorm := Str.strip Str.isspace (Str.upper a)).
  set (bnorm := Str.strip Str.isspace (Str.upper b)).
  destruct (decide (anorm = bnorm)) as [E|E].
  - by rewrite !bool_decide_eq_true_2.
  - rewrite (bool_decide_eq_false_2 (anorm = bnorm)),
      (bool_decide_eq_false_2 (bnorm = anorm)) by congruence.
    by destruct (Str.endswith "." anorm), (Str.endswith "." bnorm).
Qed.

Lemma abbreviates_match a b :
  name_norm a ≠ name_norm b →
  Str.endswith "." (name_norm a) = true →
  (is_same_name a b = true ↔ abbreviates (name_norm a) (name_norm b)).
Proof.
  unfold is_same_name, name_norm.
  generalize (Str.strip Str.isspace (Str.upper a)). intros anorm.
  generalize (Str.strip Str.isspace (Str.upper b)). intros bnorm.
  intros Hne Ha. rewrite bool_decide_eq_false_2, Ha by done.
  apply endswith_char_iff in Ha as Hla.
  destruct (unsnoc_string _ _ Hla) as [p ->].
  assert (String.length (p +:+ ".") - 1 = String.length p) as Hlen.
  { rewrite string_length_app. cbn. lia. }
  rewrite Hlen, take_app.
  destruct (Str.endswith "." bnorm) eqn:Hb; cbn [xorb negb].
  - split; [done|]. intros (_ & _ & _ & _ & _ & Hl).
    by apply endswith_char_iff in Hb.
  - assert (Str.last bnorm ≠ Some "."%char) as Hlb.
    { intros ?%endswith_char_iff. congruence. }
    assert (∀ p', p +:+ "." = p' +:+ "." → p = p') as Hinj.
    { intros p' Hp'. apply (f_equal String.rev) in Hp'.
      rewrite !rev_app_distr in Hp'. apply (inj (String.app _)) in Hp'.
      apply (f_equal String.rev) in Hp'. by rewrite !rev_involutive in Hp'. }
    destruct (String.length bnorm <? String.length (p +:+ ".")) eqn:Hlt.
    + split; [done|]. intros (p' & r & Hp' & -> & Hr & _).
      apply Nat.ltb_lt in Hlt. apply Hinj in Hp' as <-.
      rewrite !string_length_app in Hlt. cbn in Hlt.
      destruct r; [done|]. cbn in Hlt. lia.
    + apply Nat.ltb_ge in Hlt. rewrite bool_decide_eq_true. split.
      * intros Hpre. exists p, (Str.drop (String.length p) bnorm).
        split_and!; [done| |  |done].
        -- rewrite Hpre at 1. by rewrite take_drop.
        -- intros Hr. pose proof (take_drop (String.length p) bnorm) as Htd.
           rewrite Hr, string_app_nil_r, <-Hpre in Htd.
           rewrite <-Htd, string_length_app in Hlt. cbn in Hlt. lia.
      * intros (p' & r & Hp' & -> & Hr & _). apply Hinj in Hp' as <-.
        by rewrite take_app.
Qed.

(** X9. [is_same_name] is symmetric, and it holds exactly when the two
    names are equal once put in upper case and stripped, or when one of
    them ends in a dot, the other does not, and the dotted one without
    its dot is a proper beginning of the other: a name closed by a dot
    matches every longer name that it abbreviates. *)
Theorem is_same_name_matches_abbreviation (a b : string) :
  is_same_name a b = is_same_name b a ∧
  (is_same_name a b = true ↔
     name_norm a = name_norm b ∨
     abbreviates (name_norm a) (name_norm b) ∨
     abbreviates (name_norm b) (name_norm a)).
Proof.
  split; [apply is_same_name_sym|].
  destruct (decide (name_norm a = name_norm b)) as [E|E].
  { split; [auto|]. intros _. unfold is_same_name, name_norm in *.
    by rewrite bool_decide_eq_true_2. }
  assert (∀ x y, abbreviates x y → Str.endswith "." x = true ∧ Str.endswith "." y = false)
    as Habbr.
  { intros x y (p & r & -> & _ & _ & Hl). split.
    - apply endswith_char_iff, last_snoc_string.
    - apply not_true_is_false. by intros ?%endswith_char_iff. }
  destruct (Str.endswith "." (name_norm a)) eqn:Ha.
  - rewrite abbreviates_match by done. split; [auto|].
    intros [?|[?|H]]; [done..|]. apply Habbr in H as [_ H]. congruence.
  - destruct (Str.endswith "." (name_norm b)) eqn:Hb.
    + rewrite is_same_name_sym, abbreviates_match by done. split; [auto|].
      intros [?|[H|?]]; [done| |done]. apply Habbr in H as [H _]. congruence.
    + split.
      * unfold is_same_name. fold (name_norm a) (name_norm b).
        by rewrite bool_decide_eq_false_2, Ha, Hb by done.
      * intros [?|[H|H]]; [done|..]; apply Habbr in H as [H _]; congruence.
Qed.

(** ** More on the graph functions *)

(** *** Clusters of [infer_works] *)

(** X10. After a run of [infer_works], the work made for a root is linked,
    in both directions, to every expression from which a chain of one or
    more derivative relations leads to the root; every realisation in the
    result links the root itself or such an expression to the work of its
    root; and a root has no derivative relation to anything. *)
Theorem infer_works_links_whole_clusters
    (graph : nat) (w w' : world) (g : nat) (G : Graph) :
  graphs w !! graph = Some G →
  infer_works graph w = Ok (g, w') →
  ∃ gg, graphs w' !! g = Some gg ∧
    (∀ exp d, exp ∈ Rdf.subjects G RDF_type F2_Expression → work_root G exp →
       tc (derives G) d exp →
       (f1_of exp, R3_is_realised_in, d) ∈ gg ∧ (d, R3i_realises, f1_of exp) ∈ gg) ∧
    (∀ e W, (e, R3i_realises, W) ∈ gg →
       ∃ exp, work_root G exp ∧ W = f1_of exp ∧
              (e = f2_of exp ∨ tc (derives G) e exp)) ∧
    (∀ exp y, work_root G exp → ¬ derives G exp y).
Proof.
  intros HG Hrun.
  destruct (infer_works_run _ _ _ _ _ HG Hrun) as (gg & Hgg & Hnew & _).
  exists gg. split_and!; [done|..].
  - intros exp d Hexp Hroot Hd. apply closure_subjects_spec in Hd.
    exact (infer_works_run_cluster graph w w' g G gg HG Hrun Hgg exp d Hexp Hroot Hd).
  - intros e W Hin. destruct (Hnew _ Hin) as (exp & _ & Hroot & Ht).
    exists exp. split; [done|].
    destruct Ht as [(_ & ? & Hc)|[[Hp _]|[Hp _]]]; cbn in *.
    + split; [done|]. destruct Hc as [?|Hc]; [by left|right].
      by apply closure_subjects_spec.
    + by destruct realises_neq_type.
    + done.
  - intros exp y (Hsrc & _) Hy. apply closure_objects_nil in Hsrc.
    apply elem_of_deriv_targets in Hy. rewrite Hsrc in Hy.
    by apply elem_of_nil in Hy.
Qed.

Lemma infer_works_links_whole_clusters_witness :
  ∃ g w', infer_works 0 (World [two_sources_example] ∅) = Ok (g, w') ∧
    ∃ gg, graphs w' !! g = Some gg ∧
      (∀ exp d, exp ∈ Rdf.subjects two_sources_example RDF_type F2_Expression →
         work_root two_sources_example exp →
         tc (derives two_sources_example) d exp →
         (f1_of exp, R3_is_realised_in, d) ∈ gg ∧ (d, R3i_realises, f1_of exp) ∈ gg) ∧
      (∀ e W, (e, R3i_realises, W) ∈ gg →
         ∃ exp, work_root two_sources_example exp ∧ W = f1_of exp ∧
                (e = f2_of exp ∨ tc (derives two_sources_example) e exp)) ∧
      (∀ exp y, work_root two_sources_example exp → ¬ derives two_sources_example exp y).
Proof.
  destruct (infer_works 0 (World [two_sources_example] ∅)) as [[g w']|e] eqn:H.
  - exists g, w'. split; [reflexivity|].
    exact (infer_works_links_whole_clusters 0 (World [two_sources_example] ∅) w' g
             two_sources_example eq_refl H).
  - vm_compute in H. discriminate H.
Defined.

(** *** What a propagation changes *)

Lemma appends_marks_refl predicate object g : appends_marks predicate object g g.
Proof. exists []. rewrite app_nil_r. repeat split; constructor. Qed.

Lemma appends_marks_trans predicate object g1 g2 g3 :
  appends_marks predicate object g1 g2 → appends_marks predicate object g2 g3 →
  appends_marks predicate object g1 g3.
Proof.
  intros (ys1 & -> & Hnd1 & Hnew1) (ys2 & -> & Hnd2 & Hnew2).
  exists (ys1 ++ ys2). rewrite fmap_app, app_assoc. split; [done|].
  rewrite Forall_forall in Hnew2. split.
  - apply NoDup_app. split; [done|]. split; [|done].
    intros y H1 H2. apply (Hnew2 y H2). apply elem_of_app. right.
    apply list_elem_of_fmap. eauto.
  - apply Forall_app. split; [done|]. apply Forall_forall. intros y Hy Hin.
    apply (Hnew2 y Hy). apply elem_of_app. by left.
Qed.

Lemma appends_marks_add predicate object g y :
  (y, predicate, object) ∉ g →
  appends_marks predicate object g (Rdf.add g (y, predicate, object)).
Proof.
  intros Hy. exists [y]. rewrite add_fresh by done.
  repeat split; [apply NoDup_singleton|by constructor].
Qed.

Lemma propagate_loop_appends recur predicate object np :
  (∀ g n g', recur g n = Some (Ok g') → appends_marks predicate object g g') →
  ∀ linked g g',
    propagate_loop recur predicate object np linked g = Some (Ok g') →
    appends_marks predicate object g g'.
Proof.
  intros Hrec. induction linked as [|node linked IH]; intros g g'; cbn [propagate_loop].
  - intros [= <-]. apply appends_marks_refl.
  - destruct (resolve np g node) as [y|].
    2:{ destruct (Rdf.contains g None (Some predicate) (Some object)); [by apply IH|done]. }
    destruct (Rdf.contains g (Some y) (Some predicate) (Some object)) eqn:Hc;
      [by apply IH|].
    cbn [Rdf.add_checked].
    destruct (recur (Rdf.add g (y, predicate, object)) node) as [[g2|]|] eqn:Hr; [|done..].
    intros Hloop.
    apply (appends_marks_trans _ _ _ (Rdf.add g (y, predicate, object)));
      [|apply (appends_marks_trans _ _ _ g2)].
    + apply appends_marks_add. intros Hin%contains_exact. congruence.
    + by eapply Hrec.
    + by apply IH.
Qed.

Lemma propagate_through_prop_appends fuel : ∀ graph src hier predicate object np graph',
  propagate_through_prop fuel graph src hier predicate object np = Some (Ok graph') →
  appends_marks predicate object graph graph'.
Proof.
  induction fuel as [|fuel IH]; intros graph src hier predicate object np graph'; [done|].
  cbn [propagate_through_prop]. apply propagate_loop_appends.
  intros g n g'. apply IH.
Qed.

(** X11. A propagation that returns changes the graph only by appending
    triples that attach the propagated value through the propagated
    relation, each to a node that did not carry it and each once: nothing
    is removed, reordered or otherwise added. *)
Theorem propagate_only_appends_marks
    (fuel : nat) (graph : Graph) (src hier predicate object : term)
    (np : option term) (graph' : Graph) :
  propagate_through_prop fuel graph src hier predicate object np = Some (Ok graph') →
  ∃ ys, graph' = graph ++ ((λ y, (y, predicate, object)) <$> ys) ∧
        NoDup ys ∧ Forall (λ y, (y, predicate, object) ∉ graph) ys.
Proof. apply propagate_through_prop_appends. Qed.

Lemma propagate_only_appends_marks_witness :
  ∃ graph', propagate_through_prop 3 example_hierarchy (LKG "F2_r") R5_has_component
              S142_written_by (LKG "E21_P1") None = Some (Ok graph') ∧
    ∃ ys, graph' = example_hierarchy ++ ((λ y, (y, S142_written_by, LKG "E21_P1")) <$> ys) ∧
          NoDup ys ∧ Forall (λ y, (y, S142_written_by, LKG "E21_P1") ∉ example_hierarchy) ys.
Proof.
  destruct (propagate_through_prop 3 example_hierarchy (LKG "F2_r") R5_has_component
              S142_written_by (LKG "E21_P1") None) as [[graph'|]|] eqn:H.
  - exists graph'. split; [reflexivity|].
    exact (propagate_only_appends_marks 3 example_hierarchy (LKG "F2_r")
             R5_has_component S142_written_by (LKG "E21_P1") None graph' H).
  - vm_compute in H. discriminate H.
  - vm_compute in H. discriminate H.
Defined.

(** *** The component links of [add_nonfic] *)

Lemma mirrored_add_pair g x y :
  mirrored g →
  mirrored (Rdf.add (Rdf.add g (x, R5_has_component, y)) (y, R5i_is_component_of, x)).
Proof.
  intros Hm a b. rewrite !elem_of_add. rewrite (Hm a b).
  pose proof hasc_neq_compof. split; intros [[?|?]|?]; simplify_eq; auto.
Qed.

(** X12. The component links that [add_nonfic] writes for a row keep the
    two component relations mirrored: on a graph in which has-component
    and is-component-of are each other's inverse they still are after the
    links to the parts of the row and to its parent have been added. *)
Theorem link_parts_keeps_components_mirrored
    (graph : Graph) (f2_uri has_part part_of : string) :
  mirrored graph → mirrored (link_parts graph f2_uri has_part part_of).
Proof.
  intros Hm. unfold link_parts.
  assert (mirrored (foldl (λ g component,
             let component_f2_uri := "F2_" +:+ component in
             Rdf.add (Rdf.add g (LKG f2_uri, R5_has_component, LKG component_f2_uri))
                     (LKG component_f2_uri, R5i_is_component_of, LKG f2_uri))
          graph (Str.words has_part))) as Hparts.
  { revert graph Hm. induction (Str.words has_part) as [|c l IH]; intros graph Hm; [done|].
    cbn [foldl]. apply IH. by apply mirrored_add_pair. }
  case_bool_decide; [|done]. by apply mirrored_add_pair.
Qed.

Lemma link_parts_keeps_components_mirrored_witness :
  mirrored (link_parts [] "F2_NFPL4" "NFPL4.1 NFPL4.2" "").
Proof.
  apply (link_parts_keeps_components_mirrored [] "F2_NFPL4" "NFPL4.1 NFPL4.2" "").
  intros x y. split; intros H; by apply elem_of_nil in H.
Defined.

(** *** Derivative relations handed down to the components *)

Lemma component_closure_spec (G : Graph) s c :
  c ∈ component_closure G s ↔ tc (has_component G) s c.
Proof.
  unfold component_closure.
  rewrite (closure_go_spec (λ x, Rdf.objects G x R5_has_component)
             (filter (λ t, pred t = R5_has_component) G) subj).
  - apply tc_iff. intros a b. apply elem_of_objects.
  - intros z. unfold Rdf.objects, Rdf.triples.
    rewrite length_fmap, list_filter_filter. f_equal.
    apply list_filter_iff. intros t.
    rewrite Is_true_true, matches_spec, !pat_ok_Some. cbn. tauto.
  - pose proof (length_filter (λ t, pred t = R5_has_component) G). lia.
Qed.

Lemma elem_of_foldl_step {A} (step : Graph → A → Graph) (F : A → triple → Prop) :
  (∀ g x t, t ∈ step g x ↔ t ∈ g ∨ F x t) →
  ∀ l g t, t ∈ foldl step g l ↔ t ∈ g ∨ ∃ x, x ∈ l ∧ F x t.
Proof.
  intros Hstep. induction l as [|x l IH]; intros g t; cbn [foldl].
  - split; [by left|]. by intros [?|(? & []%elem_of_nil & _)].
  - rewrite IH, Hstep. setoid_rewrite elem_of_cons. naive_solver.
Qed.

Lemma elem_of_subject_objects g p s o :
  (s, o) ∈ subject_objects g p ↔ (s, p, o) ∈ g.
Proof.
  unfold subject_objects. rewrite elem_of_remove_dups, list_elem_of_fmap. split.
  - intros ([[s' p'] o'] & [= -> ->] & [Hin Hm]%elem_of_triples).
    apply matches_spec in Hm as (_ & Hp%pat_ok_Some & _). cbn in Hp. by subst.
  - intros Hin. exists (s, p, o). split; [done|]. apply elem_of_triples.
    split; [done|]. apply matches_spec. by rewrite pat_ok_Some.
Qed.

(** X13. The graph that [gather_down_derivatives] returns holds exactly
    this: for every derivative relation from s to o in the input and every
    expression c below s in the component hierarchy, at any depth, the
    same relation from c to o and the reduced-form relation from c to o. *)
Theorem gather_down_derivatives_spec (G : Graph) (c p o : term) :
  (c, p, o) ∈ gather_down_derivatives G ↔
  ∃ s drel, drel ∈ derivrels ∧ (s, drel, o) ∈ G ∧ tc (has_component G) s c ∧
            (p = drel ∨ p = S763_is_reduced_form_of).
Proof.
  unfold gather_down_derivatives.
  rewrite (elem_of_foldl_step _ (λ drel t, ∃ s,
             (s, drel, obj t) ∈ G ∧ tc (has_component G) s (subj t) ∧
             (pred t = drel ∨ pred t = S763_is_reduced_form_of))).
  - rewrite elem_of_nil. cbn. naive_solver.
  - intros g drel t.
    rewrite (elem_of_foldl_step _ (λ so t,
               obj t = so.2 ∧ tc (has_component G) so.1 (subj t) ∧
               (pred t = drel ∨ pred t = S763_is_reduced_form_of))).
    + split; (intros [?|H]; [by left|right]).
      * destruct H as ([s o'] & Hso%elem_of_subject_objects & Ho & Htc & Hp).
        cbn in *. subst o'. eauto.
      * destruct H as (s & Hin & Htc & Hp). exists (s, obj t).
        by rewrite elem_of_subject_objects.
    + intros g' so t'.
      rewrite (elem_of_foldl_step _ (λ c' t'',
                 subj t'' = c' ∧ obj t'' = so.2 ∧
                 (pred t'' = drel ∨ pred t'' = S763_is_reduced_form_of))).
      * setoid_rewrite component_closure_spec. naive_solver.
      * intros g'' c' [[s' p'] o']. rewrite !elem_of_add. cbn. naive_solver.
Qed.

(** *** Loading a persisted graph *)

Lemma restore_counts_raises numbers_of classes class :
  class ∈ classes → numbers_of class = Ok [] →
  ∀ counts : gmap string Z, ∃ e, restore_counts numbers_of classes counts = Raise e.
Proof.
  intros Hin Hnone. induction classes as [|i classes IH]; intros counts;
    [by apply elem_of_nil in Hin|].
  cbn [restore_counts]. apply elem_of_cons in Hin as [<-|Hin].
  - rewrite Hnone. cbn. eauto.
  - destruct (numbers_of i) as [numbers|e]; cbn [rbind]; [|eauto].
    destruct (zmax numbers) as [m|e]; cbn [rbind]; [|eauto].
    by apply IH.
Qed.

(** X14. [import_lkg] raises on a graph that lacks an instance of any one
    of the ten classes whose counters it restores: the maximum of no
    numbers does not exist.  A graph can only be loaded for further work
    when it holds at least one appellation, identifier, title, time-span,
    person, place, corporate body, work, expression and manifestation. *)
Theorem import_lkg_needs_every_class
    (g : Graph) (counts : gmap string Z) (class : term) :
  class ∈ simple_ids ++ prefixed_ids ++ order_ids →
  Rdf.subjects g RDF_type class = [] →
  ∃ e, import_lkg g counts = Raise e.
Proof.
  intros Hin Hnone. unfold import_lkg.
  rewrite app_assoc in Hin. apply elem_of_app in Hin as [Hin|Hin].
  - destruct (restore_counts_raises (suffix_numbers g) _ class Hin) with (counts := counts)
      as [e ->]; [|by eauto].
    unfold suffix_numbers. by rewrite Hnone.
  - destruct (restore_counts (suffix_numbers g) _ counts) as [counts'|e];
      cbn [rbind]; [|by eauto].
    apply (restore_counts_raises (order_numbers g) _ class Hin).
    unfold order_numbers. by rewrite Hnone.
Qed.

Lemma import_lkg_needs_every_class_witness :
  ∃ e, import_lkg (expression "NFPL1") ∅ = Raise e.
Proof.
  apply (import_lkg_needs_every_class (expression "NFPL1") ∅ E52_Time_Span).
  - by_computation.
  - vm_compute. reflexivity.
Defined.

(** *** The source links of [add_nonfic] *)

Lemma forallb_rev P s : Str.forallb P (String.rev s) = Str.forallb P s.
Proof.
  induction s as [|c s IH]; [done|].
  rewrite rev_cons, forallb_app, IH. cbn. rewrite andb_true_r. apply andb_comm.
Qed.

Lemma REFCHARS_skip c : REFCHARS c = Some None → c = "-"%char.
Proof. unfold REFCHARS. repeat case_bool_decide; naive_solver. Qed.

Lemma REFCHARS_rel c pr :
  REFCHARS c = Some (Some pr) →
  pr ∈ [S762_is_altered_form_of; S763_is_reduced_form_of; S764_is_extended_form_of].
Proof.
  unfold REFCHARS. repeat case_bool_decide; intros [= <-]; set_solver.
Qed.

Lemma scan_refchars_spec : ∀ rref acc r rels skip,
  scan_refchars rref acc = Ok (r, rels, skip) →
  ∃ rmarks rbase, rref = rmarks +:+ rbase ∧ r = String.rev rbase ∧
    Str.forallb (λ c, negb (Str.isdigit c)) rmarks = true ∧
    (∃ extra, rels = acc ++ extra ∧
       Forall (λ p, p ∈ [S762_is_altered_form_of; S763_is_reduced_form_of;
                         S764_is_extended_form_of]) extra) ∧
    (if skip then ∃ t, rbase = String "-" t
     else ∃ c t, rbase = String c t ∧ Str.isdigit c = true).
Proof.
  induction rref as [|c rref IH]; intros acc r rels skip; [done|].
  cbn [scan_refchars]. destruct (Str.isdigit c) eqn:Hd.
  { intros [= <- <- <-]. exists EmptyString, (String c rref).
    split_and!; [done..| |by eauto]. exists []. by rewrite app_nil_r. }
  assert (∀ acc', scan_refchars rref acc' = Ok (r, rels, skip) →
            (∃ extra, acc' = acc ++ extra ∧
               Forall (λ p, p ∈ [S762_is_altered_form_of; S763_is_reduced_form_of;
                                 S764_is_extended_form_of]) extra) →
            ∃ rmarks rbase, String c rref = rmarks +:+ rbase ∧ r = String.rev rbase ∧
              Str.forallb (λ c, negb (Str.isdigit c)) rmarks = true ∧
              (∃ extra, rels = acc ++ extra ∧
                 Forall (λ p, p ∈ [S762_is_altered_form_of; S763_is_reduced_form_of;
                                   S764_is_extended_form_of]) extra) ∧
              (if skip then ∃ t, rbase = String "-" t
               else ∃ c t, rbase = String c t ∧ Str.isdigit c = true)) as Hrec.
  { intros acc' H (extra & -> & Hextra).
    destruct (IH _ _ _ _ H) as (rmarks & rbase & -> & -> & Hm & (extra' & -> & Hextra') & Hs).
    exists (String c rmarks), rbase. split_and!; [done|done| | |done].
    - cbn. by rewrite Hd.
    - exists (extra ++ extra'). rewrite app_assoc. split; [done|].
      by apply Forall_app. }
  destruct (REFCHARS c) as [[pr|]|] eqn:Hc.
  - destruct (truthy (Some pr)); intros H; apply (Hrec _ H).
    + exists [pr]. split; [done|].
      apply Forall_cons. split; [by eapply REFCHARS_rel|constructor].
    + exists []. by rewrite app_nil_r.
  - apply REFCHARS_skip in Hc as ->. intros [= <- <- <-].
    exists EmptyString, (String "-" rref).
    split_and!; [done..| |by eauto]. exists []. by rewrite app_nil_r.
  - intros H. apply (Hrec _ H). exists []. by rewrite app_nil_r.
Qed.

Lemma scan_refchars_no_digit rref acc :
  Str.forallb (λ c, negb (Str.isdigit c)) rref = true →
  Str.contains "-" rref = false →
  scan_refchars rref acc = Raise IndexError.
Proof.
  revert acc. induction rref as [|c rref IH]; intros acc Hnd Hdash; [done|].
  cbn in Hnd. apply andb_true_iff in Hnd as [Hc%negb_true_iff Hnd].
  rewrite contains_char_cons in Hdash. apply orb_false_iff in Hdash as [Hne Hdash].
  apply bool_decide_eq_false in Hne.
  cbn [scan_refchars]. rewrite Hc.
  destruct (REFCHARS c) as [[pr|]|] eqn:E.
  - destruct (truthy (Some pr)); by apply IH.
  - by apply REFCHARS_skip in E.
  - by apply IH.
Qed.

Lemma derivrels_precise p :
  p ∈ [S762_is_altered_form_of; S763_is_reduced_form_of; S764_is_extended_form_of] →
  p ∈ derivrels.
Proof. unfold derivrels. set_solver. Qed.

(** X15. What linking one reference does when it returns.  The trailing
    characters that are not digits are read from the end; a hyphen among
    them makes the reference a citation: the expression gets the skip flag
    and no link.  Otherwise the reference, cut after its last digit, is
    linked by at least one derivative relation, all links go to the
    expression of that cut reference, and nothing else is added.  A
    reference with no digit and no hyphen raises [IndexError]. *)
Theorem link_source_links_or_flags
    (graph : Graph) (f2_uri nfprefix lang ref : string) :
  (∀ graph', link_source graph f2_uri nfprefix lang ref = Ok graph' →
     (∀ t, t ∈ graph → t ∈ graph') ∧
     ((Str.contains "-" ref = true ∧
       graph' = Rdf.add graph (LKG f2_uri, SKIP, Literal_True)) ∨
      (∃ base marks d,
         ref = base +:+ marks ∧ Str.last base = Some d ∧ Str.isdigit d = true ∧
         Str.forallb (λ c, negb (Str.isdigit c)) marks = true ∧
         (∃ p, p ∈ derivrels ∧ (LKG f2_uri, p, LKG ("F2_" +:+ base)) ∈ graph') ∧
         (∀ t, t ∈ graph' →
            t ∈ graph ∨
            ∃ q, q ∈ derivrels ∧ t = (LKG f2_uri, q, LKG ("F2_" +:+ base)))))) ∧
  (Str.forallb (λ c, negb (Str.isdigit c)) ref = true →
   Str.contains "-" ref = false →
   link_source graph f2_uri nfprefix lang ref = Raise IndexError).
Proof.
  split.
  - intros graph'. unfold link_source.
    destruct (scan_refchars (String.rev ref) []) as [[[r rels] skip]|] eqn:Hscan;
      cbn [rbind]; [|done].
    destruct (scan_refchars_spec _ _ _ _ _ Hscan)
      as (rmarks & rbase & Href & -> & Hmarks & (extra & -> & Hextra) & Hskip).
    apply (f_equal String.rev) in Href.
    rewrite rev_involutive, rev_app_distr in Href. cbn [app] in *.
    destruct skip.
    + intros [= <-]. split; [intros t Ht; apply elem_of_add; by left|].
      left. split; [|done]. destruct Hskip as [tl ->]. rewrite Href.
      rewrite rev_cons, !contains_char_app, contains_char_cons.
      rewrite bool_decide_eq_true_2 by done. by rewrite !orb_true_r.
    + destruct Hskip as (d & tl & -> & Hd).
      set (base := String.rev (String d tl)) in *.
      set (mk := λ pr : term, (LKG f2_uri, pr, LKG ("F2_" +:+ base))).
      assert (∀ rels', Forall (λ p, p ∈ derivrels) rels' →
                (match rels' with
                 | [] => Ok (Rdf.add (foldl (λ g pr, Rdf.add g (mk pr)) graph rels')
                               (mk R76_is_derivative_of))
                 | _ :: _ => Ok (foldl (λ g pr, Rdf.add g (mk pr)) graph rels')
                 end) = Ok graph' →
                (∀ t, t ∈ graph → t ∈ graph') ∧
                (∃ p, p ∈ derivrels ∧ mk p ∈ graph') ∧
                (∀ t, t ∈ graph' → t ∈ graph ∨ ∃ q, q ∈ derivrels ∧ t = mk q)) as Hfin.
      { intros rels' Hrels. rewrite Forall_forall in Hrels.
        destruct rels' as [|p rels'].
        - cbn [foldl]. intros [= <-]. split_and!.
          + intros t Ht. apply elem_of_add. by left.
          + exists R76_is_derivative_of. split; [by left|]. apply elem_of_add. by right.
          + intros t [?| ->]%elem_of_add; [by left|right].
            exists R76_is_derivative_of. split; [by left|done].
        - intros Heq.
          assert (graph' = foldl (λ g pr, Rdf.add g (mk pr)) graph (p :: rels'))
            as -> by congruence.
          split_and!.
          + intros t Ht. apply (elem_of_foldl_add mk). by left.
          + exists p. split; [apply Hrels; left|].
            apply (elem_of_foldl_add mk). right. exists p. split; [left|done].
          + intros t [?|(q & Hq & ->)]%(elem_of_foldl_add mk); [by left|right].
            exists q. split; [by apply Hrels|done]. }
      assert (Forall (λ p, p ∈ derivrels) extra) as Hextra'.
      { eapply Forall_impl; [exact Hextra|]. intros p. apply derivrels_precise. }
      intros H.
      assert ((∀ t, t ∈ graph → t ∈ graph') ∧
              (∃ p, p ∈ derivrels ∧ mk p ∈ graph') ∧
              (∀ t, t ∈ graph' → t ∈ graph ∨ ∃ q, q ∈ derivrels ∧ t = mk q))
        as (Hkeep & Hlink & Honly).
      { destruct (Str.startswith nfprefix base).
        - destruct (Str.re_match Str.isletter _) as [nextprefix|];
            cbn [rbind] in H; [|done].
          case_bool_decide; cbn [rbind] in H.
          + apply (Hfin (extra ++ [S761_is_translation_of])); [|done].
            apply Forall_app. split; [done|]. apply Forall_singleton.
            unfold derivrels. set_solver.
          + by apply (Hfin extra).
        - cbn [rbind] in H. by apply (Hfin extra). }
      split; [done|]. right. exists base, (String.rev rmarks), d.
      split_and!; [done| |done| |done|done].
      * unfold base. rewrite rev_cons. apply last_snoc_string.
      * by rewrite forallb_rev.
  - intros Hnd Hdash. unfold link_source.
    rewrite scan_refchars_no_digit; [done| |].
    + by rewrite forallb_rev.
    + by rewrite contains_char_rev.
Qed.

Lemma link_source_links_or_flags_witness :
  (∃ graph', link_source [] "F2_NFRU7" "NF" "RU" "NFPL12.3>" = Ok graph' ∧
     (∀ t, t ∈ [] → t ∈ graph') ∧
     ((Str.contains "-" "NFPL12.3>" = true ∧
       graph' = Rdf.add [] (LKG "F2_NFRU7", SKIP, Literal_True)) ∨
      (∃ base marks d,
         "NFPL12.3>" = base +:+ marks ∧ Str.last base = Some d ∧ Str.isdigit d = true ∧
         Str.forallb (λ c, negb (Str.isdigit c)) marks = true ∧
         (∃ p, p ∈ derivrels ∧ (LKG "F2_NFRU7", p, LKG ("F2_" +:+ base)) ∈ graph') ∧
         (∀ t, t ∈ graph' →
            t ∈ [] ∨
            ∃ q, q ∈ derivrels ∧ t = (LKG "F2_NFRU7", q, LKG ("F2_" +:+ base)))))) ∧
  link_source [] "F2_NFRU7" "NF" "RU" "abc" = Raise IndexError.
Proof.
  split.
  - destruct (link_source [] "F2_NFRU7" "NF" "RU" "NFPL12.3>") as [graph'|e] eqn:H.
    + exists graph'. split; [reflexivity|].
      exact (proj1 (link_source_links_or_flags [] "F2_NFRU7" "NF" "RU" "NFPL12.3>")
               graph' H).
    + vm_compute in H. discriminate H.
  - apply (proj2 (link_source_links_or_flags [] "F2_NFRU7" "NF" "RU" "abc"));
      vm_compute; reflexivity.
Defined.
